(** * launchpad-dependency-injection: the resolution engine, verified

    A shallow embedding of the dependency-injection container of the
    repository and the properties of its specification.

    The repository carries two generations of the container:
    - [Inject]: [src/container/Container.ts] with the [@inject] parameter
      decorator; the container resolves the declared dependency tokens
      itself and hands them to the constructor;
    - [Ambient]: the Koin-style [Container] that goes with
      [container/context.ts]; constructors take no arguments and call
      [get(token)] on the globally active container.

    Both share [types.ts] and [errors.ts], embedded first. *)

From stdpp Require Import base gmap strings list.

(** ** Tokens ([container/types.ts]) *)

(** A JavaScript symbol: an identity that no other symbol shares, and the
    description it was created with.  [===] on symbols compares identities. *)
Record JsSymbol := mkSymbol { sym_id : nat; sym_description : string }.

(** [Symbol.prototype.toString]. *)
Definition symbol_toString (s : JsSymbol) : string :=
  "Symbol(" +:+ sym_description s +:+ ")".

Definition symbol_eqb (a b : JsSymbol) : bool := Nat.eqb (sym_id a) (sym_id b).

Record Token := mkToken { symbol : JsSymbol; description : string }.

(** [createToken(description)]: [Symbol(description)] draws the next unused
    identity of the realm, passed in and out as a counter. *)
Definition createToken (descr : string) (next_symbol : nat) : Token * nat :=
  ({| symbol := {| sym_id := next_symbol; sym_description := descr |};
      description := descr |},
   S next_symbol).

Inductive Lifecycle := Singleton | Transient.

(** ** Errors ([container/errors.ts], [container/context.ts]) *)

(** What a [throw] can carry: one of the library's error classes with its
    constructor arguments, an [Error] raised by application code, or a value
    that is not an [Error] at all. *)
Inductive Thrown :=
  | DependencyNotFoundError (token : Token)
  | CircularDependencyError (chain : list Token)
  | InvalidConstructorError (token : Token) (message : string)
  | NotInjectableError (className : string)
  | NoActiveContainerError
  | UserError (message : string)
  | NonError.

(** [chain.map((t) => t.description).join(' -> ')] *)
Definition chainStr (chain : list Token) : string :=
  String.concat " -> " (map description chain).

(** The [message] property each error class passes to [super(...)];
    [None] for a thrown value that has none. *)
Definition error_message (e : Thrown) : option string :=
  match e with
  | DependencyNotFoundError token =>
      Some ("Dependency not found: " +:+ description token +:+
            " (" +:+ symbol_toString (symbol token) +:+ ")")
  | CircularDependencyError chain =>
      Some ("Circular dependency detected: " +:+ chainStr chain)
  | InvalidConstructorError token message =>
      Some ("Invalid constructor for " +:+ description token +:+ ": " +:+ message)
  | NotInjectableError className =>
      Some ("Class " +:+ className +:+
            " is not marked as injectable. Use @injectable(), @singleton(), or @transient() decorator.")
  | NoActiveContainerError =>
      Some "No active container. Call setContainer() before using get(), or ensure resolve() has been called."
  | UserError message => Some message
  | NonError => None
  end.

(** The [name] property set by each error class. *)
Definition error_name (e : Thrown) : option string :=
  match e with
  | DependencyNotFoundError _ => Some "DependencyNotFoundError"
  | CircularDependencyError _ => Some "CircularDependencyError"
  | InvalidConstructorError _ _ => Some "InvalidConstructorError"
  | NotInjectableError _ => Some "NotInjectableError"
  | NoActiveContainerError => Some "NoActiveContainerError"
  | UserError _ => Some "Error"
  | NonError => None
  end.

(** [error instanceof Error ? error.message : 'Unknown error'] *)
Definition cause_text (e : Thrown) : string :=
  match error_message e with
  | Some m => m
  | None => "Unknown error"
  end.



(** The error classes that [errors.ts] defines for the container. *)
Definition container_error (e : Thrown) : Prop :=
  match e with
  | DependencyNotFoundError _ | CircularDependencyError _
  | InvalidConstructorError _ _ | NotInjectableError _ => True
  | _ => False
  end.

(** ** Values, objects and completions *)

(** A resolved instance is a reference into the heap of constructed
    objects; [===] on instances compares references. *)
Inductive Value := VUndefined | VObject (ref : nat).

Record Obj := mkObj { obj_class : nat; obj_fields : list Value }.

(** How a call ends: normally with a value, or abruptly with a [throw]. *)
Inductive Completion (A : Type) :=
  | Return (a : A)
  | Throw (e : Thrown).
Arguments Return {A} a.
Arguments Throw {A} e.

(** * Constructor injection ([src/container/Container.ts]) *)

Module Inject.

(** One element of the array that the [@inject] decorators leave on a
    class.  [existingTokens[parameterIndex] = token] fills the decorated
    positions only: an undecorated parameter before a decorated one is an
    empty slot of the array, which [Array.prototype.map] skips; a slot
    holding [undefined] is visited. *)
Inductive Slot := Hole | Undef | Tok (t : Token).

(** A class as the container sees it: its identity and name, the metadata
    that the decorators attached ([metadata.ts], [decorators.ts]), and
    what running its constructor on the resolved arguments does
    ([Some e]: it throws [e]). *)
Record Class := mkClass {
  class_id : nat;
  class_name : string;
  injectable_meta : bool;
  lifecycle_meta : option Lifecycle;
  inject_tokens_meta : option (list Slot);
  ctor_body : list Value -> option Thrown
}.

(** The [implementation] argument of [register], which the code tests with
    [typeof implementation !== 'function']. *)
Inductive Implementation := NotAFunction | Ctor (c : Class).

Definition isInjectable (c : Class) : bool := injectable_meta c.
Definition getLifecycle (c : Class) : option Lifecycle := lifecycle_meta c.
Definition getInjectTokens (c : Class) : option (list Slot) := inject_tokens_meta c.

Record Binding := mkBinding {
  implementation : Class;
  lifecycle : Lifecycle;
  token : Token
}.

(** The fields of [class Container]; both maps are keyed by the identity
    of [token.symbol], [typeToTokenMap] by the identity of the class. *)
Record Container := mkContainer {
  bindings : gmap nat Binding;
  singletons : gmap nat Value;
  resolutionStack : list Token;
  typeToTokenMap : gmap nat Token
}.

(** [new Container()] *)
Definition empty_container : Container :=
  {| bindings := ∅; singletons := ∅; resolutionStack := []; typeToTokenMap := ∅ |}.

(** A container together with the heap of the objects constructed so far. *)
Record State := mkState { this : Container; heap : list Obj }.

Definition key (t : Token) : nat := sym_id (symbol t).

(** [register(token, implementation)] *)
Definition register (tok : Token) (impl : Implementation) (c : Container)
  : Completion unit * Container :=
  match impl with
  | NotAFunction =>
      (Throw (InvalidConstructorError tok "Implementation must be a constructor function"), c)
  | Ctor cls =>
      if negb (isInjectable cls) then (Throw (NotInjectableError (class_name cls)), c)
      else
        let lc := default Transient (getLifecycle cls) in
        let binding := {| implementation := cls; lifecycle := lc; token := tok |} in
        (Return tt,
         {| bindings := <[key tok := binding]> (bindings c);
            singletons := singletons c;
            resolutionStack := resolutionStack c;
            typeToTokenMap := <[class_id cls := tok]> (typeToTokenMap c) |})
  end.

(** [isRegistered(token)] *)
Definition isRegistered (tok : Token) (c : Container) : bool :=
  bool_decide (is_Some (bindings c !! key tok)).

(** [clear()] *)
Definition clear (c : Container) : Container :=
  {| bindings := bindings c; singletons := ∅; resolutionStack := [];
     typeToTokenMap := typeToTokenMap c |}.

(** [reset()] *)
Definition reset (c : Container) : Container :=
  {| bindings := ∅; singletons := ∅; resolutionStack := []; typeToTokenMap := ∅ |}.

(** [this.resolutionStack.some((t) => t.symbol === token.symbol)] *)
Definition in_flight (tok : Token) (stack : list Token) : bool :=
  existsb (fun t => symbol_eqb (symbol t) (symbol tok)) stack.

Definition with_stack (stack : list Token) (c : Container) : Container :=
  {| bindings := bindings c; singletons := singletons c;
     resolutionStack := stack; typeToTokenMap := typeToTokenMap c |}.

Definition cache (tok : Token) (v : Value) (c : Container) : Container :=
  {| bindings := bindings c; singletons := <[key tok := v]> (singletons c);
     resolutionStack := resolutionStack c; typeToTokenMap := typeToTokenMap c |}.

(** [resolutionStack.push(token)] and [resolutionStack.pop()] *)
Definition push (tok : Token) (c : Container) : Container :=
  with_stack (resolutionStack c ++ [tok]) c.
Definition pop (c : Container) : Container :=
  with_stack (removelast (resolutionStack c)) c.

(** [new ctor(...args)]: the constructor body runs; if it throws nothing the
    new object gets the next reference of the heap. *)
Definition construct (cls : Class) (args : list Value) (h : list Obj)
  : Completion Value * list Obj :=
  match ctor_body cls args with
  | Some e => (Throw e, h)
  | None => (Return (VObject (length h)),
             h ++ [{| obj_class := class_id cls; obj_fields := args |}])
  end.

Section Resolution.

(** The recursive call [this.resolve(depToken)]. *)
Variable resolve_rec : Token -> State -> option (Completion Value * State).

(** [injectTokens.map((depToken) => ...)] of [createInstance], for the
    class bound to [tok]: the callback runs on the slots in order and the
    first throw ends the whole [map]. *)
Fixpoint resolveDeps (tok : Token) (slots : list Slot) (s : State)
  : option (Completion (list Value) * State) :=
  match slots with
  | [] => Some (Return [], s)
  | Hole :: rest =>
      match resolveDeps tok rest s with
      | Some (Return vs, s') => Some (Return (VUndefined :: vs), s')
      | other => other
      end
  | Undef :: _ =>
      Some (Throw (InvalidConstructorError tok
                     "Missing @inject decorator for constructor parameter"), s)
  | Tok dep :: rest =>
      match bindings (this s) !! key dep with
      | None => Some (Throw (DependencyNotFoundError dep), s)
      | Some _ =>
          match resolve_rec dep s with
          | None => None
          | Some (Throw e, s') => Some (Throw e, s')
          | Some (Return v, s') =>
              match resolveDeps tok rest s' with
              | Some (Return vs, s'') => Some (Return (v :: vs), s'')
              | other => other
              end
          end
      end
  end.

(** [createInstance(token, ctor)] *)
Definition createInstance (tok : Token) (cls : Class) (s : State)
  : option (Completion Value * State) :=
  match getInjectTokens cls with
  | None | Some [] =>
      match construct cls [] (heap s) with
      | (Return v, h) => Some (Return v, {| this := this s; heap := h |})
      | (Throw e, h) =>
          Some (Throw (InvalidConstructorError tok
                         ("Failed to instantiate (no dependencies declared with @inject): "
                          +:+ cause_text e)),
                {| this := this s; heap := h |})
      end
  | Some slots =>
      match resolveDeps tok slots s with
      | None => None
      | Some (Throw e, s') => Some (Throw e, s')
      | Some (Return args, s') =>
          match construct cls args (heap s') with
          | (Return v, h) => Some (Return v, {| this := this s'; heap := h |})
          | (Throw e, h) =>
              Some (Throw (InvalidConstructorError tok
                             ("Failed to instantiate: " +:+ cause_text e)),
                    {| this := this s'; heap := h |})
          end
      end
  end.

End Resolution.

(** [resolve(token)].  The recursion through [createInstance] is bounded by
    [fuel]; [None] means the bound was too small (see [resolve_total]). *)
Fixpoint resolve (fuel : nat) (tok : Token) (s : State)
  : option (Completion Value * State) :=
  match fuel with
  | 0 => None
  | S fuel' =>
      match bindings (this s) !! key tok with
      | None => Some (Throw (DependencyNotFoundError tok), s)
      | Some binding =>
          if in_flight tok (resolutionStack (this s)) then
            Some (Throw (CircularDependencyError (resolutionStack (this s) ++ [tok])), s)
          else
            match lifecycle binding, singletons (this s) !! key tok with
            | Singleton, Some v => Some (Return v, s)
            | _, _ =>
                let s1 := {| this := push tok (this s); heap := heap s |} in
                match createInstance (resolve fuel') tok (implementation binding) s1 with
                | None => None
                | Some (Return instance, s2) =>
                    let c3 := match lifecycle binding with
                              | Singleton => cache tok instance (this s2)
                              | Transient => this s2
                              end in
                    Some (Return instance, {| this := pop c3; heap := heap s2 |})
                | Some (Throw e, s2) =>
                    Some (Throw e, {| this := pop (this s2); heap := heap s2 |})
                end
            end
      end
  end.

(** ** Sequences of calls on one container *)

Inductive Op :=
  | Register (tok : Token) (impl : Implementation)
  | Resolve (fuel : nat) (tok : Token)
  | IsRegistered (tok : Token)
  | Clear
  | Reset.

(** One call; an exception it raises is caught by the caller and the
    program goes on.  [None]: the fuel of a [Resolve] was too small. *)
Definition step (op : Op) (s : State) : option State :=
  match op with
  | Register tok impl =>
      Some {| this := snd (register tok impl (this s)); heap := heap s |}
  | Resolve fuel tok => snd <$> resolve fuel tok s
  | IsRegistered _ => Some s
  | Clear => Some {| this := clear (this s); heap := heap s |}
  | Reset => Some {| this := reset (this s); heap := heap s |}
  end.

Fixpoint run (ops : list Op) (s : State) : option State :=
  match ops with
  | [] => Some s
  | op :: rest =>
      match step op s with
      | Some s' => run rest s'
      | None => None
      end
  end.

(** Neither [clear()] nor [reset()]. *)
Definition keeps_cache (op : Op) : bool :=
  match op with
  | Clear | Reset => false
  | _ => true
  end.

(** ** Predicates used in the statements *)

(** [v] is a reference to an object of the heap [h]. *)
Definition allocated (v : Value) (h : list Obj) : Prop :=
  ∃ r, v = VObject r ∧ r < length h.

(** Every cached instance is an object of the heap. *)
Definition cache_allocated (s : State) : Prop :=
  ∀ k v, singletons (this s) !! k = Some v → allocated v (heap s).

(** [v] is the object that a call taking [s] to [s'] constructed last, an
    instance of [cls]; it did not exist in [s]. *)
Definition fresh_instance (cls : Class) (s s' : State) (v : Value) : Prop :=
  ∃ ref args, v = VObject ref ∧ length (heap s) ≤ ref ∧ length (heap s') = S ref ∧
    heap s' !! ref = Some {| obj_class := class_id cls; obj_fields := args |}.

(** What a call of [resolve] may change: it keeps the bindings, the
    in-flight path and the type map, only adds objects, keeps every cached
    instance, and caches only under tokens that are bound as singletons. *)
Record frame (s s' : State) : Prop := mkFrame {
  frame_bindings : bindings (this s') = bindings (this s);
  frame_stack : resolutionStack (this s') = resolutionStack (this s);
  frame_types : typeToTokenMap (this s') = typeToTokenMap (this s);
  frame_heap : heap s `prefix_of` heap s';
  frame_cache_keep : ∀ k v,
    singletons (this s) !! k = Some v → singletons (this s') !! k = Some v;
  frame_cache_new : ∀ k,
    singletons (this s) !! k = None → is_Some (singletons (this s') !! k) →
    ∃ b, bindings (this s) !! k = Some b ∧ lifecycle b = Singleton
}.

(** What a call of [resolve] that ends with [r] guarantees: the frame, and
    that cached and returned instances are objects of the heap. *)
Definition post (s : State) (r : Completion Value) (s' : State) : Prop :=
  frame s s' ∧
  (cache_allocated s →
   cache_allocated s' ∧ ∀ v, r = Return v → allocated v (heap s')).

(** The state in which [createInstance] starts, and the state that
    [resolve] leaves once [createInstance] has ended with [r] in [s2]. *)
Definition entered (tok : Token) (s : State) : State :=
  {| this := push tok (this s); heap := heap s |}.

Definition settle (tok : Token) (b : Binding) (r : Completion Value) (s2 : State)
  : State :=
  {| this := pop (match r, lifecycle b with
                  | Return instance, Singleton => cache tok instance (this s2)
                  | _, _ => this s2
                  end);
     heap := heap s2 |}.

(** The four ways through [resolve]. *)
Inductive resolve_case (fuel : nat) (tok : Token) (s : State)
  : Completion Value → State → Prop :=
  | case_not_found :
      bindings (this s) !! key tok = None →
      resolve_case fuel tok s (Throw (DependencyNotFoundError tok)) s
  | case_circular b :
      bindings (this s) !! key tok = Some b →
      in_flight tok (resolutionStack (this s)) = true →
      resolve_case fuel tok s
        (Throw (CircularDependencyError (resolutionStack (this s) ++ [tok]))) s
  | case_cached b v :
      bindings (this s) !! key tok = Some b →
      in_flight tok (resolutionStack (this s)) = false →
      lifecycle b = Singleton →
      singletons (this s) !! key tok = Some v →
      resolve_case fuel tok s (Return v) s
  | case_created b fuel' r s2 :
      fuel = S fuel' →
      bindings (this s) !! key tok = Some b →
      in_flight tok (resolutionStack (this s)) = false →
      (lifecycle b = Singleton → singletons (this s) !! key tok = None) →
      createInstance (resolve fuel') tok (implementation b) (entered tok s) = Some (r, s2) →
      resolve_case fuel tok s r (settle tok b r s2).

Definition stack_keys (c : Container) : gset nat :=
  list_to_set (key <$> resolutionStack c).

(** The bound tokens that are not under construction: every construction
    that starts takes one of them, which bounds the depth of the recursion. *)
Definition available (s : State) : nat :=
  size (dom (bindings (this s)) ∖ stack_keys (this s)).

(** The class bound to [tok] lists [dep] among its [@inject] tokens. *)
Definition declares_dependency (c : Container) (tok dep : Token) : Prop :=
  ∃ b slots, bindings c !! key tok = Some b ∧
    getInjectTokens (implementation b) = Some slots ∧ Tok dep ∈ slots.

(** No cache entry under a token that is bound transient. *)
Definition transient_uncached (c : Container) : Prop :=
  ∀ k b, bindings c !! k = Some b → lifecycle b = Transient → singletons c !! k = None.

(** ** The cycle property as the specification words it *)

(** In a container where the class bound to [A] declares a dependency on
    [B] and the class bound to [B] one on [A], [resolve(A)] fails with the
    chain [A, B, A] and leaves no cache entry for [A] or [B]. *)
Definition cycle_reported (s : State) (A B : Token) : Prop :=
  declares_dependency (this s) A B → declares_dependency (this s) B A →
  ∃ fuel s',
    resolve fuel A s = Some (Throw (CircularDependencyError [A; B; A]), s') ∧
    singletons (this s') !! key A = None ∧
    singletons (this s') !! key B = None.

(** ** The classes of [examples/basic-usage.ts] and some more *)

Module Example.

Definition Logger : Token := (createToken "Logger" 0).1.
Definition Database : Token := (createToken "Database" 1).1.
Definition UserService : Token := (createToken "UserService" 2).1.
Definition ServiceA : Token := (createToken "ServiceA" 3).1.
Definition ServiceB : Token := (createToken "ServiceB" 4).1.
Definition ServiceC : Token := (createToken "ServiceC" 5).1.

Definition plain (id : nat) (name : string) (lc : option Lifecycle)
    (slots : option (list Slot)) : Class :=
  {| class_id := id; class_name := name; injectable_meta := true;
     lifecycle_meta := lc; inject_tokens_meta := slots;
     ctor_body := fun _ => None |}.

Definition ConsoleLogger := plain 0 "ConsoleLogger" (Some Singleton) None.
Definition PostgresDatabase :=
  plain 1 "PostgresDatabase" (Some Singleton) (Some [Tok Logger]).
Definition UserServiceImpl :=
  plain 2 "UserServiceImpl" (Some Transient) (Some [Tok Logger; Tok Database]).
(** A second logger, as a test would register it. *)
Definition MockLogger := plain 3 "MockLogger" (Some Singleton) None.
Definition FileLogger := plain 4 "FileLogger" (Some Transient) None.
(** Classes that depend on each other. *)
Definition AImpl := plain 5 "AImpl" (Some Singleton) (Some [Tok ServiceB]).
Definition BImpl := plain 6 "BImpl" (Some Singleton) (Some [Tok ServiceA]).
Definition BViaC := plain 7 "BViaC" (Some Singleton) (Some [Tok ServiceC; Tok ServiceA]).
Definition CImpl := plain 8 "CImpl" (Some Singleton) (Some [Tok ServiceA]).

Definition registered (regs : list (Token * Class)) (c : Container) : Container :=
  foldl (fun c r => (register r.1 (Ctor r.2) c).2) c regs.

Definition fresh (regs : list (Token * Class)) : State :=
  {| this := registered regs empty_container; heap := [] |}.

(** [main()] of the example up to the first [resolve]. *)
Definition basic_usage : State :=
  fresh [(Logger, ConsoleLogger); (Database, PostgresDatabase);
         (UserService, UserServiceImpl)].

Definition after (ops : list Op) (s : State) : State := default s (run ops s).

End Example.

End Inject.

(** * Ambient injection ([container/Container.ts] with [container/context.ts]) *)

Module Ambient.

(** A statement of a constructor.  Constructors take no arguments from the
    container; a class obtains what it depends on with a [get(token)] in a
    property initialiser or in the constructor, may call [resolve] on a
    container it holds a reference to, and may throw. *)
Inductive Stmt :=
  | Get (t : Token)
  | ResolveOn (c : nat) (t : Token)
  | Raise (e : Thrown).

(** A class with the metadata of its decorators and its constructor. *)
Record Class := mkClass {
  class_id : nat;
  class_name : string;
  injectable_meta : bool;
  lifecycle_meta : option Lifecycle;
  ctor_body : list Stmt
}.

Inductive Implementation := NotAFunction | Ctor (c : Class).

Definition isInjectable (c : Class) : bool := injectable_meta c.
Definition getLifecycle (c : Class) : option Lifecycle := lifecycle_meta c.

Record Binding := mkBinding {
  implementation : Class;
  lifecycle : Lifecycle;
  token : Token
}.

Record Container := mkContainer {
  bindings : gmap nat Binding;
  singletons : gmap nat Value;
  resolutionStack : list Token;
  typeToTokenMap : gmap nat Token
}.

Definition empty_container : Container :=
  {| bindings := ∅; singletons := ∅; resolutionStack := []; typeToTokenMap := ∅ |}.

Definition key (t : Token) : nat := sym_id (symbol t).

(** [register(token, implementation)] *)
Definition register (tok : Token) (impl : Implementation) (c : Container)
  : Completion unit * Container :=
  match impl with
  | NotAFunction =>
      (Throw (InvalidConstructorError tok "Implementation must be a constructor function"), c)
  | Ctor cls =>
      if negb (isInjectable cls) then (Throw (NotInjectableError (class_name cls)), c)
      else
        let lc := default Transient (getLifecycle cls) in
        let binding := {| implementation := cls; lifecycle := lc; token := tok |} in
        (Return tt,
         {| bindings := <[key tok := binding]> (bindings c);
            singletons := singletons c;
            resolutionStack := resolutionStack c;
            typeToTokenMap := <[class_id cls := tok]> (typeToTokenMap c) |})
  end.

Definition isRegistered (tok : Token) (c : Container) : bool :=
  bool_decide (is_Some (bindings c !! key tok)).

Definition clear (c : Container) : Container :=
  {| bindings := bindings c; singletons := ∅; resolutionStack := [];
     typeToTokenMap := typeToTokenMap c |}.

Definition reset (c : Container) : Container :=
  {| bindings := ∅; singletons := ∅; resolutionStack := []; typeToTokenMap := ∅ |}.

Definition in_flight (tok : Token) (stack : list Token) : bool :=
  existsb (fun t => symbol_eqb (symbol t) (symbol tok)) stack.

Definition with_stack (stack : list Token) (c : Container) : Container :=
  {| bindings := bindings c; singletons := singletons c;
     resolutionStack := stack; typeToTokenMap := typeToTokenMap c |}.

Definition cache (tok : Token) (v : Value) (c : Container) : Container :=
  {| bindings := bindings c; singletons := <[key tok := v]> (singletons c);
     resolutionStack := resolutionStack c; typeToTokenMap := typeToTokenMap c |}.

Definition push (tok : Token) (c : Container) : Container :=
  with_stack (resolutionStack c ++ [tok]) c.
Definition pop (c : Container) : Container :=
  with_stack (removelast (resolutionStack c)) c.

(** The process: every container created so far (a container reference is
    its position), the module variable [activeContainer] of [context.ts],
    and the heap of constructed objects. *)
Record World := mkWorld {
  containers : list Container;
  activeContainer : option nat;
  heap : list Obj
}.

(** [new Container()] *)
Definition new_container (w : World) : nat * World :=
  (length (containers w),
   {| containers := containers w ++ [empty_container];
      activeContainer := activeContainer w; heap := heap w |}).

(** The container behind a reference. *)
Definition container_at (w : World) (c : nat) : Container :=
  default empty_container (containers w !! c).

(** A method of container [c] updating its fields. *)
Definition update (c : nat) (f : Container -> Container) (w : World) : World :=
  {| containers := <[c := f (container_at w c)]> (containers w);
     activeContainer := activeContainer w; heap := heap w |}.

(** [setContainer(container)] *)
Definition setContainer (c : nat) (w : World) : World :=
  {| containers := containers w; activeContainer := Some c; heap := heap w |}.

(** [getContainer()] *)
Definition getContainer (w : World) : Completion nat :=
  match activeContainer w with
  | None => Throw NoActiveContainerError
  | Some c => Return c
  end.

Definition allocate (o : Obj) (w : World) : World :=
  {| containers := containers w; activeContainer := activeContainer w;
     heap := heap w ++ [o] |}.

Section Resolution.

(** [container.resolve(token)], for the calls made while a constructor runs. *)
Variable resolve_rec : nat -> Token -> World -> option (Completion Value * World).

(** Running the statements of a constructor; the values obtained become
    the fields of the object.  [get(token)] is
    [getContainer().resolve(token)]. *)
Fixpoint run_ctor (body : list Stmt) (w : World)
  : option (Completion (list Value) * World) :=
  match body with
  | [] => Some (Return [], w)
  | Raise e :: _ => Some (Throw e, w)
  | Get t :: rest =>
      match getContainer w with
      | Throw e => Some (Throw e, w)
      | Return c =>
          match resolve_rec c t w with
          | None => None
          | Some (Throw e, w') => Some (Throw e, w')
          | Some (Return v, w') =>
              match run_ctor rest w' with
              | Some (Return vs, w'') => Some (Return (v :: vs), w'')
              | other => other
              end
          end
      end
  | ResolveOn c t :: rest =>
      match resolve_rec c t w with
      | None => None
      | Some (Throw e, w') => Some (Throw e, w')
      | Some (Return v, w') =>
          match run_ctor rest w' with
          | Some (Return vs, w'') => Some (Return (v :: vs), w'')
          | other => other
          end
      end
  end.

(** [createInstance(token, ctor)]: [new ctor()] inside a [try] whose
    [catch] rewraps whatever was thrown. *)
Definition createInstance (tok : Token) (cls : Class) (w : World)
  : option (Completion Value * World) :=
  match run_ctor (ctor_body cls) w with
  | None => None
  | Some (Return fields, w') =>
      Some (Return (VObject (length (heap w'))),
            allocate {| obj_class := class_id cls; obj_fields := fields |} w')
  | Some (Throw e, w') =>
      Some (Throw (InvalidConstructorError tok
                     ("Failed to instantiate: " +:+ cause_text e)), w')
  end.

End Resolution.

(** [resolve(token)] on container [c], with the recursion through the
    constructors bounded by [fuel]. *)
Fixpoint resolve (fuel : nat) (c : nat) (tok : Token) (w : World)
  : option (Completion Value * World) :=
  match fuel with
  | 0 => None
  | S fuel' =>
      match bindings (container_at w c) !! key tok with
      | None => Some (Throw (DependencyNotFoundError tok), w)
      | Some binding =>
          if in_flight tok (resolutionStack (container_at w c)) then
            Some (Throw (CircularDependencyError
                           (resolutionStack (container_at w c) ++ [tok])), w)
          else
            match lifecycle binding, singletons (container_at w c) !! key tok with
            | Singleton, Some v => Some (Return v, w)
            | _, _ =>
                (* try { previousContainer = getContainer(); } catch { } *)
                let previousContainer := activeContainer w in
                let w1 := setContainer c w in
                let w2 := update c (push tok) w1 in
                match createInstance (resolve fuel') tok (implementation binding) w2 with
                | None => None
                | Some (r, w3) =>
                    let w4 := match r, lifecycle binding with
                              | Return instance, Singleton => update c (cache tok instance) w3
                              | _, _ => w3
                              end in
                    (* finally *)
                    let w5 := update c pop w4 in
                    let w6 := match previousContainer with
                              | Some p => setContainer p w5
                              | None => w5
                              end in
                    Some (r, w6)
                end
            end
      end
  end.

(** [get(token)] of [context.ts], called from outside any constructor. *)
Definition get (fuel : nat) (tok : Token) (w : World)
  : option (Completion Value * World) :=
  match getContainer w with
  | Throw e => Some (Throw e, w)
  | Return c => resolve fuel c tok w
  end.

(** ** Predicates used in the statements *)

(** What the cycle check and [isRegistered] read of a container. *)
Definition shape (C : Container) : gmap nat Binding * list Token * gmap nat Token :=
  (bindings C, resolutionStack C, typeToTokenMap C).

(** What a call of [resolve] may change: no container's bindings, in-flight
    path or type map, no object of the heap, and not the active container
    if there was one. *)
Record frame (w w' : World) : Prop := mkFrame {
  frame_shape : shape <$> containers w' = shape <$> containers w;
  frame_heap : heap w `prefix_of` heap w';
  frame_active : ∀ p, activeContainer w = Some p → activeContainer w' = Some p
}.

(** The world in which [createInstance] starts, and the world that
    [resolve] leaves once [createInstance] has ended with [r] in [w3]. *)
Definition entered (c : nat) (tok : Token) (w : World) : World :=
  update c (push tok) (setContainer c w).

Definition settle (c : nat) (tok : Token) (b : Binding) (previous : option nat)
    (r : Completion Value) (w3 : World) : World :=
  let w4 := match r, lifecycle b with
            | Return instance, Singleton => update c (cache tok instance) w3
            | _, _ => w3
            end in
  let w5 := update c pop w4 in
  match previous with
  | Some p => setContainer p w5
  | None => w5
  end.

(** The four ways through [resolve]. *)
Inductive resolve_case (fuel c : nat) (tok : Token) (w : World)
  : Completion Value → World → Prop :=
  | case_not_found :
      bindings (container_at w c) !! key tok = None →
      resolve_case fuel c tok w (Throw (DependencyNotFoundError tok)) w
  | case_circular b :
      bindings (container_at w c) !! key tok = Some b →
      in_flight tok (resolutionStack (container_at w c)) = true →
      resolve_case fuel c tok w
        (Throw (CircularDependencyError (resolutionStack (container_at w c) ++ [tok]))) w
  | case_cached b v :
      bindings (container_at w c) !! key tok = Some b →
      in_flight tok (resolutionStack (container_at w c)) = false →
      lifecycle b = Singleton →
      singletons (container_at w c) !! key tok = Some v →
      resolve_case fuel c tok w (Return v) w
  | case_created b fuel' r w3 :
      fuel = S fuel' →
      bindings (container_at w c) !! key tok = Some b →
      in_flight tok (resolutionStack (container_at w c)) = false →
      (lifecycle b = Singleton → singletons (container_at w c) !! key tok = None) →
      createInstance (resolve fuel') tok (implementation b) (entered c tok w) = Some (r, w3) →
      resolve_case fuel c tok w r (settle c tok b (activeContainer w) r w3).

Definition stack_keys (C : Container) : gset nat :=
  list_to_set (key <$> resolutionStack C).

Definition container_available (C : Container) : nat :=
  size (dom (bindings C) ∖ stack_keys C).

(** The bound tokens, over all containers, that are not under construction. *)
Definition available (w : World) : nat :=
  sum_list (container_available <$> containers w).

(** A constructor in which every [get(token)] is a [resolve] on [c]. *)
Definition direct (c : nat) (stmt : Stmt) : Stmt :=
  match stmt with
  | Get t => ResolveOn c t
  | other => other
  end.

Definition directed (c : nat) (cls : Class) : Class :=
  {| class_id := class_id cls; class_name := class_name cls;
     injectable_meta := injectable_meta cls; lifecycle_meta := lifecycle_meta cls;
     ctor_body := direct c <$> ctor_body cls |}.

(** ** The no-restore property as stated for the ambient container *)

(** If no container is active when [resolve] is called on [c], then after
    the call, however it ended, [getContainer()] returns [c]. *)
Definition stays_installed (w : World) (c : nat) (tok : Token) : Prop :=
  activeContainer w = None →
  ∀ fuel r w', resolve fuel c tok w = Some (r, w') → getContainer w' = Return c.

(** ** The classes of [examples/testing-pattern.ts] *)

Module Example.

Definition Logger : Token := (createToken "Logger" 0).1.
Definition EmailService : Token := (createToken "EmailService" 1).1.
Definition UserNotificationService : Token :=
  (createToken "UserNotificationService" 2).1.
Definition Unregistered : Token := (createToken "UnregisteredService" 3).1.
Definition Audit : Token := (createToken "Audit" 4).1.

Definition ConsoleLogger : Class :=
  {| class_id := 0; class_name := "ConsoleLogger"; injectable_meta := true;
     lifecycle_meta := Some Singleton; ctor_body := [] |}.
Definition SmtpEmailService : Class :=
  {| class_id := 1; class_name := "SmtpEmailService"; injectable_meta := true;
     lifecycle_meta := Some Singleton; ctor_body := [Get Logger] |}.
Definition UserNotificationServiceImpl : Class :=
  {| class_id := 2; class_name := "UserNotificationServiceImpl";
     injectable_meta := true; lifecycle_meta := Some Transient;
     ctor_body := [Get Logger; Get EmailService] |}.
(** A class whose property initialiser asks for a token nobody registered. *)
Definition AuditTrail : Class :=
  {| class_id := 3; class_name := "AuditTrail"; injectable_meta := true;
     lifecycle_meta := Some Transient; ctor_body := [Get Unregistered] |}.

Definition registered (c : nat) (regs : list (Token * Class)) (w : World) : World :=
  foldl (fun w r => update c (fun C => (register r.1 (Ctor r.2) C).2) w) w regs.

(** A process that has created two containers and activated none. *)
Definition boot : World :=
  (new_container (new_container
     {| containers := []; activeContainer := None; heap := [] |}).2).2.

(** [productionExample()] without its [setContainer(container)], plus
    the audit class, in container 0. *)
Definition production : World :=
  registered 0 [(Logger, ConsoleLogger); (EmailService, SmtpEmailService);
                (UserNotificationService, UserNotificationServiceImpl);
                (Audit, AuditTrail)] boot.

End Example.

End Ambient.

(** * Decorators and metadata ([container/decorators.ts], [container/metadata.ts]) *)

Module Decorators.

(** An object that metadata is attached to: a class (its constructor
    function), with its name, its constructor body and the object that
    [Object.getPrototypeOf] gives for it, which for [class B extends A] is
    [A].  The identity is what the metadata maps are keyed by. *)
Inductive Target :=
  mkTarget (target_id : nat) (target_name : string)
           (target_ctor : list Value -> option Thrown) (target_proto : option Target).

Definition target_id (t : Target) : nat := let (id, _, _, _) := t in id.
Definition target_name (t : Target) : string := let (_, name, _, _) := t in name.
Definition target_ctor (t : Target) : list Value -> option Thrown :=
  let (_, _, ctor, _) := t in ctor.
Definition target_proto (t : Target) : option Target := let (_, _, _, proto) := t in proto.

(** The metadata that [reflect-metadata] keeps, one map of own entries for
    each of the keys [INJECTABLE_KEY], [LIFECYCLE_KEY] and
    [INJECT_TOKENS_KEY].  The value under [INJECT_TOKENS_KEY] is an array,
    an object: the map holds a reference into [arrays], and two classes
    may hold the same reference. *)
Record Metadata := mkMetadata {
  injectable_key : gmap nat bool;
  lifecycle_key : gmap nat Lifecycle;
  inject_tokens_key : gmap nat nat;
  arrays : list (list Inject.Slot)
}.

Definition empty_metadata : Metadata :=
  {| injectable_key := ∅; lifecycle_key := ∅; inject_tokens_key := ∅; arrays := [] |}.

(** [Reflect.getMetadata(key, target)]: the own entry of [target], or else
    what the prototype chain gives. *)
Fixpoint getMetadata {A} (own : gmap nat A) (target : Target) : option A :=
  match target with
  | mkTarget id _ _ proto =>
      match own !! id with
      | Some v => Some v
      | None =>
          match proto with
          | Some parent => getMetadata own parent
          | None => None
          end
      end
  end.

(** [array[index] = x] on a JavaScript array: an index past the end grows
    the array and leaves empty slots in between. *)
Fixpoint array_set (index : nat) (x : Inject.Slot) (array : list Inject.Slot)
  : list Inject.Slot :=
  match index, array with
  | 0, [] => [x]
  | 0, _ :: rest => x :: rest
  | S index', [] => Inject.Hole :: array_set index' x []
  | S index', y :: rest => y :: array_set index' x rest
  end.

(** [isInjectable(target)]: [Reflect.getMetadata(INJECTABLE_KEY, target) === true] *)
Definition isInjectable (m : Metadata) (target : Target) : bool :=
  match getMetadata (injectable_key m) target with
  | Some true => true
  | _ => false
  end.

(** [markInjectable(target)]: [Reflect.defineMetadata(INJECTABLE_KEY, true, target)] *)
Definition markInjectable (target : Target) (m : Metadata) : Metadata :=
  {| injectable_key := <[target_id target := true]> (injectable_key m);
     lifecycle_key := lifecycle_key m;
     inject_tokens_key := inject_tokens_key m;
     arrays := arrays m |}.

(** [getLifecycle(target)] *)
Definition getLifecycle (m : Metadata) (target : Target) : option Lifecycle :=
  getMetadata (lifecycle_key m) target.

(** [setLifecycle(target, lifecycle)] *)
Definition setLifecycle (target : Target) (lc : Lifecycle) (m : Metadata) : Metadata :=
  {| injectable_key := injectable_key m;
     lifecycle_key := <[target_id target := lc]> (lifecycle_key m);
     inject_tokens_key := inject_tokens_key m;
     arrays := arrays m |}.

(** [getInjectTokens(target)]: the array found for the class, as it is
    now. *)
Definition getInjectTokens (m : Metadata) (target : Target) : option (list Inject.Slot) :=
  match getMetadata (inject_tokens_key m) target with
  | Some ref => arrays m !! ref
  | None => None
  end.

(** What [existingTokens[parameterIndex] = token] stores: the decorator
    does not look at the value it is given, which is [undefined] when the
    token was not yet initialised where the class is declared. *)
Definition stored (tok : option Token) : Inject.Slot :=
  match tok with
  | Some t => Inject.Tok t
  | None => Inject.Undef
  end.

(** [setInjectToken(target, parameterIndex, token)], which is also the
    body of [inject] in the version of [decorators.ts] that keeps the
    array itself: the array found through the prototype chain, or a new
    empty one, gets [token] at [parameterIndex], in place, and becomes the
    own entry of [target]. *)
Definition setInjectToken (target : Target) (parameterIndex : nat) (tok : option Token)
    (m : Metadata) : Metadata :=
  match getMetadata (inject_tokens_key m) target with
  | Some ref =>
      {| injectable_key := injectable_key m;
         lifecycle_key := lifecycle_key m;
         inject_tokens_key := <[target_id target := ref]> (inject_tokens_key m);
         arrays := alter (array_set parameterIndex (stored tok)) ref (arrays m) |}
  | None =>
      {| injectable_key := injectable_key m;
         lifecycle_key := lifecycle_key m;
         inject_tokens_key := <[target_id target := length (arrays m)]> (inject_tokens_key m);
         arrays := arrays m ++ [array_set parameterIndex (stored tok) []] |}
  end.

(** The decorators: [@injectable()], [@singleton()], [@transient()] on a
    class and [@inject(token)] on the constructor parameter number
    [parameterIndex]. *)
Inductive Decorator :=
  | injectable
  | singleton
  | transient
  | inject (tok : option Token) (parameterIndex : nat).

(** The function that a decorator returns, applied to the class. *)
Definition apply_decorator (d : Decorator) (target : Target) (m : Metadata) : Metadata :=
  match d with
  | injectable => markInjectable target m
  | singleton => setLifecycle target Singleton (markInjectable target m)
  | transient => setLifecycle target Transient (markInjectable target m)
  | inject tok parameterIndex => setInjectToken target parameterIndex tok m
  end.

(** The metadata after the run time has made the decorator calls of the
    class declarations, in the order of the calls. *)
Definition decorate (calls : list (Decorator * Target)) (m : Metadata) : Metadata :=
  foldl (fun m call => apply_decorator call.1 call.2 m) m calls.

(** What the container reads of a class while the metadata is [m]. *)
Definition class_of (m : Metadata) (target : Target) : Inject.Class :=
  {| Inject.class_id := target_id target;
     Inject.class_name := target_name target;
     Inject.injectable_meta := isInjectable m target;
     Inject.lifecycle_meta := getLifecycle m target;
     Inject.inject_tokens_meta := getInjectTokens m target;
     Inject.ctor_body := target_ctor target |}.

(** ** Reading a history of decorator calls *)

(** The identities along the prototype chain, the class first. *)
Fixpoint chain (target : Target) : list nat :=
  match target with
  | mkTarget id _ _ proto =>
      id :: match proto with
            | Some parent => chain parent
            | None => []
            end
  end.

Definition is_class_decorator (d : Decorator) : bool :=
  match d with
  | inject _ _ => false
  | _ => true
  end.

(** A class decorator was called on the class [id]. *)
Definition class_decorated (calls : list (Decorator * Target)) (id : nat) : bool :=
  existsb (fun call => is_class_decorator call.1 && Nat.eqb (target_id call.2) id) calls.

(** The lifecycle that the lifecycle decorator called last on the class
    [id] has set, if one was called on it. *)
Definition own_lifecycle (calls : list (Decorator * Target)) (id : nat)
  : option Lifecycle :=
  foldl (fun acc call =>
           if Nat.eqb (target_id call.2) id then
             match call.1 with
             | singleton => Some Singleton
             | transient => Some Transient
             | _ => acc
             end
           else acc) None calls.

(** The first answer along a chain. *)
Fixpoint nearest {A} (f : nat -> option A) (ids : list nat) : option A :=
  match ids with
  | [] => None
  | id :: rest =>
      match f id with
      | Some v => Some v
      | None => nearest f rest
      end
  end.

(** Every array reference of the metadata is one of its arrays. *)
Definition refs_valid (m : Metadata) : Prop :=
  ∀ id ref, inject_tokens_key m !! id = Some ref → ref < length (arrays m).

End Decorators.

(** * Further predicates on the constructor-injection container *)

Module InjectMore.
Import Inject.

(** A run of [createToken] calls, one for each label, from the counter
    [next_symbol]. *)
Fixpoint createTokens (labels : list string) (next_symbol : nat) : list Token * nat :=
  match labels with
  | [] => ([], next_symbol)
  | label :: rest =>
      let (tok, next) := createToken label next_symbol in
      let (toks, final) := createTokens rest next in
      (tok :: toks, final)
  end.

(** Where an argument of the constructor comes from, for [resolveDeps]
    going from [s] to [s'] with [rec] as the recursive call: [undefined]
    for an empty slot, and for a token the instance that [rec] returned
    for it in a state between [s] and [s']. *)
Definition argument_of (rec : Token → State → option (Completion Value * State))
    (s s' : State) (slot : Slot) (v : Value) : Prop :=
  match slot with
  | Hole => v = VUndefined
  | Undef => False
  | Tok dep =>
      ∃ sa sb, frame s sa ∧ rec dep sa = Some (Return v, sb) ∧ frame sb s'
  end.

(** Consecutive tokens of [path] are linked by a declared dependency. *)
Fixpoint dependency_path (c : Container) (path : list Token) : Prop :=
  match path with
  | a :: ((b :: _) as rest) => declares_dependency c a b ∧ dependency_path c rest
  | _ => True
  end.

(** [path] goes from [tok] to [t] along declared dependencies. *)
Definition leads_to (c : Container) (tok t : Token) (path : list Token) : Prop :=
  head path = Some tok ∧ last path = Some t ∧ dependency_path c path.

(** Every object of the heap got as arguments [undefined] or objects that
    were constructed before it. *)
Definition heap_ordered (h : list Obj) : Prop :=
  ∀ ref o, h !! ref = Some o →
    Forall (fun v => v = VUndefined ∨ ∃ r, v = VObject r ∧ r < ref) (obj_fields o).

(** The text that [createInstance] puts before the message of what the
    constructor threw. *)
Definition instantiate_prefix (cls : Class) : string :=
  match getInjectTokens cls with
  | None | Some [] => "Failed to instantiate (no dependencies declared with @inject): "
  | Some _ => "Failed to instantiate: "
  end.

(** What the error of a failed [resolve] says about the container. *)
Definition explained (tok : Token) (s : State) (e : Thrown) : Prop :=
  match e with
  | DependencyNotFoundError t =>
      bindings (this s) !! key t = None ∧ ∃ path, leads_to (this s) tok t path
  | CircularDependencyError chain =>
      ∃ path t, chain = resolutionStack (this s) ++ path ∧
        leads_to (this s) tok t path ∧
        in_flight t (resolutionStack (this s) ++ removelast path) = true
  | InvalidConstructorError t _ =>
      isRegistered t (this s) = true ∧ ∃ path, leads_to (this s) tok t path
  | _ => True
  end.

End InjectMore.

(** * Further predicates on the ambient container *)

Module AmbientMore.
Import Ambient.

(** ** Sequences of top-level calls in one process *)

Inductive Op :=
  | NewContainer
  | SetContainer (c : nat)
  | Register (c : nat) (tok : Token) (impl : Implementation)
  | Resolve (fuel : nat) (c : nat) (tok : Token)
  | GetActive (fuel : nat) (tok : Token)
  | IsRegistered (c : nat) (tok : Token)
  | Clear (c : nat)
  | Reset (c : nat).

(** One call; an exception it raises is caught by the caller and the
    program goes on.  [None]: the fuel of a [Resolve] or a [GetActive] was
    too small. *)
Definition step (op : Op) (w : World) : option World :=
  match op with
  | NewContainer => Some (new_container w).2
  | SetContainer c => Some (setContainer c w)
  | Register c tok impl => Some (update c (fun C => (register tok impl C).2) w)
  | Resolve fuel c tok => snd <$> resolve fuel c tok w
  | GetActive fuel tok => snd <$> get fuel tok w
  | IsRegistered _ _ => Some w
  | Clear c => Some (update c clear w)
  | Reset c => Some (update c reset w)
  end.

Fixpoint run (ops : list Op) (w : World) : option World :=
  match ops with
  | [] => Some w
  | op :: rest =>
      match step op w with
      | Some w' => run rest w'
      | None => None
      end
  end.

(** Neither [clear()] nor [reset()] on container [c]. *)
Definition keeps_cache_of (c : nat) (op : Op) : bool :=
  match op with
  | Clear c' | Reset c' => negb (Nat.eqb c' c)
  | _ => true
  end.

(** Every instance that a container has cached in [w] it still has in
    [w']. *)
Definition caches_kept (w w' : World) : Prop :=
  ∀ c k v, singletons (container_at w c) !! k = Some v →
           singletons (container_at w' c) !! k = Some v.

(** ** Lookups against the resolving registry *)

(** Modelled from the spec: the resolution in which a nested ambient
    lookup made during a construction resolves against the registry that
    is constructing.  It is [resolve] with every [get(token)] of the
    constructor read as a [resolve(token)] on the constructing container,
    and without the active container being looked at or set. *)
Fixpoint resolve_on_registry (fuel : nat) (c : nat) (tok : Token) (w : World)
  : option (Completion Value * World) :=
  match fuel with
  | 0 => None
  | S fuel' =>
      match bindings (container_at w c) !! key tok with
      | None => Some (Throw (DependencyNotFoundError tok), w)
      | Some binding =>
          if in_flight tok (resolutionStack (container_at w c)) then
            Some (Throw (CircularDependencyError
                           (resolutionStack (container_at w c) ++ [tok])), w)
          else
            match lifecycle binding, singletons (container_at w c) !! key tok with
            | Singleton, Some v => Some (Return v, w)
            | _, _ =>
                match createInstance (resolve_on_registry fuel') tok
                        (directed c (implementation binding))
                        (update c (push tok) w) with
                | None => None
                | Some (r, w3) =>
                    let w4 := match r, lifecycle binding with
                              | Return instance, Singleton =>
                                  update c (cache tok instance) w3
                              | _, _ => w3
                              end in
                    Some (r, update c pop w4)
                end
            end
      end
  end.

(** The world with another container, or none, as the active one. *)
Definition with_active (a : option nat) (w : World) : World :=
  {| containers := containers w; activeContainer := a; heap := heap w |}.

(** The outcome of a call, in the world with [a] as the active container. *)
Definition moved {A} (a : option nat) (x : option (Completion A * World))
  : option (Completion A * World) :=
  match x with
  | Some (r, w) => Some (r, with_active a w)
  | None => None
  end.

(** A statement that reaches a container only through [get]. *)
Definition local_stmt (stmt : Stmt) : bool :=
  match stmt with
  | ResolveOn _ _ => false
  | _ => true
  end.

(** No constructor of a class bound in [C] calls [resolve] on a container
    that it holds a reference to. *)
Definition uses_only_get (C : Container) : Prop :=
  map_Forall (fun _ b => forallb local_stmt (ctor_body (implementation b)) = true)
    (bindings C).

End AmbientMore.

(** * What the message of a failure says *)



(** * Properties of the error messages *)






Lemma register_throws_container_error tok impl c e c' :
  Inject.register tok impl c = (Throw e, c') → container_error e.
Proof.
  unfold Inject.register. destruct impl as [|cls].
  - by intros [= <- _].
  - destruct (negb (Inject.isInjectable cls)); [by intros [= <- _] | done].
Qed.

(** * Properties of the constructor-injection container *)

Module InjectFacts.
Import Inject.

(** ** What [resolve] may change *)

Lemma frame_refl s : frame s s.
Proof. split; try done. intros k Hn [v Hv]. congruence. Qed.

Lemma frame_trans s1 s2 s3 : frame s1 s2 → frame s2 s3 → frame s1 s3.
Proof.
  intros [Hb1 Hs1 Ht1 Hh1 Hk1 Hn1] [Hb2 Hs2 Ht2 Hh2 Hk2 Hn2]. split.
  - congruence.
  - congruence.
  - congruence.
  - by etrans.
  - auto.
  - intros k Hnone Hsome.
    destruct (singletons (this s2) !! k) as [v|] eqn:E.
    + apply Hn1; eauto.
    + rewrite <- Hb1. apply Hn2; auto.
Qed.

Lemma allocated_mono v h h' : h `prefix_of` h' → allocated v h → allocated v h'.
Proof.
  intros [ext ->] (r & -> & Hr). exists r. split; [done|].
  rewrite length_app. lia.
Qed.

Lemma fresh_instance_allocated cls s s' v :
  fresh_instance cls s s' v → allocated v (heap s').
Proof. intros (ref & args & -> & _ & Hl & _). exists ref. split; [done | lia]. Qed.

Lemma fresh_instance_not_allocated cls s s' v :
  fresh_instance cls s s' v → ¬ allocated v (heap s).
Proof. intros (ref & args & -> & Hle & _) (r & [= <-] & Hr). lia. Qed.

Lemma fresh_instance_frame cls s1 s2 s3 v :
  frame s1 s2 → fresh_instance cls s2 s3 v → fresh_instance cls s1 s3 v.
Proof.
  intros F (ref & args & -> & Hle & Hl & Ho). exists ref, args.
  repeat split; try done. apply frame_heap in F. apply prefix_length in F. lia.
Qed.

Lemma construct_heap cls args h r h' :
  construct cls args h = (r, h') →
  h `prefix_of` h' ∧
  ∀ v, r = Return v →
       v = VObject (length h) ∧
       h' = h ++ [{| obj_class := class_id cls; obj_fields := args |}].
Proof.
  unfold construct. destruct (ctor_body cls args); intros [= <- <-].
  - split; [done|]. discriminate.
  - split; [by apply prefix_app_r|]. by intros v [= <-].
Qed.

Lemma construct_post cls args s r h :
  construct cls args (heap s) = (r, h) →
  frame s {| this := this s; heap := h |} ∧
  (cache_allocated s → cache_allocated {| this := this s; heap := h |}) ∧
  ∀ v, r = Return v → fresh_instance cls s {| this := this s; heap := h |} v.
Proof.
  intros Hc. apply construct_heap in Hc as [Hp Hv]. destruct s as [c h0]; simpl in *.
  split; [|split].
  - split; simpl; try done. intros k Hn [v Hv']. congruence.
  - intros Hc k v Hk. eapply allocated_mono; [exact Hp|]. by eapply Hc.
  - intros v Hr. destruct (Hv v Hr) as [-> ->].
    exists (length h0), args. simpl. repeat split; try done.
    + rewrite length_app. simpl. lia.
    + by rewrite lookup_app_r, Nat.sub_diag.
Qed.

Section Frame.
Variable rec : Token → State → option (Completion Value * State).
Hypothesis rec_post : ∀ t s r s', rec t s = Some (r, s') → post s r s'.

Lemma resolveDeps_post tok slots : ∀ s r s',
  resolveDeps rec tok slots s = Some (r, s') →
  frame s s' ∧ (cache_allocated s → cache_allocated s').
Proof.
  induction slots as [|slot rest IH]; intros s r s' H; simpl in H.
  - simplify_eq. split; [apply frame_refl | done].
  - destruct slot as [| |dep].
    + destruct (resolveDeps rec tok rest s) as [[[vs|e] s1]|] eqn:E; simplify_eq;
        eapply IH; eauto.
    + simplify_eq. split; [apply frame_refl | done].
    + destruct (bindings (this s) !! key dep);
        [|simplify_eq; split; [apply frame_refl | done]].
      destruct (rec dep s) as [[[v|e] s1]|] eqn:E; simplify_eq.
      * apply rec_post in E as [F1 A1].
        destruct (resolveDeps rec tok rest s1) as [[[vs|e] s2]|] eqn:E2; simplify_eq;
          apply IH in E2 as [F2 A2];
          (split; [by eapply frame_trans | intros Hc; apply A2, A1, Hc]).
      * apply rec_post in E as [F1 A1]. split; [done | intros Hc; apply A1, Hc].
Qed.

Lemma createInstance_post tok cls s r s' :
  createInstance rec tok cls s = Some (r, s') →
  frame s s' ∧ (cache_allocated s → cache_allocated s') ∧
  ∀ v, r = Return v → fresh_instance cls s s' v.
Proof.
  unfold createInstance. intros H.
  destruct (getInjectTokens cls) as [[|slot rest]|].
  - destruct (construct cls [] (heap s)) as [[v|e] h] eqn:Hc; simplify_eq;
      apply construct_post in Hc as (F & A & Fr);
      (split; [exact F|]; split; [exact A|]; intros v' Hv';
       by first [apply Fr | discriminate]).
  - destruct (resolveDeps rec tok (slot :: rest) s) as [[[args|e] s1]|] eqn:Hd;
      simplify_eq.
    + apply (resolveDeps_post _ _ _ _ _) in Hd as [F1 A1].
      destruct (construct cls args (heap s1)) as [[v|e] h] eqn:Hc; simplify_eq;
        apply construct_post in Hc as (F2 & A2 & Fr).
      * split; [by eapply frame_trans|]. split; [auto|].
        intros v' [= <-]. eapply fresh_instance_frame; eauto.
      * split; [by eapply frame_trans|]. split; [auto|]. discriminate.
    + apply (resolveDeps_post _ _ _ _ _) in Hd as [F1 A1].
      split; [exact F1|]. split; [exact A1|]. discriminate.
  - destruct (construct cls [] (heap s)) as [[v|e] h] eqn:Hc; simplify_eq;
      apply construct_post in Hc as (F & A & Fr);
      (split; [exact F|]; split; [exact A|]; intros v' Hv';
       by first [apply Fr | discriminate]).
Qed.
End Frame.

Lemma resolve_cases fuel tok s r s' :
  resolve fuel tok s = Some (r, s') → resolve_case fuel tok s r s'.
Proof.
  destruct fuel as [|fuel']; [done|]. simpl.
  destruct (bindings (this s) !! key tok) as [b|] eqn:Hb.
  2:{ intros [= <- <-]. by constructor. }
  destruct (in_flight tok (resolutionStack (this s))) eqn:Hf.
  { intros [= <- <-]. by econstructor. }
  fold (entered tok s).
  assert (Hcreate :
    (lifecycle b = Singleton → singletons (this s) !! key tok = None) →
    match createInstance (resolve fuel') tok (implementation b) (entered tok s) with
    | Some (Return instance, s2) =>
        Some (Return instance,
              {| this := pop match lifecycle b with
                             | Singleton => cache tok instance (this s2)
                             | Transient => this s2
                             end; heap := heap s2 |})
    | Some (Throw e, s2) => Some (Throw e, {| this := pop (this s2); heap := heap s2 |})
    | None => None
    end = Some (r, s') → resolve_case (S fuel') tok s r s').
  { intros Hn H.
    destruct (createInstance _ _ _ _) as [[[v|e] s2]|] eqn:Hc; simplify_eq.
    - replace {| this := _; heap := heap s2 |} with (settle tok b (Return v) s2)
        by (unfold settle; by destruct (lifecycle b)).
      by econstructor.
    - change {| this := _; heap := heap s2 |} with (settle tok b (Throw e) s2).
      by econstructor. }
  destruct (lifecycle b) eqn:Hl.
  - destruct (singletons (this s) !! key tok) as [v|] eqn:Hs.
    + intros [= <- <-]. by econstructor.
    + by apply Hcreate.
  - by apply Hcreate.
Qed.

Lemma resolve_post fuel : ∀ tok s r s',
  resolve fuel tok s = Some (r, s') → post s r s'.
Proof.
  induction fuel as [|fuel' IH]; [done|].
  intros tok s r s' H. apply resolve_cases in H.
  destruct H as [Hb | b Hb Hf | b v Hb Hf Hl Hs | b f r s2 [= <-] Hb Hf Hn Hc].
  - split; [apply frame_refl | done].
  - split; [apply frame_refl | done].
  - split; [apply frame_refl|]. intros Hc. split; [done|]. intros v' [= <-]. by eapply Hc.
  - apply (createInstance_post _ IH) in Hc as ([Fb Fs Ft Fh Fk Fn] & A & Fr).
    destruct s as [c h], s2 as [c2 h2]. simpl in *.
    assert (Hfresh : ∀ v, r = Return v → allocated v h2).
    { intros v ->. exact (fresh_instance_allocated _ _ _ _ (Fr v eq_refl)). }
    split.
    + split; simpl.
      * by destruct r, (lifecycle b).
      * transitivity (removelast (resolutionStack c2)); [by destruct r, (lifecycle b)|].
        rewrite Fs. apply removelast_last.
      * by destruct r, (lifecycle b).
      * done.
      * intros k v Hk. pose proof (Fk _ _ Hk) as Hk2.
        destruct r as [inst|e]; [|done]. destruct (lifecycle b) eqn:Hl; [|done]. simpl.
        destruct (decide (key tok = k)) as [<-|Hne]; [|by rewrite lookup_insert_ne].
        rewrite Hn in Hk; done.
      * intros k Hk Hsome.
        destruct (decide (key tok = k)) as [<-|Hne].
        -- destruct r as [inst|e], (lifecycle b) eqn:Hl; simpl in Hsome; eauto;
             rewrite <- Fb; apply Fn; auto.
        -- apply Fn; [done|].
           destruct r as [inst|e]; [|done]. destruct (lifecycle b); [|done].
           simpl in Hsome. by rewrite lookup_insert_ne in Hsome.
    + intros Hca. specialize (A Hca). split.
      * intros k v Hk. simpl in *.
        destruct r as [inst|e]; [|by eapply A].
        destruct (lifecycle b) eqn:Hl; [|by eapply A].
        simpl in Hk. destruct (decide (key tok = k)) as [<-|Hne].
        -- rewrite lookup_insert_eq in Hk. simplify_eq. by apply Hfresh.
        -- rewrite lookup_insert_ne in Hk by done. by eapply A.
      * intros v Hv. by apply Hfresh.
Qed.

Lemma resolve_frame fuel tok s r s' :
  resolve fuel tok s = Some (r, s') → frame s s'.
Proof. intros H. by apply resolve_post in H as [F _]. Qed.

(** A successful [resolve] either hands out the cached instance and does
    nothing else, or constructs an instance of the bound class and, for a
    singleton, leaves it in the cache. *)
Lemma resolve_Return fuel tok s v s' :
  resolve fuel tok s = Some (Return v, s') →
  ∃ b, bindings (this s) !! key tok = Some b ∧
    in_flight tok (resolutionStack (this s)) = false ∧
    ((lifecycle b = Singleton ∧ singletons (this s) !! key tok = Some v ∧ s' = s) ∨
     ((lifecycle b = Singleton → singletons (this s) !! key tok = None) ∧
      fresh_instance (implementation b) s s' v ∧
      singletons (this s') !! key tok =
        match lifecycle b with
        | Singleton => Some v
        | Transient => singletons (this s) !! key tok
        end)).
Proof.
  intros H. apply resolve_cases in H.
  inversion H as [ | | b v' Hb Hf Hl Hs | b f r s2 Hfuel Hb Hf Hn Hc]; subst.
  - exists b. split; [done|]. split; [done|]. by left.
  - exists b. split; [done|]. split; [done|]. right. split; [done|].
    pose proof Hc as Hc'.
    apply (createInstance_post _ (resolve_post f)) in Hc as (F & _ & Fr).
    specialize (Fr v eq_refl). split.
    + destruct Fr as (ref & args & -> & Hle & Hlen & Hobj).
      exists ref, args. unfold entered in *. simpl in *. by destruct (lifecycle b).
    + unfold settle. simpl. destruct (lifecycle b) eqn:Hl; simpl.
      * apply lookup_insert_eq.
      * destruct (singletons (this s) !! key tok) as [v0|] eqn:Hs.
        -- by apply (frame_cache_keep _ _ F).
        -- destruct (singletons (this s2) !! key tok) as [v2|] eqn:Hs2; [|done].
           destruct (frame_cache_new _ _ F (key tok) Hs) as (b' & Hb' & Hl'); [by eauto|].
           unfold entered in Hb'. simpl in Hb'. congruence.
Qed.

(** ** Termination: the fuel is only a bound *)

Lemma in_flight_false tok stack :
  in_flight tok stack = false ↔ key tok ∉ (list_to_set (key <$> stack) : gset nat).
Proof.
  unfold in_flight. induction stack as [|t rest IH]; simpl.
  - set_solver.
  - rewrite orb_false_iff, IH. unfold symbol_eqb, key.
    rewrite Nat.eqb_neq. set_solver.
Qed.

Lemma available_frame s s' : frame s s' → available s' = available s.
Proof. intros [Fb Fs _ _ _ _]. unfold available, stack_keys. by rewrite Fb, Fs. Qed.

Lemma available_entered tok s b :
  bindings (this s) !! key tok = Some b →
  in_flight tok (resolutionStack (this s)) = false →
  S (available (entered tok s)) = available s.
Proof.
  intros Hb Hf. apply in_flight_false in Hf.
  unfold available, stack_keys, entered, push. simpl.
  rewrite fmap_app, list_to_set_app_L. simpl.
  set (D := dom (bindings (this s))).
  set (K := list_to_set (key <$> resolutionStack (this s)) : gset nat).
  assert (Hin : key tok ∈ D ∖ K).
  { apply elem_of_difference. split; [|done]. apply elem_of_dom. eauto. }
  replace (D ∖ (K ∪ ({[key tok]} ∪ ∅))) with ((D ∖ K) ∖ {[key tok]}) by set_solver.
  rewrite size_difference by set_solver. rewrite size_singleton.
  assert (size (D ∖ K) ≠ 0); [|lia].
  intros Hz. apply size_empty_iff in Hz. set_solver.
Qed.

Section Total.
Variable rec : Token → State → option (Completion Value * State).
Variable bound : nat.
Hypothesis rec_post : ∀ t s r s', rec t s = Some (r, s') → post s r s'.
Hypothesis rec_total : ∀ t s, available s < bound → is_Some (rec t s).

Lemma resolveDeps_total tok slots : ∀ s,
  available s < bound → is_Some (resolveDeps rec tok slots s).
Proof.
  induction slots as [|slot rest IH]; intros s Hs; simpl; [done|].
  destruct slot as [| |dep].
  - destruct (IH s Hs) as [[[vs|e] s1] ->]; done.
  - done.
  - destruct (bindings (this s) !! key dep); [|done].
    destruct (rec_total dep s Hs) as [[[v|e] s1] Hr]; rewrite Hr; [|done].
    apply rec_post in Hr as [F _].
    destruct (IH s1) as [[[vs|e] s2] ->]; [|done..].
    by rewrite (available_frame _ _ F).
Qed.

Lemma createInstance_total tok cls s :
  available s < bound → is_Some (createInstance rec tok cls s).
Proof.
  intros Hs. unfold createInstance.
  destruct (getInjectTokens cls) as [[|slot rest]|].
  - by destruct (construct cls [] (heap s)) as [[v|e] h].
  - destruct (resolveDeps_total tok (slot :: rest) s Hs) as [[[args|e] s1] ->]; [|done].
    by destruct (construct cls args (heap s1)) as [[v|e] h].
  - by destruct (construct cls [] (heap s)) as [[v|e] h].
Qed.
End Total.

(** [resolve] always comes back: with more fuel than there are bound tokens
    outside the in-flight path, it returns or throws. *)
Theorem resolve_total fuel : ∀ tok s,
  available s < fuel → is_Some (resolve fuel tok s).
Proof.
  induction fuel as [|fuel' IH]; intros tok s Hs; [lia|]. simpl.
  destruct (bindings (this s) !! key tok) as [b|] eqn:Hb; [|done].
  destruct (in_flight tok (resolutionStack (this s))) eqn:Hf; [done|].
  pose proof (available_entered tok s b Hb Hf) as Ha. unfold entered in Ha.
  assert (Hc : is_Some (createInstance (resolve fuel') tok (implementation b)
                          {| this := push tok (this s); heap := heap s |})).
  { apply createInstance_total with (bound := fuel'); [apply resolve_post | apply IH | lia]. }
  destruct Hc as [[[v|e] s2] ->].
  - by destruct (lifecycle b), (singletons (this s) !! key tok).
  - by destruct (lifecycle b), (singletons (this s) !! key tok).
Qed.

Section Mono.
Variables rec1 rec2 : Token → State → option (Completion Value * State).
Hypothesis rec_mono : ∀ t s x, rec1 t s = Some x → rec2 t s = Some x.

Lemma resolveDeps_mono tok slots : ∀ s x,
  resolveDeps rec1 tok slots s = Some x → resolveDeps rec2 tok slots s = Some x.
Proof.
  induction slots as [|slot rest IH]; intros s x; simpl; [done|].
  destruct slot as [| |dep]; [| done |].
  - destruct (resolveDeps rec1 tok rest s) as [[[vs|e] s1]|] eqn:E; [| |done];
      rewrite (IH _ _ E); done.
  - destruct (bindings (this s) !! key dep); [|done].
    destruct (rec1 dep s) as [[[v|e] s1]|] eqn:E; [| |done];
      rewrite (rec_mono _ _ _ E); [|done].
    destruct (resolveDeps rec1 tok rest s1) as [[[vs|e] s2]|] eqn:E2; [| |done];
      rewrite (IH _ _ E2); done.
Qed.

Lemma createInstance_mono tok cls s x :
  createInstance rec1 tok cls s = Some x → createInstance rec2 tok cls s = Some x.
Proof.
  unfold createInstance. destruct (getInjectTokens cls) as [[|slot rest]|]; [done| |done].
  destruct (resolveDeps rec1 tok (slot :: rest) s) as [[[args|e] s1]|] eqn:E; [| |done];
    rewrite (resolveDeps_mono _ _ _ _ E); done.
Qed.
End Mono.

Lemma resolve_fuel_mono fuel : ∀ fuel' tok s x,
  fuel ≤ fuel' → resolve fuel tok s = Some x → resolve fuel' tok s = Some x.
Proof.
  induction fuel as [|f IH]; intros [|f'] tok s x Hle; try done; [lia|]. simpl.
  destruct (bindings (this s) !! key tok) as [b|]; [|done].
  destruct (in_flight tok (resolutionStack (this s))); [done|].
  assert (Hc : ∀ y, createInstance (resolve f) tok (implementation b)
                      {| this := push tok (this s); heap := heap s |} = Some y →
                    createInstance (resolve f') tok (implementation b)
                      {| this := push tok (this s); heap := heap s |} = Some y).
  { apply createInstance_mono. intros t s0 y. apply IH. lia. }
  destruct (createInstance (resolve f) _ _ _) as [y|] eqn:E.
  - rewrite (Hc y eq_refl). done.
  - by destruct (lifecycle b), (singletons (this s) !! key tok).
Qed.

(** Whatever fuel lets [resolve] finish, the outcome is the same. *)
Lemma resolve_deterministic f1 f2 tok s x y :
  resolve f1 tok s = Some x → resolve f2 tok s = Some y → x = y.
Proof.
  intros H1 H2.
  apply (resolve_fuel_mono f1 (f1 `max` f2)) in H1; [|lia].
  apply (resolve_fuel_mono f2 (f1 `max` f2)) in H2; [|lia]. congruence.
Qed.

(** ** Sequences of calls *)

Lemma register_frame tok impl c :
  singletons (register tok impl c).2 = singletons c ∧
  resolutionStack (register tok impl c).2 = resolutionStack c.
Proof.
  unfold register. destruct impl as [|cls]; [done|].
  by destruct (negb (isInjectable cls)).
Qed.

Lemma step_heap op s s' : step op s = Some s' → heap s `prefix_of` heap s'.
Proof.
  destruct op as [tok impl|fuel tok|tok| |]; simpl; try (by intros [= <-]).
  destruct (resolve fuel tok s) as [[r s1]|] eqn:E; [|done].
  intros [= <-]. by apply resolve_frame, frame_heap in E.
Qed.

Lemma run_heap ops : ∀ s s', run ops s = Some s' → heap s `prefix_of` heap s'.
Proof.
  induction ops as [|op rest IH]; intros s s'; simpl; [by intros [= <-]|].
  destruct (step op s) as [s1|] eqn:E; [|done].
  intros H. etrans; [by eapply step_heap | by apply IH].
Qed.

Lemma step_cache_keep op s s' k v :
  keeps_cache op = true → step op s = Some s' →
  singletons (this s) !! k = Some v → singletons (this s') !! k = Some v.
Proof.
  destruct op as [tok impl|fuel tok|tok| |]; simpl; try done.
  - intros _ [= <-]. simpl. by rewrite (proj1 (register_frame tok impl (this s))).
  - intros _. destruct (resolve fuel tok s) as [[r s1]|] eqn:E; [|done].
    intros [= <-]. by apply (frame_cache_keep _ _ (resolve_frame _ _ _ _ _ E)).
  - by intros _ [= <-].
Qed.

Lemma run_cache_keep ops : ∀ s s' k v,
  forallb keeps_cache ops = true → run ops s = Some s' →
  singletons (this s) !! k = Some v → singletons (this s') !! k = Some v.
Proof.
  induction ops as [|op rest IH]; intros s s' k v; simpl; [by intros _ [= <-]|].
  rewrite andb_true_iff. intros [Hop Hrest].
  destruct (step op s) as [s1|] eqn:E; [|done].
  intros Hrun Hk. eapply IH; eauto. by eapply step_cache_keep.
Qed.

Lemma step_cache_allocated op s s' :
  step op s = Some s' → cache_allocated s → cache_allocated s'.
Proof.
  destruct op as [tok impl|fuel tok|tok| |]; simpl.
  - intros [= <-] Hc k v. simpl. rewrite (proj1 (register_frame tok impl (this s))). apply Hc.
  - destruct (resolve fuel tok s) as [[r s1]|] eqn:E; [|done].
    intros [= <-] Hc. by apply resolve_post in E as [_ [A _]].
  - by intros [= <-].
  - intros [= <-] _ k v. simpl. by rewrite lookup_empty.
  - intros [= <-] _ k v. simpl. by rewrite lookup_empty.
Qed.

Lemma run_cache_allocated ops : ∀ s s',
  run ops s = Some s' → cache_allocated s → cache_allocated s'.
Proof.
  induction ops as [|op rest IH]; intros s s'; simpl; [by intros [= <-]|].
  destruct (step op s) as [s1|] eqn:E; [|done].
  intros Hrun Hc. eapply IH; eauto. by eapply step_cache_allocated.
Qed.

(** A container that has never been used satisfies the invariant. *)
Lemma empty_cache_allocated h :
  cache_allocated {| this := empty_container; heap := h |}.
Proof. intros k v. simpl. by rewrite lookup_empty. Qed.

(** Between top-level calls the in-flight path is empty. *)
Lemma step_path_empty op s s' :
  resolutionStack (this s) = [] → step op s = Some s' → resolutionStack (this s') = [].
Proof.
  intros Hs. destruct op as [tok impl|fuel tok|tok| |]; simpl; try (by intros [= <-]).
  - intros [= <-]. simpl. by rewrite (proj2 (register_frame _ _ _)).
  - destruct (resolve fuel tok s) as [[r s1]|] eqn:E; [|done].
    intros [= <-]. by rewrite (frame_stack _ _ (resolve_frame _ _ _ _ _ E)).
Qed.

Lemma run_path_empty ops : ∀ s s',
  resolutionStack (this s) = [] → run ops s = Some s' → resolutionStack (this s') = [].
Proof.
  induction ops as [|op rest IH]; intros s s' Hs; simpl; [by intros [= <-]|].
  destruct (step op s) as [s1|] eqn:E; [|done].
  apply IH. by eapply step_path_empty.
Qed.

(** The scenario of [examples/basic-usage.ts]: two resolutions of
    [UserService] give two objects that share one [Logger] and one
    [Database]. *)
Example basic_usage_scenario :
  ∃ s1 s2,
    resolve 3 Example.UserService Example.basic_usage = Some (Return (VObject 2), s1) ∧
    resolve 3 Example.UserService s1 = Some (Return (VObject 3), s2) ∧
    heap s2 = [ {| obj_class := 0; obj_fields := [] |};
                {| obj_class := 1; obj_fields := [VObject 0] |};
                {| obj_class := 2; obj_fields := [VObject 0; VObject 1] |};
                {| obj_class := 2; obj_fields := [VObject 0; VObject 1] |} ].
Proof. eexists _, _. repeat split; vm_compute; reflexivity. Qed.

(** ** Singletons *)

Lemma resolve_S fuel tok s :
  resolve (S fuel) tok s =
  match bindings (this s) !! key tok with
  | None => Some (Throw (DependencyNotFoundError tok), s)
  | Some binding =>
      if in_flight tok (resolutionStack (this s)) then
        Some (Throw (CircularDependencyError (resolutionStack (this s) ++ [tok])), s)
      else
        match lifecycle binding, singletons (this s) !! key tok with
        | Singleton, Some v => Some (Return v, s)
        | _, _ =>
            match createInstance (resolve fuel) tok (implementation binding)
                    (entered tok s) with
            | None => None
            | Some (Return instance, s2) =>
                Some (Return instance,
                      {| this := pop match lifecycle binding with
                                     | Singleton => cache tok instance (this s2)
                                     | Transient => this s2
                                     end; heap := heap s2 |})
            | Some (Throw e, s2) =>
                Some (Throw e, {| this := pop (this s2); heap := heap s2 |})
            end
        end
  end.
Proof. reflexivity. Qed.

(** A cached singleton is handed out as it is, and nothing else happens. *)
Lemma resolve_cached fuel tok s b v :
  bindings (this s) !! key tok = Some b → lifecycle b = Singleton →
  in_flight tok (resolutionStack (this s)) = false →
  singletons (this s) !! key tok = Some v →
  resolve (S fuel) tok s = Some (Return v, s).
Proof. intros Hb Hl Hf Hs. by rewrite resolve_S, Hb, Hf, Hl, Hs. Qed.

(** After a successful [resolve] of a token bound as a singleton the cache
    holds the returned instance. *)
Lemma resolve_singleton_cached fuel tok s v s' b :
  bindings (this s) !! key tok = Some b → lifecycle b = Singleton →
  resolve fuel tok s = Some (Return v, s') →
  singletons (this s') !! key tok = Some v.
Proof.
  intros Hb Hl H. apply resolve_Return in H as (b' & Hb' & _ & H).
  assert (b' = b) as -> by congruence.
  destruct H as [(_ & Hs & ->) | (_ & _ & Hs)]; [done|]. by rewrite Hl in Hs.
Qed.

(** C5. For a token bound as a singleton, two successful [resolve] calls
    with no [clear()] or [reset()] between them (any registrations and
    resolutions may happen in between) return the identical instance: the
    second call takes it from the cache and changes nothing.  The instance
    is constructed by the first [resolve] that finds no cached one. *)
Theorem singleton_resolves_identical f1 f2 tok ops s0 s1 s2 s3 v1 v2 b1 b2 :
  bindings (this s0) !! key tok = Some b1 → lifecycle b1 = Singleton →
  resolve f1 tok s0 = Some (Return v1, s1) →
  forallb keeps_cache ops = true → run ops s1 = Some s2 →
  bindings (this s2) !! key tok = Some b2 → lifecycle b2 = Singleton →
  resolve f2 tok s2 = Some (Return v2, s3) →
  v2 = v1 ∧ s3 = s2 ∧
  (singletons (this s0) !! key tok = None →
   fresh_instance (implementation b1) s0 s1 v1).
Proof.
  intros Hb1 Hl1 H1 Hops Hrun Hb2 Hl2 H2.
  pose proof (resolve_singleton_cached _ _ _ _ _ _ Hb1 Hl1 H1) as Hc1.
  pose proof (run_cache_keep _ _ _ _ _ Hops Hrun Hc1) as Hc2.
  apply resolve_Return in H2 as (b & Hb & _ & H2).
  assert (b = b2) as -> by congruence.
  destruct H2 as [(_ & Hs & ->) | (Hn & _)]; [|rewrite Hn in Hc2; done].
  split; [congruence|]. split; [done|].
  intros Hnone. apply resolve_Return in H1 as (b & Hb' & _ & H1).
  assert (b = b1) as -> by congruence.
  destruct H1 as [(_ & Hs' & _) | (_ & Fr & _)]; [congruence | done].
Qed.

Lemma singleton_resolves_identical_witness :
  let tok := Example.Logger in
  let s0 := Example.basic_usage in
  let s1 := Example.after [Resolve 1 tok] s0 in
  let ops := [Resolve 3 Example.UserService; IsRegistered tok;
              Register Example.Database (Ctor Example.PostgresDatabase)] in
  let s2 := Example.after ops s1 in
  resolve 1 tok s0 = Some (Return (VObject 0), s1) ∧
  resolve 1 tok s2 = Some (Return (VObject 0), s2) ∧
  VObject 0 = VObject 0 ∧ s2 = s2 ∧
  (singletons (this s0) !! key tok = None →
   fresh_instance Example.ConsoleLogger s0 s1 (VObject 0)).
Proof.
  intros tok s0 s1 ops s2.
  assert (H1 : resolve 1 tok s0 = Some (Return (VObject 0), s1)) by (vm_compute; reflexivity).
  assert (H2 : resolve 1 tok s2 = Some (Return (VObject 0), s2)) by (vm_compute; reflexivity).
  split; [exact H1|]. split; [exact H2|].
  apply (singleton_resolves_identical 1 1 tok ops s0 s1 s2 s2 (VObject 0) (VObject 0)
           {| implementation := Example.ConsoleLogger; lifecycle := Singleton; token := tok |}
           {| implementation := Example.ConsoleLogger; lifecycle := Singleton; token := tok |});
    try exact H1; try exact H2; vm_compute; reflexivity.
Defined.

(** ** Re-registration *)

Lemma register_bound tok cls c :
  isInjectable cls = true →
  register tok (Ctor cls) c =
    (Return tt,
     {| bindings := <[key tok := {| implementation := cls;
                                    lifecycle := default Transient (getLifecycle cls);
                                    token := tok |}]> (bindings c);
        singletons := singletons c;
        resolutionStack := resolutionStack c;
        typeToTokenMap := <[class_id cls := tok]> (typeToTokenMap c) |}).
Proof. intros Hi. unfold register. by rewrite Hi. Qed.

(** [register] replaces the binding of the token: the class, the lifecycle
    and the token of the earlier binding are gone from [bindings]. *)
Lemma register_overwrites tok cls c :
  isInjectable cls = true →
  bindings (register tok (Ctor cls) c).2 !! key tok =
    Some {| implementation := cls;
            lifecycle := default Transient (getLifecycle cls); token := tok |}.
Proof. intros Hi. rewrite register_bound by done. simpl. apply lookup_insert_eq. Qed.

(** When [resolve] constructs, which it does for a transient binding and
    for a singleton binding whose token has no cached instance, it
    constructs an instance of the class registered last. *)
Lemma resolve_uses_last_registration tok cls c h fuel v s' :
  isInjectable cls = true →
  (getLifecycle cls = Some Singleton → singletons c !! key tok = None) →
  resolve fuel tok {| this := (register tok (Ctor cls) c).2; heap := h |}
    = Some (Return v, s') →
  fresh_instance cls {| this := (register tok (Ctor cls) c).2; heap := h |} s' v.
Proof.
  intros Hi Hn H. apply resolve_Return in H as (b & Hb & _ & H). cbn [this heap] in Hb.
  rewrite register_overwrites in Hb by done. injection Hb as <-.
  destruct H as [(Hl & Hs & _) | (_ & Fr & _)]; [|done].
  cbn [this heap] in *. rewrite (proj1 (register_frame _ _ _)) in Hs.
  destruct (getLifecycle cls) as [[|]|]; try done. rewrite Hn in Hs; done.
Qed.

(** The entry that [register] wrote into [typeToTokenMap] for an earlier
    class of the token stays when another class is registered. *)
Lemma register_keeps_type_entry tok X Y c :
  isInjectable X = true → isInjectable Y = true → class_id X ≠ class_id Y →
  typeToTokenMap (register tok (Ctor Y) (register tok (Ctor X) c).2).2 !! class_id X
    = Some tok.
Proof.
  intros HiX HiY Hne. rewrite !register_bound by done. simpl.
  rewrite lookup_insert_ne by done. apply lookup_insert_eq.
Qed.

(** C1. [register(token, X)] with [X] a singleton, [resolve(token)], then
    [register(token, Y)] with [Y] a singleton: the binding of the token is
    [Y]'s, yet every later [resolve(token)] returns the instance of [X]
    that the first call constructed and cached, and constructs nothing. *)
Theorem reregistration_returns_cached_instance tok X Y c0 h0 fuel v s1 :
  isInjectable X = true → getLifecycle X = Some Singleton →
  isInjectable Y = true → getLifecycle Y = Some Singleton →
  singletons c0 !! key tok = None →
  resolve fuel tok {| this := (register tok (Ctor X) c0).2; heap := h0 |}
    = Some (Return v, s1) →
  let s2 := {| this := (register tok (Ctor Y) (this s1)).2; heap := heap s1 |} in
  fresh_instance X {| this := (register tok (Ctor X) c0).2; heap := h0 |} s1 v ∧
  bindings (this s2) !! key tok =
    Some {| implementation := Y; lifecycle := Singleton; token := tok |} ∧
  ∀ fuel', resolve (S fuel') tok s2 = Some (Return v, s2).
Proof.
  intros HiX HlX HiY HlY Hnone H s2.
  assert (Hfresh : fresh_instance X {| this := (register tok (Ctor X) c0).2; heap := h0 |} s1 v).
  { eapply resolve_uses_last_registration; eauto. }
  assert (Hb2 : bindings (this s2) !! key tok =
                Some {| implementation := Y; lifecycle := Singleton; token := tok |}).
  { unfold s2. cbn [this heap]. rewrite register_overwrites by done. by rewrite HlY. }
  split; [done|]. split; [done|]. intros fuel'.
  pose proof (resolve_frame _ _ _ _ _ H) as F.
  pose proof H as H'. apply resolve_Return in H' as (b & Hb & Hf & _).
  cbn [this heap] in Hb. rewrite register_overwrites in Hb by done. injection Hb as <-.
  eapply resolve_cached; [exact Hb2 | done | |].
  - unfold s2. cbn [this heap]. rewrite (proj2 (register_frame _ _ _)).
    by rewrite (frame_stack _ _ F).
  - unfold s2. cbn [this heap]. rewrite (proj1 (register_frame _ _ _)).
    eapply resolve_singleton_cached; [| |exact H].
    + cbn [this heap]. by apply register_overwrites.
    + cbn [lifecycle]. by rewrite HlX.
Qed.

Lemma reregistration_returns_cached_instance_witness :
  let tok := Example.Logger in
  let s1 := Example.after [Resolve 1 tok] (Example.fresh [(tok, Example.ConsoleLogger)]) in
  let s2 := Example.after [Register tok (Ctor Example.MockLogger)] s1 in
  heap s2 = [{| obj_class := class_id Example.ConsoleLogger; obj_fields := [] |}] ∧
  bindings (this s2) !! key tok =
    Some {| implementation := Example.MockLogger; lifecycle := Singleton; token := tok |} ∧
  ∀ fuel', resolve (S fuel') tok s2 = Some (Return (VObject 0), s2).
Proof.
  intros tok s1 s2. split; [reflexivity|].
  refine (proj2 (reregistration_returns_cached_instance tok Example.ConsoleLogger
            Example.MockLogger empty_container [] 1 (VObject 0) s1 _ _ _ _ _ _));
    vm_compute; reflexivity.
Defined.

(** ** Transient bindings *)

(** Two successful [resolve] calls of a token that is bound transient at
    both calls return distinct instances, whatever happens in between. *)
Lemma transient_resolves_distinct f1 f2 tok ops s0 s1 s2 s3 v1 v2 b1 b2 :
  bindings (this s0) !! key tok = Some b1 → lifecycle b1 = Transient →
  resolve f1 tok s0 = Some (Return v1, s1) →
  run ops s1 = Some s2 →
  bindings (this s2) !! key tok = Some b2 → lifecycle b2 = Transient →
  resolve f2 tok s2 = Some (Return v2, s3) →
  v1 ≠ v2 ∧ fresh_instance (implementation b1) s0 s1 v1 ∧
  fresh_instance (implementation b2) s2 s3 v2.
Proof.
  intros Hb1 Hl1 H1 Hrun Hb2 Hl2 H2.
  apply resolve_Return in H1 as (b & Hb & _ & H1). assert (b = b1) as -> by congruence.
  apply resolve_Return in H2 as (b & Hb' & _ & H2). assert (b = b2) as -> by congruence.
  destruct H1 as [(Hl & _) | (_ & Fr1 & _)]; [congruence|].
  destruct H2 as [(Hl & _) | (_ & Fr2 & _)]; [congruence|].
  split; [|done].
  apply run_heap, prefix_length in Hrun.
  destruct Fr1 as (r1 & a1 & -> & _ & Hlen1 & _).
  destruct Fr2 as (r2 & a2 & -> & Hle2 & _). intros [= ->]. lia.
Qed.

(** [resolve] never stores an instance under a token bound transient. *)
Lemma resolve_transient_uncached fuel tok s r s' :
  resolve fuel tok s = Some (r, s') →
  transient_uncached (this s) → transient_uncached (this s').
Proof.
  intros H Hinv k b Hb Hl. apply resolve_frame in H as [Fb _ _ _ _ Fn].
  rewrite Fb in Hb. pose proof (Hinv k b Hb Hl) as Hnone.
  destruct (singletons (this s') !! k) as [v|] eqn:E; [|done].
  destruct (Fn k Hnone) as (b' & Hb' & Hl'); [by eauto|]. congruence.
Qed.

Lemma register_transient_uncached tok cls c :
  (getLifecycle cls = Some Singleton ∨ singletons c !! key tok = None) →
  transient_uncached c → transient_uncached (register tok (Ctor cls) c).2.
Proof.
  intros Hok Hinv k b. unfold register.
  destruct (negb (isInjectable cls)); [apply Hinv|]. simpl.
  destruct (decide (key tok = k)) as [<-|Hne].
  - rewrite lookup_insert_eq. intros [= <-]. simpl. intros Hl.
    destruct Hok as [Hs | Hn]; [by rewrite Hs in Hl | done].
  - rewrite lookup_insert_ne by done. apply Hinv.
Qed.

(** C6. [register(token, X)] with [X] a singleton, [resolve(token)], then
    [register(token, Y)] with [Y] transient: the token is bound transient
    and the singleton cache still holds the instance of [X] under it. *)
Theorem transient_rebinding_keeps_cache_entry tok X Y c0 h0 fuel v s1 :
  isInjectable X = true → getLifecycle X = Some Singleton →
  isInjectable Y = true → getLifecycle Y ≠ Some Singleton →
  resolve fuel tok {| this := (register tok (Ctor X) c0).2; heap := h0 |}
    = Some (Return v, s1) →
  let c2 := (register tok (Ctor Y) (this s1)).2 in
  bindings c2 !! key tok =
    Some {| implementation := Y; lifecycle := Transient; token := tok |} ∧
  singletons c2 !! key tok = Some v ∧
  ¬ transient_uncached c2.
Proof.
  intros HiX HlX HiY HlY H c2.
  assert (Hb2 : bindings c2 !! key tok =
                Some {| implementation := Y; lifecycle := Transient; token := tok |}).
  { unfold c2. rewrite register_overwrites by done.
    by destruct (getLifecycle Y) as [[|]|]. }
  assert (Hs2 : singletons c2 !! key tok = Some v).
  { unfold c2. rewrite (proj1 (register_frame _ _ _)).
    eapply resolve_singleton_cached; [| |exact H].
    - cbn [this heap]. by apply register_overwrites.
    - cbn [lifecycle]. by rewrite HlX. }
  split; [done|]. split; [done|].
  intros Hinv. specialize (Hinv _ _ Hb2 eq_refl). congruence.
Qed.

Lemma transient_rebinding_keeps_cache_entry_witness :
  let tok := Example.Logger in
  let s1 := Example.after [Resolve 1 tok] (Example.fresh [(tok, Example.ConsoleLogger)]) in
  let c2 := (register tok (Ctor Example.FileLogger) (this s1)).2 in
  bindings c2 !! key tok =
    Some {| implementation := Example.FileLogger; lifecycle := Transient; token := tok |} ∧
  singletons c2 !! key tok = Some (VObject 0) ∧
  ¬ transient_uncached c2.
Proof.
  intros tok s1.
  refine (transient_rebinding_keeps_cache_entry tok Example.ConsoleLogger
            Example.FileLogger empty_container [] 1 (VObject 0) s1 _ _ _ _ _);
    try (vm_compute; reflexivity).
  vm_compute. discriminate.
Defined.

Lemma empty_cache_allocated_registered regs :
  cache_allocated (Example.fresh regs).
Proof.
  unfold Example.fresh, Example.registered.
  assert (H : ∀ c, singletons c = ∅ →
                   singletons (foldl (fun c r => (register r.1 (Ctor r.2) c).2) c regs) = ∅).
  { induction regs as [|r rest IH]; intros c Hc; [done|].
    cbn [foldl]. apply IH. by rewrite (proj1 (register_frame _ _ _)). }
  intros k v. simpl. rewrite H by done. by rewrite lookup_empty.
Qed.
(** ** [clear()] and [reset()] *)

(** C7. [clear()] empties the singleton cache and the in-flight path and
    keeps the bindings, so [isRegistered] answers as before; [reset()]
    empties the bindings too, so [isRegistered] is false for every token.
    For a token bound as a singleton, [resolve] after [clear()] comes back,
    and when it returns an instance it has constructed it anew: the
    instance is distinct from the one [resolve] returned before. *)
Theorem clear_forces_reconstruction tok f0 ops s0 s1 s2 v_old b fuel :
  cache_allocated s0 →
  resolve f0 tok s0 = Some (Return v_old, s1) →
  run ops s1 = Some s2 →
  bindings (this s2) !! key tok = Some b → lifecycle b = Singleton →
  available {| this := clear (this s2); heap := heap s2 |} < fuel →
  let sc := {| this := clear (this s2); heap := heap s2 |} in
  (singletons (this sc) = ∅ ∧ resolutionStack (this sc) = [] ∧
   bindings (this sc) = bindings (this s2)) ∧
  (∀ t, isRegistered t (clear (this s2)) = isRegistered t (this s2)) ∧
  isRegistered tok (clear (this s2)) = true ∧
  (bindings (reset (this s2)) = ∅ ∧ singletons (reset (this s2)) = ∅ ∧
   resolutionStack (reset (this s2)) = [] ∧
   ∀ t, isRegistered t (reset (this s2)) = false) ∧
  ∃ r s3, resolve fuel tok sc = Some (r, s3) ∧
    ∀ v, r = Return v → fresh_instance (implementation b) sc s3 v ∧ v ≠ v_old.
Proof.
  intros Hca H0 Hrun Hb Hl Hfuel sc.
  split; [done|]. split; [done|]. split.
  { unfold isRegistered. simpl. rewrite Hb. by apply bool_decide_eq_true. }
  split.
  { split; [done|]. split; [done|]. split; [done|].
    intros t. unfold isRegistered. apply bool_decide_eq_false.
    simpl. rewrite lookup_empty. by intros [? ?]. }
  destruct (resolve_total fuel tok sc Hfuel) as [[r s3] Hr].
  exists r, s3. split; [done|]. intros v ->.
  apply resolve_Return in Hr as (b' & Hb' & _ & Hr). simpl in Hb'.
  assert (b' = b) as -> by congruence.
  destruct Hr as [(_ & Hs & _) | (_ & Fr & _)]; [simpl in Hs; by rewrite lookup_empty in Hs|].
  split; [done|]. intros ->.
  apply (fresh_instance_not_allocated _ _ _ _ Fr). simpl.
  eapply allocated_mono; [by eapply run_heap|].
  apply resolve_post in H0 as [_ A]. by apply (A Hca).
Qed.

Lemma clear_forces_reconstruction_witness :
  let tok := Example.Logger in
  let s0 := Example.basic_usage in
  let s1 := Example.after [Resolve 1 tok] s0 in
  let s2 := Example.after [Resolve 3 Example.UserService] s1 in
  let sc := {| this := clear (this s2); heap := heap s2 |} in
  resolve 1 tok s0 = Some (Return (VObject 0), s1) ∧
  isRegistered tok (clear (this s2)) = true ∧
  isRegistered tok (reset (this s2)) = false ∧
  ∃ r s3, resolve 4 tok sc = Some (r, s3) ∧
    ∀ v, r = Return v → fresh_instance Example.ConsoleLogger sc s3 v ∧ v ≠ VObject 0.
Proof.
  intros tok s0 s1 s2 sc.
  assert (H0 : resolve 1 tok s0 = Some (Return (VObject 0), s1)) by (vm_compute; reflexivity).
  split; [exact H0|].
  destruct (clear_forces_reconstruction tok 1 [Resolve 3 Example.UserService]
              s0 s1 s2 (VObject 0)
              {| implementation := Example.ConsoleLogger; lifecycle := Singleton;
                 token := tok |} 4)
    as (_ & _ & Hreg & (_ & _ & _ & Hreset) & Hnew).
  - apply empty_cache_allocated_registered.
  - exact H0.
  - vm_compute; reflexivity.
  - vm_compute; reflexivity.
  - reflexivity.
  - vm_compute. lia.
  - split; [exact Hreg|]. split; [apply Hreset | exact Hnew].
Defined.

(** ** Failures *)

Lemma pop_push tok c : pop (push tok c) = c.
Proof. destruct c. unfold pop, push, with_stack. simpl. by rewrite removelast_last. Qed.

Lemma left_entered tok s :
  {| this := pop (this (entered tok s)); heap := heap (entered tok s) |} = s.
Proof. destruct s. unfold entered. simpl. by rewrite pop_push. Qed.


Lemma resolve_in_flight fuel tok s b :
  bindings (this s) !! key tok = Some b →
  in_flight tok (resolutionStack (this s)) = true →
  resolve (S fuel) tok s =
    Some (Throw (CircularDependencyError (resolutionStack (this s) ++ [tok])), s).
Proof. intros Hb Hf. by rewrite resolve_S, Hb, Hf. Qed.

(** A failure of [createInstance] leaves [resolve] through the [finally]. *)
Lemma resolve_propagates fuel tok s b e s2 :
  bindings (this s) !! key tok = Some b →
  in_flight tok (resolutionStack (this s)) = false →
  (lifecycle b = Singleton → singletons (this s) !! key tok = None) →
  createInstance (resolve fuel) tok (implementation b) (entered tok s) = Some (Throw e, s2) →
  resolve (S fuel) tok s = Some (Throw e, {| this := pop (this s2); heap := heap s2 |}).
Proof.
  intros Hb Hf Hn Hc. rewrite resolve_S, Hb, Hf, Hc.
  destruct (lifecycle b); [by rewrite Hn|done].
Qed.

Section FirstDependency.
Variable rec : Token → State → option (Completion Value * State).

Lemma createInstance_first_unbound tok cls s dep rest :
  getInjectTokens cls = Some (Tok dep :: rest) →
  bindings (this s) !! key dep = None →
  createInstance rec tok cls s = Some (Throw (DependencyNotFoundError dep), s).
Proof. intros Ht Hb. unfold createInstance. rewrite Ht. simpl. by rewrite Hb. Qed.

Lemma createInstance_first_throws tok cls s dep rest b e s' :
  getInjectTokens cls = Some (Tok dep :: rest) →
  bindings (this s) !! key dep = Some b →
  rec dep s = Some (Throw e, s') →
  createInstance rec tok cls s = Some (Throw e, s').
Proof. intros Ht Hb Hr. unfold createInstance. rewrite Ht. simpl. by rewrite Hb, Hr. Qed.
End FirstDependency.

(** In the constructor-injection container a dependency that was never
    registered surfaces as it is: [resolve(A)] fails with
    [DependencyNotFound] for [B], and the container is as before. *)
Lemma resolve_missing_dependency fuel A B s bA rest :
  bindings (this s) !! key A = Some bA →
  getInjectTokens (implementation bA) = Some (Tok B :: rest) →
  bindings (this s) !! key B = None →
  in_flight A (resolutionStack (this s)) = false →
  (lifecycle bA = Singleton → singletons (this s) !! key A = None) →
  resolve (S fuel) A s = Some (Throw (DependencyNotFoundError B), s) ∧
  error_message (DependencyNotFoundError B) =
    Some ("Dependency not found: " +:+ description B +:+
          " (" +:+ symbol_toString (symbol B) +:+ ")").
Proof.
  intros HbA Ht HbB Hf Hn. split; [|done].
  erewrite resolve_propagates; eauto.
  - by rewrite left_entered.
  - by apply createInstance_first_unbound with (rest := rest).
Qed.

Lemma in_flight_last tok stack : in_flight tok (stack ++ [tok]) = true.
Proof.
  unfold in_flight. rewrite existsb_app. simpl.
  unfold symbol_eqb. rewrite Nat.eqb_refl. by rewrite orb_true_r.
Qed.

Lemma cycle_from fuel A B s bA bB restA restB :
  bindings (this s) !! key A = Some bA →
  getInjectTokens (implementation bA) = Some (Tok B :: restA) →
  bindings (this s) !! key B = Some bB →
  getInjectTokens (implementation bB) = Some (Tok A :: restB) →
  key A ≠ key B →
  resolutionStack (this s) = [] →
  singletons (this s) !! key A = None →
  singletons (this s) !! key B = None →
  resolve (S (S (S fuel))) A s = Some (Throw (CircularDependencyError [A; B; A]), s).
Proof.
  intros HbA HtA HbB HtB Hne Hstack HsA HsB.
  set (s1 := entered A s). set (s2 := entered B s1).
  assert (Hst1 : resolutionStack (this s1) = [A]) by (unfold s1; simpl; by rewrite Hstack).
  assert (Hst2 : resolutionStack (this s2) = [A; B])
    by (unfold s2, s1; simpl; by rewrite Hstack).
  assert (H3 : resolve (S fuel) A s2 =
               Some (Throw (CircularDependencyError [A; B; A]), s2)).
  { erewrite resolve_in_flight; [by rewrite Hst2 | exact HbA |].
    rewrite Hst2. simpl. unfold symbol_eqb. by rewrite Nat.eqb_refl. }
  assert (H2 : resolve (S (S fuel)) B s1 =
               Some (Throw (CircularDependencyError [A; B; A]), s1)).
  { erewrite resolve_propagates.
    - unfold s2. by rewrite left_entered.
    - exact HbB.
    - rewrite Hst1. simpl. unfold symbol_eqb. rewrite orb_false_r.
      apply Nat.eqb_neq. exact Hne.
    - done.
    - eapply createInstance_first_throws; [exact HtB | exact HbA | exact H3]. }
  erewrite resolve_propagates.
  - unfold s1. by rewrite left_entered.
  - exact HbA.
  - by rewrite Hstack.
  - done.
  - eapply createInstance_first_throws; [exact HtA | exact HbB | exact H2].
Qed.

(** C3 as worded fails where the cycle through [B] is not the first one
    that the depth-first resolution meets: with [B] declaring [C] before
    [A] and [C] declaring [A], the reported chain is [A, B, C, A]. *)
Lemma cycle_reported_counterexample :
  ¬ cycle_reported
      (Example.fresh [(Example.ServiceA, Example.AImpl);
                      (Example.ServiceB, Example.BViaC);
                      (Example.ServiceC, Example.CImpl)])
      Example.ServiceA Example.ServiceB.
Proof.
  intros Hclaim. destruct Hclaim as (fuel & s' & Hr & _).
  - eexists _, _. split; [vm_compute; reflexivity|]. split; [reflexivity|].
    apply list_elem_of_here.
  - eexists _, _. split; [vm_compute; reflexivity|]. split; [reflexivity|].
    apply list_elem_of_further, list_elem_of_here.
  - assert (H4 : resolve 4 Example.ServiceA
                   (Example.fresh [(Example.ServiceA, Example.AImpl);
                                   (Example.ServiceB, Example.BViaC);
                                   (Example.ServiceC, Example.CImpl)])
                 = Some (Throw (CircularDependencyError
                                  [Example.ServiceA; Example.ServiceB;
                                   Example.ServiceC; Example.ServiceA]),
                         Example.fresh [(Example.ServiceA, Example.AImpl);
                                        (Example.ServiceB, Example.BViaC);
                                        (Example.ServiceC, Example.CImpl)]))
      by (vm_compute; reflexivity).
    pose proof (resolve_deterministic _ _ _ _ _ _ Hr H4) as Heq.
    discriminate Heq.
Qed.

(** The chain is not reported either when an instance cached under an
    earlier binding of [A] is still there: [resolve(A)] returns it. *)
Lemma cycle_hidden_by_cached_instance :
  let s := Example.after
             [Resolve 1 Example.ServiceA;
              Register Example.ServiceA (Ctor Example.AImpl);
              Register Example.ServiceB (Ctor Example.BImpl)]
             (Example.fresh [(Example.ServiceA, Example.ConsoleLogger)]) in
  declares_dependency (this s) Example.ServiceA Example.ServiceB ∧
  declares_dependency (this s) Example.ServiceB Example.ServiceA ∧
  ∀ fuel, resolve (S fuel) Example.ServiceA s = Some (Return (VObject 0), s).
Proof.
  intros s. split; [|split].
  - eexists _, _. split; [vm_compute; reflexivity|]. split; [reflexivity|].
    apply list_elem_of_here.
  - eexists _, _. split; [vm_compute; reflexivity|]. split; [reflexivity|].
    apply list_elem_of_here.
  - intros fuel.
    apply resolve_cached with
      (b := {| implementation := Example.AImpl; lifecycle := Singleton;
               token := Example.ServiceA |}); vm_compute; reflexivity.
Qed.

(** ** The failures of [resolve] *)

Section Throws.
Variable rec : Token → State → option (Completion Value * State).
Hypothesis rec_throws : ∀ t s e s', rec t s = Some (Throw e, s') → container_error e.


End Throws.


End InjectFacts.

(** * Properties of the ambient container *)

Module AmbientFacts.
Import Ambient.

(** ** What [resolve] may change *)

Lemma ambient_frame_refl w : frame w w.
Proof. by split. Qed.

Lemma ambient_frame_trans w1 w2 w3 : frame w1 w2 → frame w2 w3 → frame w1 w3.
Proof.
  intros [S1 H1 A1] [S2 H2 A2]. split; [congruence | by etrans | auto].
Qed.

Lemma shape_at w w' c :
  shape <$> containers w' = shape <$> containers w →
  shape (container_at w' c) = shape (container_at w c).
Proof.
  intros Hs. unfold container_at.
  assert (H : shape <$> (containers w' !! c) = shape <$> (containers w !! c))
    by (by rewrite <- !list_lookup_fmap, Hs).
  destruct (containers w' !! c), (containers w !! c); simpl in *; congruence.
Qed.

Lemma bound_in_range w c k b :
  bindings (container_at w c) !! k = Some b →
  containers w !! c = Some (container_at w c).
Proof.
  unfold container_at. destruct (containers w !! c); [done|]. simpl. by rewrite lookup_empty.
Qed.

Lemma shape_update_id c f w :
  (∀ C, shape (f C) = shape C) →
  shape <$> containers (update c f w) = shape <$> containers w.
Proof.
  intros Hf. unfold update, container_at. simpl.
  destruct (containers w !! c) as [C|] eqn:E; simpl.
  - rewrite list_fmap_insert, Hf. apply list_insert_id. by rewrite list_lookup_fmap, E.
  - rewrite list_insert_ge; [done|]. by apply lookup_ge_None.
Qed.

Lemma shape_cache tok v C : shape (cache tok v C) = shape C.
Proof. done. Qed.

Section Frame.
Variable rec : nat → Token → World → option (Completion Value * World).
Hypothesis rec_frame : ∀ c t w r w', rec c t w = Some (r, w') → frame w w'.

Lemma run_ctor_frame body : ∀ w r w',
  run_ctor rec body w = Some (r, w') → frame w w'.
Proof.
  induction body as [|stmt rest IH]; intros w r w' H; simpl in H.
  - simplify_eq. apply ambient_frame_refl.
  - destruct stmt as [t|c t|e].
    + destruct (getContainer w) as [c|e]; [|simplify_eq; apply ambient_frame_refl].
      destruct (rec c t w) as [[[v|e] w1]|] eqn:E; simplify_eq.
      * apply rec_frame in E.
        destruct (run_ctor rec rest w1) as [[[vs|e] w2]|] eqn:E2; simplify_eq;
          eapply ambient_frame_trans; eauto.
      * by eapply rec_frame.
    + destruct (rec c t w) as [[[v|e] w1]|] eqn:E; simplify_eq.
      * apply rec_frame in E.
        destruct (run_ctor rec rest w1) as [[[vs|e] w2]|] eqn:E2; simplify_eq;
          eapply ambient_frame_trans; eauto.
      * by eapply rec_frame.
    + simplify_eq. apply ambient_frame_refl.
Qed.

Lemma createInstance_frame tok cls w r w' :
  createInstance rec tok cls w = Some (r, w') → frame w w'.
Proof.
  unfold createInstance. intros H.
  destruct (run_ctor rec (ctor_body cls) w) as [[[fields|e] w1]|] eqn:E; simplify_eq.
  - apply run_ctor_frame in E as [S1 H1 A1]. split; simpl; [done | | done].
    etrans; [exact H1 | by apply prefix_app_r].
  - by eapply run_ctor_frame.
Qed.
End Frame.

Lemma ambient_resolve_cases fuel c tok w r w' :
  resolve fuel c tok w = Some (r, w') → resolve_case fuel c tok w r w'.
Proof.
  destruct fuel as [|fuel']; [done|]. simpl.
  destruct (bindings (container_at w c) !! key tok) as [b|] eqn:Hb.
  2:{ intros [= <- <-]. by constructor. }
  destruct (in_flight tok (resolutionStack (container_at w c))) eqn:Hf.
  { intros [= <- <-]. by econstructor. }
  fold (entered c tok w).
  destruct (lifecycle b) eqn:Hl.
  - destruct (singletons (container_at w c) !! key tok) as [v|] eqn:Hs.
    + intros [= <- <-]. by econstructor.
    + destruct (createInstance _ _ _ _) as [[r3 w3]|] eqn:Hc; [|done].
      intros [= <- <-].
      replace (match activeContainer w with Some p => _ | None => _ end)
        with (settle c tok b (activeContainer w) r3 w3)
        by (unfold settle; by rewrite Hl).
      by econstructor.
  - destruct (createInstance _ _ _ _) as [[r3 w3]|] eqn:Hc; [|done].
    intros [= <- <-].
    replace (match activeContainer w with Some p => _ | None => _ end)
      with (settle c tok b (activeContainer w) r3 w3)
      by (unfold settle; rewrite Hl; by destruct r3).
    econstructor; eauto. by rewrite Hl.
Qed.

Lemma shape_settle c tok b previous r w w3 :
  bindings (container_at w c) !! key tok = Some b →
  shape <$> containers w3 = shape <$> containers (entered c tok w) →
  shape <$> containers (settle c tok b previous r w3) = shape <$> containers w.
Proof.
  intros Hb Hs. apply bound_in_range in Hb.
  set (w4 := match r, lifecycle b with
             | Return instance, Singleton => update c (cache tok instance) w3
             | _, _ => w3
             end).
  assert (H4 : shape <$> containers w4 = shape <$> containers (entered c tok w)).
  { unfold w4. destruct r as [inst|e], (lifecycle b); try done.
    rewrite shape_update_id; [done | apply shape_cache]. }
  assert (H5 : shape <$> containers (update c pop w4) = shape <$> containers w).
  { pose proof (shape_at _ _ c H4) as Hat.
    unfold update at 1. simpl. rewrite list_fmap_insert, H4.
    unfold entered, update. simpl. rewrite list_fmap_insert, list_insert_insert_eq.
    apply list_insert_id. rewrite list_lookup_fmap, Hb. simpl. f_equal.
    unfold entered, update, container_at at 2 in Hat. simpl in Hat.
    rewrite list_lookup_insert_eq in Hat by (by eapply lookup_lt_Some). simpl in Hat.
    unfold shape, pop in *. simpl in *. injection Hat as -> -> ->.
    by rewrite removelast_last. }
  unfold settle. fold w4. by destruct previous.
Qed.

Lemma ambient_resolve_frame fuel : ∀ c tok w r w',
  resolve fuel c tok w = Some (r, w') → frame w w'.
Proof.
  induction fuel as [|fuel' IH]; [done|].
  intros c tok w r w' H. apply ambient_resolve_cases in H.
  destruct H as [Hb | b Hb Hf | b v Hb Hf Hl Hs | b f r w3 [= <-] Hb Hf Hn Hc];
    try apply ambient_frame_refl.
  apply (createInstance_frame _ IH) in Hc as [S3 H3 A3]. split.
  - by eapply shape_settle.
  - unfold settle. by destruct r, (lifecycle b), (activeContainer w).
  - intros p Hp. unfold settle. by rewrite Hp.
Qed.

(** A [resolve] that finds no container active leaves none active or
    itself. *)
Lemma resolve_installs fuel c tok w r w' :
  resolve fuel c tok w = Some (r, w') →
  activeContainer w = None →
  activeContainer w' = None ∨ activeContainer w' = Some c.
Proof.
  intros H Hnone. apply ambient_resolve_cases in H.
  destruct H as [Hb | b Hb Hf | b v Hb Hf Hl Hs | b f r w3 -> Hb Hf Hn Hc]; auto.
  right. apply (createInstance_frame _ (ambient_resolve_frame f)) in Hc as [_ _ A3].
  specialize (A3 c eq_refl). unfold settle. rewrite Hnone.
  by destruct r, (lifecycle b).
Qed.

Lemma ambient_in_flight_false tok stack :
  in_flight tok stack = false ↔ key tok ∉ (list_to_set (key <$> stack) : gset nat).
Proof.
  unfold in_flight. induction stack as [|t rest IH]; simpl.
  - set_solver.
  - rewrite orb_false_iff, IH. unfold symbol_eqb, key.
    rewrite Nat.eqb_neq. set_solver.
Qed.

Lemma container_available_shape C C' :
  shape C = shape C' → container_available C = container_available C'.
Proof. unfold shape, container_available, stack_keys. by intros [= -> -> _]. Qed.

Lemma ambient_available_frame w w' : frame w w' → available w' = available w.
Proof.
  intros [Hs _ _]. unfold available. f_equal.
  apply list_eq. intros i. rewrite !list_lookup_fmap.
  pose proof (shape_at _ _ i Hs) as Hat.
  assert (Hl : shape <$> (containers w' !! i) = shape <$> (containers w !! i))
    by (by rewrite <- !list_lookup_fmap, Hs).
  unfold container_at in Hat.
  destruct (containers w' !! i), (containers w !! i); simpl in *; try done.
  f_equal. by apply container_available_shape.
Qed.

Lemma container_available_push tok C b :
  bindings C !! key tok = Some b →
  in_flight tok (resolutionStack C) = false →
  S (container_available (push tok C)) = container_available C.
Proof.
  intros Hb Hf. apply ambient_in_flight_false in Hf. unfold container_available, stack_keys, push. simpl.
  rewrite fmap_app, list_to_set_app_L. simpl.
  set (D := dom (bindings C)). set (K := list_to_set (key <$> resolutionStack C) : gset nat).
  assert (Hin : key tok ∈ D ∖ K).
  { apply elem_of_difference. split; [|done]. apply elem_of_dom. eauto. }
  replace (D ∖ (K ∪ ({[key tok]} ∪ ∅))) with ((D ∖ K) ∖ {[key tok]}) by set_solver.
  rewrite size_difference by set_solver. rewrite size_singleton.
  assert (size (D ∖ K) ≠ 0); [|lia].
  intros Hz. apply size_empty_iff in Hz. set_solver.
Qed.

Lemma sum_list_insert_S {A} (f : A → nat) (l : list A) i x y :
  l !! i = Some x → S (f y) = f x →
  S (sum_list (f <$> <[i := y]> l)) = sum_list (f <$> l).
Proof.
  revert i. induction l as [|a l IH]; intros [|i] Hl Hf; simplify_eq/=.
  - lia.
  - specialize (IH i Hl Hf). simpl in *. lia.
Qed.

Lemma ambient_available_entered c tok w b :
  bindings (container_at w c) !! key tok = Some b →
  in_flight tok (resolutionStack (container_at w c)) = false →
  S (available (entered c tok w)) = available w.
Proof.
  intros Hb Hf. unfold available, entered, update. simpl.
  apply sum_list_insert_S with (x := container_at w c).
  - by eapply bound_in_range.
  - by eapply container_available_push.
Qed.

Section Total.
Variable rec : nat → Token → World → option (Completion Value * World).
Variable bound : nat.
Hypothesis rec_frame : ∀ c t w r w', rec c t w = Some (r, w') → frame w w'.
Hypothesis rec_total : ∀ c t w, available w < bound → is_Some (rec c t w).

Lemma run_ctor_total body : ∀ w,
  available w < bound → is_Some (run_ctor rec body w).
Proof.
  induction body as [|stmt rest IH]; intros w Hw; simpl; [done|].
  assert (Hcall : ∀ c t,
    is_Some (match rec c t w with
             | Some (Return v, w') =>
                 match run_ctor rec rest w' with
                 | Some (Return vs, w'') => Some (Return (v :: vs), w'')
                 | other => other
                 end
             | Some (Throw e, w') => Some (Throw e, w')
             | None => None
             end)).
  { intros c t. destruct (rec_total c t w Hw) as [[[v|e] w1] Hr]; rewrite Hr; [|done].
    apply rec_frame, ambient_available_frame in Hr.
    destruct (IH w1) as [[[vs|e] w2] ->]; [lia|done..]. }
  destruct stmt as [t|c t|e]; [|apply Hcall|done].
  destruct (getContainer w) as [c|e]; [apply Hcall|done].
Qed.

Lemma ambient_createInstance_total tok cls w :
  available w < bound → is_Some (createInstance rec tok cls w).
Proof.
  intros Hw. unfold createInstance.
  by destruct (run_ctor_total (ctor_body cls) w Hw) as [[[fields|e] w1] ->].
Qed.
End Total.

Lemma ambient_resolve_total fuel : ∀ c tok w,
  available w < fuel → is_Some (resolve fuel c tok w).
Proof.
  induction fuel as [|fuel' IH]; intros c tok w Hw; [lia|]. simpl.
  destruct (bindings (container_at w c) !! key tok) as [b|] eqn:Hb; [|done].
  destruct (in_flight tok (resolutionStack (container_at w c))) eqn:Hf; [done|].
  pose proof (ambient_available_entered c tok w b Hb Hf) as Ha. unfold entered in Ha.
  assert (Hc : is_Some (createInstance (resolve fuel') tok (implementation b)
                          (update c (push tok) (setContainer c w)))).
  { apply ambient_createInstance_total with (bound := fuel'); [apply ambient_resolve_frame | apply IH | lia]. }
  destruct Hc as [[r3 w3] ->].
  by destruct (lifecycle b), (singletons (container_at w c) !! key tok).
Qed.

Section Mono.
Variables rec1 rec2 : nat → Token → World → option (Completion Value * World).
Hypothesis rec_mono : ∀ c t w x, rec1 c t w = Some x → rec2 c t w = Some x.

Lemma run_ctor_mono body : ∀ w x,
  run_ctor rec1 body w = Some x → run_ctor rec2 body w = Some x.
Proof.
  induction body as [|stmt rest IH]; intros w x; simpl; [done|].
  assert (Hcall : ∀ c t,
    match rec1 c t w with
    | Some (Return v, w') =>
        match run_ctor rec1 rest w' with
        | Some (Return vs, w'') => Some (Return (v :: vs), w'')
        | other => other
        end
    | Some (Throw e, w') => Some (Throw e, w')
    | None => None
    end = Some x →
    match rec2 c t w with
    | Some (Return v, w') =>
        match run_ctor rec2 rest w' with
        | Some (Return vs, w'') => Some (Return (v :: vs), w'')
        | other => other
        end
    | Some (Throw e, w') => Some (Throw e, w')
    | None => None
    end = Some x).
  { intros c t. destruct (rec1 c t w) as [[[v|e] w1]|] eqn:E; [| |done];
      rewrite (rec_mono _ _ _ _ E); [|done].
    destruct (run_ctor rec1 rest w1) as [[[vs|e] w2]|] eqn:E2; [| |done];
      rewrite (IH _ _ E2); done. }
  destruct stmt as [t|c t|e]; [|apply Hcall|done].
  destruct (getContainer w) as [c|e]; [apply Hcall|done].
Qed.

Lemma ambient_createInstance_mono tok cls w x :
  createInstance rec1 tok cls w = Some x → createInstance rec2 tok cls w = Some x.
Proof.
  unfold createInstance.
  destruct (run_ctor rec1 (ctor_body cls) w) as [[[fields|e] w1]|] eqn:E; [| |done];
    rewrite (run_ctor_mono _ _ _ E); done.
Qed.
End Mono.

Lemma ambient_resolve_fuel_mono fuel : ∀ fuel' c tok w x,
  fuel ≤ fuel' → resolve fuel c tok w = Some x → resolve fuel' c tok w = Some x.
Proof.
  induction fuel as [|f IH]; intros [|f'] c tok w x Hle; try done; [lia|]. simpl.
  destruct (bindings (container_at w c) !! key tok) as [b|]; [|done].
  destruct (in_flight tok (resolutionStack (container_at w c))); [done|].
  assert (Hc : ∀ y, createInstance (resolve f) tok (implementation b)
                      (update c (push tok) (setContainer c w)) = Some y →
                    createInstance (resolve f') tok (implementation b)
                      (update c (push tok) (setContainer c w)) = Some y).
  { apply ambient_createInstance_mono. intros c0 t w0 y. apply IH. lia. }
  destruct (createInstance (resolve f) _ _ _) as [y|] eqn:E.
  - rewrite (Hc y eq_refl). done.
  - by destruct (lifecycle b), (singletons (container_at w c) !! key tok).
Qed.

Lemma ambient_resolve_deterministic f1 f2 c tok w x y :
  resolve f1 c tok w = Some x → resolve f2 c tok w = Some y → x = y.
Proof.
  intros H1 H2.
  apply (ambient_resolve_fuel_mono f1 (f1 `max` f2)) in H1; [|lia].
  apply (ambient_resolve_fuel_mono f2 (f1 `max` f2)) in H2; [|lia]. congruence.
Qed.

Lemma ambient_resolve_S fuel c tok w :
  resolve (S fuel) c tok w =
  match bindings (container_at w c) !! key tok with
  | None => Some (Throw (DependencyNotFoundError tok), w)
  | Some binding =>
      if in_flight tok (resolutionStack (container_at w c)) then
        Some (Throw (CircularDependencyError
                       (resolutionStack (container_at w c) ++ [tok])), w)
      else
        match lifecycle binding, singletons (container_at w c) !! key tok with
        | Singleton, Some v => Some (Return v, w)
        | _, _ =>
            match createInstance (resolve fuel) tok (implementation binding)
                    (entered c tok w) with
            | None => None
            | Some (r, w3) => Some (r, settle c tok binding (activeContainer w) r w3)
            end
        end
  end.
Proof.
  simpl. destruct (bindings (container_at w c) !! key tok) as [b|]; [|done].
  destruct (in_flight tok (resolutionStack (container_at w c))); [done|].
  fold (entered c tok w). unfold settle.
  destruct (lifecycle b), (singletons (container_at w c) !! key tok); try done;
    by destruct (createInstance _ _ _ _) as [[[v|e] w3]|].
Qed.

Lemma ambient_resolve_unregistered fuel c tok w :
  bindings (container_at w c) !! key tok = None →
  resolve (S fuel) c tok w = Some (Throw (DependencyNotFoundError tok), w).
Proof. intros Hb. by rewrite ambient_resolve_S, Hb. Qed.

(** On a path that constructs, [resolve] hands back whatever
    [createInstance] ended with. *)
Lemma resolve_constructs fuel c tok w b r w3 :
  bindings (container_at w c) !! key tok = Some b →
  in_flight tok (resolutionStack (container_at w c)) = false →
  (lifecycle b = Singleton → singletons (container_at w c) !! key tok = None) →
  createInstance (resolve fuel) tok (implementation b) (entered c tok w) = Some (r, w3) →
  resolve (S fuel) c tok w = Some (r, settle c tok b (activeContainer w) r w3).
Proof.
  intros Hb Hf Hn Hc. rewrite ambient_resolve_S, Hb, Hf, Hc.
  destruct (lifecycle b); [by rewrite Hn|done].
Qed.

Lemma container_at_entered c tok w b :
  bindings (container_at w c) !! key tok = Some b →
  container_at (entered c tok w) c = push tok (container_at w c).
Proof.
  intros Hb. apply bound_in_range in Hb.
  unfold entered, update, container_at at 1. simpl.
  rewrite list_lookup_insert_eq; [done|]. by eapply lookup_lt_Some.
Qed.

(** ** The active container *)

Section Directed.
Variable rec : nat → Token → World → option (Completion Value * World).
Hypothesis rec_frame : ∀ c t w r w', rec c t w = Some (r, w') → frame w w'.

(** While container [c] is the active one, a constructor's [get(token)]
    is [c.resolve(token)], from its first statement to its last. *)
Lemma run_ctor_directed c body : ∀ w,
  activeContainer w = Some c →
  run_ctor rec body w = run_ctor rec (direct c <$> body) w.
Proof.
  induction body as [|stmt rest IH]; intros w Ha; [done|].
  assert (Hcall : ∀ c' t,
    match rec c' t w with
    | Some (Return v, w') =>
        match run_ctor rec rest w' with
        | Some (Return vs, w'') => Some (Return (v :: vs), w'')
        | other => other
        end
    | Some (Throw e, w') => Some (Throw e, w')
    | None => None
    end =
    match rec c' t w with
    | Some (Return v, w') =>
        match run_ctor rec (direct c <$> rest) w' with
        | Some (Return vs, w'') => Some (Return (v :: vs), w'')
        | other => other
        end
    | Some (Throw e, w') => Some (Throw e, w')
    | None => None
    end).
  { intros c' t. destruct (rec c' t w) as [[[v|e] w1]|] eqn:E; [|done..].
    apply rec_frame in E. by rewrite (IH w1 (frame_active _ _ E c Ha)). }
  destruct stmt as [t|c' t|e]; simpl; [|apply Hcall|done].
  unfold getContainer. rewrite Ha. apply Hcall.
Qed.

Lemma createInstance_directed c tok cls w :
  activeContainer w = Some c →
  createInstance rec tok cls w = createInstance rec tok (directed c cls) w.
Proof.
  intros Ha. unfold createInstance, directed. simpl.
  by rewrite (run_ctor_directed c (ctor_body cls) w Ha).
Qed.
End Directed.

(** C10, amended.  With no container active, a [resolve] on [c] of a token
    that [c] binds (and that is neither in flight nor cached) comes back
    with [c] installed as the active container, whether the construction
    succeeded or failed; a [resolve] of a token that [c] does not bind
    fails with [DependencyNotFound] before anything is installed, and
    [getContainer()] fails afterwards as it did before. *)
Theorem resolve_installs_container fuel c tok w :
  activeContainer w = None →
  available w < fuel →
  (∀ b, bindings (container_at w c) !! key tok = Some b →
        in_flight tok (resolutionStack (container_at w c)) = false →
        (lifecycle b = Singleton → singletons (container_at w c) !! key tok = None) →
        ∃ r w', resolve fuel c tok w = Some (r, w') ∧ getContainer w' = Return c) ∧
  (bindings (container_at w c) !! key tok = None →
   resolve fuel c tok w = Some (Throw (DependencyNotFoundError tok), w) ∧
   getContainer w = Throw NoActiveContainerError).
Proof.
  intros Ha Hfuel. split.
  - intros b Hb Hf Hn.
    destruct (ambient_resolve_total fuel c tok w Hfuel) as [[r w'] Hr].
    exists r, w'. split; [done|].
    apply ambient_resolve_cases in Hr as Hcase.
    destruct Hcase as [Hb' | b' Hb' Hf' | b' v Hb' Hf' Hl Hs | b' f r w3 -> Hb' Hf' Hn' Hc];
      try congruence.
    + assert (b' = b) as -> by congruence. rewrite (Hn Hl) in Hs; done.
    + apply (createInstance_frame _ (ambient_resolve_frame f)) in Hc as [_ _ A3].
      specialize (A3 c eq_refl). unfold getContainer, settle. rewrite Ha.
      destruct r, (lifecycle b'); simpl; by rewrite A3.
  - intros Hb. destruct fuel as [|fuel]; [lia|].
    split; [by apply ambient_resolve_unregistered|]. unfold getContainer. by rewrite Ha.
Qed.

Lemma resolve_installs_container_witness :
  (∃ r w', resolve 5 0 Example.Audit Example.production = Some (r, w') ∧
           getContainer w' = Return 0) ∧
  resolve 5 0 Example.Unregistered Example.production
    = Some (Throw (DependencyNotFoundError Example.Unregistered), Example.production) ∧
  getContainer Example.production = Throw NoActiveContainerError.
Proof.
  destruct (resolve_installs_container 5 0 Example.Audit Example.production)
    as [Hbound _]; [reflexivity | vm_compute; lia |].
  destruct (resolve_installs_container 5 0 Example.Unregistered Example.production)
    as [_ Hunbound]; [reflexivity | vm_compute; lia |].
  split.
  - apply (Hbound {| implementation := Example.AuditTrail; lifecycle := Transient;
                     token := Example.Audit |}); [vm_compute; reflexivity | reflexivity | done].
  - apply Hunbound. vm_compute; reflexivity.
Defined.

(** C10 as worded fails for a token that the container does not bind: the
    call fails before [setContainer(this)] and no container is active
    afterwards. *)
Lemma stays_installed_counterexample :
  ¬ stays_installed Example.production 0 Example.Unregistered.
Proof.
  intros Hclaim.
  specialize (Hclaim eq_refl 1 (Throw (DependencyNotFoundError Example.Unregistered))
                Example.production eq_refl).
  discriminate Hclaim.
Qed.

(** ** Failures inside a constructor *)

(** Whatever a [get] of the constructor throws comes out of
    [createInstance] as an [InvalidConstructorError] of the class under
    construction. *)
Lemma createInstance_first_get_throws rec tok cls w c t rest e w' :
  ctor_body cls = Get t :: rest →
  activeContainer w = Some c →
  rec c t w = Some (Throw e, w') →
  createInstance rec tok cls w =
    Some (Throw (InvalidConstructorError tok
                   ("Failed to instantiate: " +:+ cause_text e)), w').
Proof.
  intros Hbody Ha Hr. unfold createInstance. rewrite Hbody. simpl.
  unfold getContainer. by rewrite Ha, Hr.
Qed.

(** C8. In the ambient container the class bound to [A] asks for [B] with
    [get(B)] in its constructor.  With [B] not registered, the
    [DependencyNotFound] for [B] is caught by [createInstance] of [A], and
    [resolve(A)] fails with [InvalidConstructor] for [A], whose message
    carries the labels of both tokens. *)
Theorem missing_dependency_is_rewrapped fuel c A B w bA rest :
  bindings (container_at w c) !! key A = Some bA →
  ctor_body (implementation bA) = Get B :: rest →
  bindings (container_at w c) !! key B = None →
  in_flight A (resolutionStack (container_at w c)) = false →
  (lifecycle bA = Singleton → singletons (container_at w c) !! key A = None) →
  ∃ w',
    resolve (S (S fuel)) c A w =
      Some (Throw (InvalidConstructorError A
                     ("Failed to instantiate: " +:+
                      cause_text (DependencyNotFoundError B))), w') ∧
    heap w' = heap w ∧
    error_message (InvalidConstructorError A
                     ("Failed to instantiate: " +:+
                      cause_text (DependencyNotFoundError B))) =
      Some ("Invalid constructor for " +:+ description A +:+
            ": Failed to instantiate: Dependency not found: " +:+ description B +:+
            " (" +:+ symbol_toString (symbol B) +:+ ")").
Proof.
  intros HbA Hbody HbB Hf Hn.
  assert (Hc : createInstance (resolve (S fuel)) A (implementation bA) (entered c A w) =
               Some (Throw (InvalidConstructorError A
                              ("Failed to instantiate: " +:+
                               cause_text (DependencyNotFoundError B))),
                     entered c A w)).
  { apply createInstance_first_get_throws with (c := c) (t := B) (rest := rest);
      [done | done |].
    apply ambient_resolve_unregistered.
    rewrite (container_at_entered _ _ _ _ HbA). exact HbB. }
  eexists. split; [by apply resolve_constructs|]. split; [|done].
  unfold settle. by destruct (activeContainer w).
Qed.

Lemma missing_dependency_is_rewrapped_witness :
  ∃ w',
    resolve 2 0 Example.Audit Example.production =
      Some (Throw (InvalidConstructorError Example.Audit
                     "Failed to instantiate: Dependency not found: UnregisteredService (Symbol(UnregisteredService))"),
            w') ∧
    heap w' = heap Example.production ∧
    error_message (InvalidConstructorError Example.Audit
                     "Failed to instantiate: Dependency not found: UnregisteredService (Symbol(UnregisteredService))") =
      Some "Invalid constructor for Audit: Failed to instantiate: Dependency not found: UnregisteredService (Symbol(UnregisteredService))".
Proof.
  refine (missing_dependency_is_rewrapped 0 0 Example.Audit Example.Unregistered
            Example.production
            {| implementation := Example.AuditTrail; lifecycle := Transient;
               token := Example.Audit |} [] _ _ _ _ _);
    first [ vm_compute; reflexivity | done ].
Defined.


End AmbientFacts.

(** * The in-flight path *)

(** C4. In both containers a [resolve] comes back, with a value or with a
    failure, and leaves the in-flight path as it found it: the token that
    it appended is removed again, also when the construction failed.  The
    bindings are untouched, so the cycle check of the next call sees what
    it would have seen without the earlier call; and after any sequence of
    top-level calls on a container, failed or not, the path is empty. *)
Theorem resolve_restores_path :
  (∀ fuel tok s,
     Inject.available s < fuel →
     ∃ r s', Inject.resolve fuel tok s = Some (r, s') ∧
       Inject.resolutionStack (Inject.this s') = Inject.resolutionStack (Inject.this s) ∧
       Inject.bindings (Inject.this s') = Inject.bindings (Inject.this s)) ∧
  (∀ ops s s',
     Inject.resolutionStack (Inject.this s) = [] →
     Inject.run ops s = Some s' →
     Inject.resolutionStack (Inject.this s') = []) ∧
  (∀ fuel c tok w,
     Ambient.available w < fuel →
     ∃ r w', Ambient.resolve fuel c tok w = Some (r, w') ∧
       ∀ c', Ambient.resolutionStack (Ambient.container_at w' c') =
             Ambient.resolutionStack (Ambient.container_at w c') ∧
             Ambient.bindings (Ambient.container_at w' c') =
             Ambient.bindings (Ambient.container_at w c')).
Proof.
  split; [|split].
  - intros fuel tok s Hfuel.
    destruct (InjectFacts.resolve_total fuel tok s Hfuel) as [[r s'] Hr].
    exists r, s'. split; [done|].
    apply InjectFacts.resolve_frame in Hr as [Fb Fs _ _ _ _]. done.
  - intros ops s s'. apply InjectFacts.run_path_empty.
  - intros fuel c tok w Hfuel.
    destruct (AmbientFacts.ambient_resolve_total fuel c tok w Hfuel) as [[r w'] Hr].
    exists r, w'. split; [done|]. intros c'.
    apply AmbientFacts.ambient_resolve_frame in Hr as [Fs _ _].
    pose proof (AmbientFacts.shape_at _ _ c' Fs) as Hat.
    unfold Ambient.shape in Hat. by injection Hat as -> -> _.
Qed.

Lemma resolve_restores_path_witness :
  (let s := Inject.Example.fresh
              [(Inject.Example.Logger, Inject.Example.ConsoleLogger);
               (Inject.Example.UserService, Inject.Example.UserServiceImpl)] in
   Inject.resolutionStack (Inject.this s) = [] ∧
   ∃ r s', Inject.resolve 3 Inject.Example.UserService s = Some (r, s') ∧
     Inject.resolutionStack (Inject.this s') = Inject.resolutionStack (Inject.this s) ∧
     Inject.bindings (Inject.this s') = Inject.bindings (Inject.this s)) ∧
  Inject.resolutionStack
    (Inject.this
       (Inject.Example.after
          [Inject.Resolve 3 Inject.Example.UserService;
           Inject.Resolve 1 Inject.Example.Logger]
          (Inject.Example.fresh
             [(Inject.Example.Logger, Inject.Example.ConsoleLogger);
              (Inject.Example.UserService, Inject.Example.UserServiceImpl)]))) = [] ∧
  (let w := Ambient.Example.production in
   ∃ r w', Ambient.resolve 5 0 Ambient.Example.Audit w = Some (r, w') ∧
     ∀ c', Ambient.resolutionStack (Ambient.container_at w' c') =
           Ambient.resolutionStack (Ambient.container_at w c') ∧
           Ambient.bindings (Ambient.container_at w' c') =
           Ambient.bindings (Ambient.container_at w c')).
Proof.
  split; [|split].
  - split; [reflexivity|].
    apply (proj1 resolve_restores_path). vm_compute. lia.
  - eapply (proj1 (proj2 resolve_restores_path)
              [Inject.Resolve 3 Inject.Example.UserService;
               Inject.Resolve 1 Inject.Example.Logger]
              (Inject.Example.fresh
                 [(Inject.Example.Logger, Inject.Example.ConsoleLogger);
                  (Inject.Example.UserService, Inject.Example.UserServiceImpl)]));
      vm_compute; reflexivity.
  - apply (proj2 (proj2 resolve_restores_path)). vm_compute. lia.
Defined.

(** * Further properties *)

Module DecoratorFacts.
Import Decorators.

(** ** Writing into the token array *)

Lemma array_set_lookup_eq index x array : array_set index x array !! index = Some x.
Proof.
  revert array. induction index as [|i IH]; intros [|y rest]; simpl; auto.
Qed.

Lemma array_set_lookup_ne index x array j :
  j ≠ index →
  array_set index x array !! j =
    if decide (j < length array) then array !! j
    else if decide (j < index) then Some Inject.Hole else None.
Proof.
  revert array j. induction index as [|i IH]; intros [|y rest] [|j] Hne; simpl; try done;
    try (rewrite IH by lia; simpl); repeat case_decide; try lia; try done.
  apply lookup_ge_None. lia.
Qed.

Lemma array_set_elem index x array y :
  y ∈ array_set index x array → y = x ∨ y = Inject.Hole ∨ y ∈ array.
Proof.
  revert array. induction index as [|i IH]; intros [|z rest]; simpl.
  - rewrite list_elem_of_singleton. auto.
  - rewrite !elem_of_cons. naive_solver.
  - rewrite elem_of_cons. intros [->|H]; [auto|]. apply IH in H. naive_solver.
  - rewrite !elem_of_cons. intros [->|H]; [auto|]. apply IH in H. naive_solver.
Qed.

(** ** The prototype chain *)

Lemma Target_chain_ind (P : Target → Prop) :
  (∀ id name ctor, P (mkTarget id name ctor None)) →
  (∀ id name ctor parent, P parent → P (mkTarget id name ctor (Some parent))) →
  ∀ target, P target.
Proof.
  intros Hbase Hstep. fix IH 1. intros [id name ctor [parent|]].
  - apply Hstep, IH.
  - apply Hbase.
Qed.

Lemma getMetadata_nearest {A} (own : gmap nat A) target :
  getMetadata own target = nearest (fun id => own !! id) (chain target).
Proof.
  induction target as [id name ctor|id name ctor parent IH] using Target_chain_ind; simpl.
  - by destruct (own !! id).
  - rewrite IH. by destruct (own !! id).
Qed.

Lemma getMetadata_own {A} (own : gmap nat A) target v :
  getMetadata own target = Some v → ∃ id, id ∈ chain target ∧ own !! id = Some v.
Proof.
  induction target as [id name ctor|id name ctor parent IH] using Target_chain_ind; simpl.
  - destruct (own !! id) eqn:E; [|done]. intros [= <-]. exists id.
    split; [apply list_elem_of_here | done].
  - destruct (own !! id) eqn:E.
    + intros [= <-]. exists id. split; [apply list_elem_of_here | done].
    + intros H. destruct (IH H) as (i & Hi & Ho). exists i.
      split; [by apply list_elem_of_further | done].
Qed.

(** A class that gets the own entry that it found anyway is found where
    it was, by itself and by every other class. *)
Lemma getMetadata_insert_found {A} (own : gmap nat A) i v target :
  getMetadata own target = Some v →
  getMetadata (<[i := v]> own) target = Some v.
Proof.
  induction target as [id name ctor|id name ctor parent IH] using Target_chain_ind; simpl.
  - destruct (decide (id = i)) as [->|Hne].
    + by rewrite lookup_insert_eq.
    + rewrite lookup_insert_ne by done. by destruct (own !! id).
  - destruct (decide (id = i)) as [->|Hne].
    + by rewrite lookup_insert_eq.
    + rewrite lookup_insert_ne by done. destruct (own !! id); [done|]. apply IH.
Qed.

Lemma getMetadata_insert_self {A} (own : gmap nat A) v target :
  getMetadata (<[target_id target := v]> own) target = Some v.
Proof. destruct target as [id name ctor proto]. simpl. by rewrite lookup_insert_eq. Qed.

(** ** What a history of decorator calls leaves *)

Lemma decorate_snoc calls call m :
  decorate (calls ++ [call]) m = apply_decorator call.1 call.2 (decorate calls m).
Proof. unfold decorate. by rewrite foldl_snoc. Qed.

Lemma injectable_key_decorate calls id :
  injectable_key (decorate calls empty_metadata) !! id =
    if class_decorated calls id then Some true else None.
Proof.
  induction calls as [|[d target] calls IH] using rev_ind; [done|].
  rewrite decorate_snoc. unfold class_decorated. rewrite existsb_app. simpl.
  rewrite orb_false_r. fold (class_decorated calls id).
  set (m := decorate calls empty_metadata) in *.
  assert (Hins : (<[target_id target := true]> (injectable_key m)) !! id =
                 if class_decorated calls id || Nat.eqb (target_id target) id
                 then Some true else None).
  { destruct (Nat.eqb_spec (target_id target) id) as [->|Hne].
    - rewrite lookup_insert_eq. by rewrite orb_true_r.
    - rewrite lookup_insert_ne by done. by rewrite orb_false_r. }
  destruct d as [| | |tok index]; simpl; try exact Hins.
  rewrite orb_false_r. unfold setInjectToken.
  by destruct (getMetadata (inject_tokens_key m) target).
Qed.

Lemma lifecycle_key_decorate calls id :
  lifecycle_key (decorate calls empty_metadata) !! id = own_lifecycle calls id.
Proof.
  unfold own_lifecycle.
  induction calls as [|[d target] calls IH] using rev_ind; [done|].
  rewrite decorate_snoc, foldl_snoc. simpl.
  set (m := decorate calls empty_metadata) in *.
  destruct d as [| | |tok index]; simpl.
  - rewrite IH. by destruct (Nat.eqb (target_id target) id).
  - destruct (Nat.eqb_spec (target_id target) id) as [->|Hne].
    + by rewrite lookup_insert_eq.
    + by rewrite lookup_insert_ne.
  - destruct (Nat.eqb_spec (target_id target) id) as [->|Hne].
    + by rewrite lookup_insert_eq.
    + by rewrite lookup_insert_ne.
  - unfold setInjectToken.
    destruct (getMetadata (inject_tokens_key m) target); simpl; rewrite IH;
      by destruct (Nat.eqb (target_id target) id).
Qed.

Lemma isInjectable_decorate calls target :
  isInjectable (decorate calls empty_metadata) target =
    existsb (class_decorated calls) (chain target).
Proof.
  unfold isInjectable. rewrite getMetadata_nearest.
  induction (chain target) as [|id ids IH]; simpl; [done|].
  rewrite injectable_key_decorate.
  destruct (class_decorated calls id); [done | exact IH].
Qed.

Lemma getLifecycle_decorate calls target :
  getLifecycle (decorate calls empty_metadata) target =
    nearest (own_lifecycle calls) (chain target).
Proof.
  unfold getLifecycle. rewrite getMetadata_nearest.
  induction (chain target) as [|id ids IH]; simpl; [done|].
  rewrite lifecycle_key_decorate. by rewrite IH.
Qed.

Lemma register_class_of tok m target c :
  if isInjectable m target then
    ∃ c', Inject.register tok (Inject.Ctor (class_of m target)) c = (Return tt, c') ∧
      Inject.lifecycle <$> Inject.bindings c' !! Inject.key tok =
        Some (default Transient (getLifecycle m target)) ∧
      Inject.isRegistered tok c' = true ∧
      Inject.singletons c' = Inject.singletons c ∧
      ∀ t, Inject.key t ≠ Inject.key tok →
           Inject.isRegistered t c' = Inject.isRegistered t c
  else
    Inject.register tok (Inject.Ctor (class_of m target)) c =
      (Throw (NotInjectableError (target_name target)), c).
Proof.
  unfold Inject.register, Inject.isInjectable, Inject.getLifecycle. simpl.
  destruct (isInjectable m target); simpl; [|done].
  eexists. split; [done|]. simpl. split; [by rewrite lookup_insert_eq|]. split.
  - unfold Inject.isRegistered. simpl. rewrite lookup_insert_eq.
    by apply bool_decide_eq_true.
  - split; [done|]. intros t Hne. unfold Inject.isRegistered. simpl.
    by rewrite lookup_insert_ne.
Qed.

(** X1. [register] reads the metadata through the prototype chain: it
    accepts a class exactly when [@injectable()], [@singleton()] or
    [@transient()] was called on the class or on a class that it extends,
    and refuses it otherwise with [NotInjectable] naming the class, the
    container as before.  The binding gets the lifecycle set last on the
    nearest class of the chain that has one, [Transient] if none has;
    the cache is kept and [isRegistered] changes for this token only. *)
Theorem register_decorated tok calls target c :
  let m := decorate calls empty_metadata in
  if existsb (class_decorated calls) (chain target) then
    ∃ c', Inject.register tok (Inject.Ctor (class_of m target)) c = (Return tt, c') ∧
      Inject.lifecycle <$> Inject.bindings c' !! Inject.key tok =
        Some (default Transient (nearest (own_lifecycle calls) (chain target))) ∧
      Inject.isRegistered tok c' = true ∧
      Inject.singletons c' = Inject.singletons c ∧
      ∀ t, Inject.key t ≠ Inject.key tok →
           Inject.isRegistered t c' = Inject.isRegistered t c
  else
    Inject.register tok (Inject.Ctor (class_of m target)) c =
      (Throw (NotInjectableError (target_name target)), c).
Proof.
  intros m. pose proof (register_class_of tok m target c) as H.
  unfold m in *. rewrite isInjectable_decorate, getLifecycle_decorate in H. exact H.
Qed.

Lemma register_decorated_witness :
  let Parent := mkTarget 0 "BaseRepository" (fun _ => None) None in
  let Child := mkTarget 1 "UserRepository" (fun _ => None) (Some Parent) in
  let m := decorate [(singleton, Parent)] empty_metadata in
  (∃ c', Inject.register Inject.Example.Database (Inject.Ctor (class_of m Child))
           Inject.empty_container = (Return tt, c') ∧
     Inject.lifecycle <$> Inject.bindings c' !! Inject.key Inject.Example.Database
       = Some Singleton ∧
     Inject.isRegistered Inject.Example.Logger c' = false) ∧
  Inject.register Inject.Example.Database
    (Inject.Ctor (class_of (decorate [(inject (Some Inject.Example.Logger) 0, Child)]
                              empty_metadata) Child)) Inject.empty_container
    = (Throw (NotInjectableError "UserRepository"), Inject.empty_container).
Proof.
  intros Parent Child m. split.
  - destruct (register_decorated Inject.Example.Database [(singleton, Parent)] Child
                Inject.empty_container) as (c' & Hr & Hb & _ & _ & Hother).
    exists c'. split; [exact Hr|]. split; [exact Hb|].
    rewrite (Hother Inject.Example.Logger); [reflexivity | vm_compute; lia].
  - exact (register_decorated Inject.Example.Database
             [(inject (Some Inject.Example.Logger) 0, Child)] Child
             Inject.empty_container).
Defined.

Lemma own_lifecycle_app calls later id :
  Forall (fun call => target_id call.2 = id →
                      call.1 ≠ singleton ∧ call.1 ≠ transient) later →
  own_lifecycle (calls ++ later) id = own_lifecycle calls id.
Proof.
  intros Hlater. unfold own_lifecycle. rewrite foldl_app.
  generalize (foldl (fun acc call =>
                       if Nat.eqb (target_id call.2) id then
                         match call.1 with
                         | singleton => Some Singleton
                         | transient => Some Transient
                         | _ => acc
                         end
                       else acc) None calls).
  induction Hlater as [|[d u] later Hcall _ IH]; intros start; [done|].
  simpl. rewrite IH. destruct (Nat.eqb_spec (target_id u) id) as [Heq|]; [|done].
  destruct (Hcall Heq) as [Hs Ht]. simpl in *. by destruct d.
Qed.

Lemma own_lifecycle_snoc calls d u id :
  own_lifecycle (calls ++ [(d, u)]) id =
    if Nat.eqb (target_id u) id then
      match d with
      | singleton => Some Singleton
      | transient => Some Transient
      | _ => own_lifecycle calls id
      end
    else own_lifecycle calls id.
Proof. unfold own_lifecycle. by rewrite foldl_snoc. Qed.

(** X2. The lifecycle of a class is the one that the lifecycle decorator
    called last on the class itself has set, whatever the classes it
    extends have; [@injectable()] and [@inject] calls after it do not
    reset it.  A class on which no lifecycle decorator was called has the
    lifecycle of the class it extends: a subclass with [@injectable()]
    only of a [@singleton()] class is a singleton. *)
Theorem last_lifecycle_decorator_wins earlier later target :
  Forall (fun call => target_id call.2 = target_id target →
                      call.1 ≠ singleton ∧ call.1 ≠ transient) later →
  getLifecycle (decorate (earlier ++ (singleton, target) :: later) empty_metadata) target
    = Some Singleton ∧
  getLifecycle (decorate (earlier ++ (transient, target) :: later) empty_metadata) target
    = Some Transient ∧
  ∀ calls id name ctor,
    own_lifecycle calls id = None →
    getLifecycle (decorate calls empty_metadata) (mkTarget id name ctor (Some target))
    = getLifecycle (decorate calls empty_metadata) target.
Proof.
  intros Hlater.
  assert (Hown : ∀ d, d = singleton ∨ d = transient →
    own_lifecycle (earlier ++ (d, target) :: later) (target_id target) =
      Some (match d with singleton => Singleton | _ => Transient end)).
  { intros d Hd.
    replace (earlier ++ (d, target) :: later) with ((earlier ++ [(d, target)]) ++ later)
      by by rewrite <- app_assoc.
    rewrite own_lifecycle_app by done. rewrite own_lifecycle_snoc, Nat.eqb_refl.
    by destruct Hd as [-> | ->]. }
  split; [|split].
  - rewrite getLifecycle_decorate. destruct target as [id name ctor proto]. simpl in *.
    by rewrite (Hown singleton (or_introl eq_refl)).
  - rewrite getLifecycle_decorate. destruct target as [id name ctor proto]. simpl in *.
    by rewrite (Hown transient (or_intror eq_refl)).
  - intros calls id name ctor Hnone. rewrite !getLifecycle_decorate. simpl.
    by rewrite Hnone.
Qed.

Lemma last_lifecycle_decorator_wins_witness :
  let Parent := mkTarget 0 "BaseCache" (fun _ => None) None in
  let Child := mkTarget 1 "UserCache" (fun _ => None) (Some Parent) in
  getLifecycle (decorate [(transient, Parent); (singleton, Parent); (injectable, Child)]
                  empty_metadata) Parent = Some Singleton ∧
  getLifecycle (decorate [(transient, Parent); (singleton, Parent); (injectable, Child)]
                  empty_metadata) Child = Some Singleton.
Proof.
  intros Parent Child.
  destruct (last_lifecycle_decorator_wins [(transient, Parent)] [(injectable, Child)]
              Parent) as (Hs & _ & Hsub);
    [repeat constructor; simpl; intros; discriminate|].
  split; [exact Hs|].
  rewrite <- Hs.
  apply (Hsub [(transient, Parent); (singleton, Parent); (injectable, Child)]
           1 "UserCache" (fun _ => None)).
  reflexivity.
Defined.

(** ** The token array *)

Lemma refs_valid_found m target ref :
  refs_valid m → getMetadata (inject_tokens_key m) target = Some ref →
  ref < length (arrays m).
Proof.
  intros Hv H. apply getMetadata_own in H as (id & _ & Ho). by eapply Hv.
Qed.

Lemma setInjectToken_tokens m target index tok :
  refs_valid m →
  getInjectTokens (setInjectToken target index tok m) target =
    Some (array_set index (stored tok) (default [] (getInjectTokens m target))).
Proof.
  intros Hv. unfold getInjectTokens, setInjectToken.
  destruct (getMetadata (inject_tokens_key m) target) as [ref|] eqn:E; simpl.
  - rewrite getMetadata_insert_self.
    pose proof (refs_valid_found _ _ _ Hv E) as Hlt.
    rewrite list_lookup_alter.
    destruct (lookup_lt_is_Some_2 _ _ Hlt) as [old Hold]. rewrite Hold.
    by rewrite decide_True.
  - rewrite getMetadata_insert_self.
    by rewrite lookup_app_r, Nat.sub_diag.
Qed.

(** X3. [@inject(token)] on parameter [parameterIndex] of a class writes
    into the array that [getInjectTokens] finds for the class, in place,
    and makes it the class's own: when the array was found on a class that
    this one extends, that class and every other class that had the same
    array have the rewritten array afterwards.  Without an array a new one
    is made, and a class that extends this one and has no own array has
    this one's.  The written slot holds the value given, [undefined]
    included; slots below it that were never written are empty, the
    others are as they were. *)
Theorem inject_tokens_are_shared m target index tok :
  refs_valid m →
  let m' := apply_decorator (inject tok index) target m in
  let old := default [] (getInjectTokens m target) in
  let new := array_set index (stored tok) old in
  refs_valid m' ∧
  getInjectTokens m' target = Some new ∧
  new !! index = Some (stored tok) ∧
  (∀ j, j ≠ index →
        new !! j = if decide (j < length old) then old !! j
                   else if decide (j < index) then Some Inject.Hole else None) ∧
  (Inject.Undef ∈ new → tok = None ∨ Inject.Undef ∈ old) ∧
  (∀ other ref,
     getMetadata (inject_tokens_key m) target = Some ref →
     getMetadata (inject_tokens_key m) other = Some ref →
     getInjectTokens m' other = Some new) ∧
  (∀ id name ctor,
     inject_tokens_key m' !! id = None →
     getInjectTokens m' (mkTarget id name ctor (Some target)) = Some new).
Proof.
  intros Hv m' old new.
  assert (Htok : getInjectTokens m' target = Some new)
    by (by apply setInjectToken_tokens).
  split; [|split; [exact Htok|split; [apply array_set_lookup_eq|split;
    [intros j Hj; by apply array_set_lookup_ne|split; [|split]]]]].
  - unfold m'. simpl. unfold setInjectToken.
    destruct (getMetadata (inject_tokens_key m) target) as [ref|] eqn:E;
      intros id r; simpl.
    + rewrite length_alter. destruct (decide (id = target_id target)) as [->|Hne].
      * rewrite lookup_insert_eq. intros [= <-]. by eapply refs_valid_found.
      * rewrite lookup_insert_ne by done. apply Hv.
    + rewrite length_app. simpl. destruct (decide (id = target_id target)) as [->|Hne].
      * rewrite lookup_insert_eq. intros [= <-]. lia.
      * rewrite lookup_insert_ne by done. intros H. apply Hv in H. lia.
  - intros Hin. apply array_set_elem in Hin as [Hs|[Hh|Ho]]; [|done|by right].
    left. destruct tok; [discriminate Hs | done].
  - intros other ref Ht Ho. unfold new, old, m'. simpl.
    unfold getInjectTokens, setInjectToken. rewrite Ht. simpl.
    rewrite (getMetadata_insert_found _ _ _ _ Ho).
    pose proof (refs_valid_found _ _ _ Hv Ht) as Hlt.
    rewrite list_lookup_alter.
    destruct (lookup_lt_is_Some_2 _ _ Hlt) as [arr Harr]. rewrite Harr.
    by rewrite decide_True.
  - intros id name ctor Hnone. rewrite <- Htok.
    unfold getInjectTokens. simpl. by rewrite Hnone.
Qed.

Lemma inject_tokens_are_shared_witness :
  let Parent := mkTarget 0 "BaseService" (fun _ => None) None in
  let Child := mkTarget 1 "UserService" (fun _ => None) (Some Parent) in
  let m := decorate [(inject (Some Inject.Example.Logger) 0, Parent)] empty_metadata in
  let m' := apply_decorator (inject (Some Inject.Example.Database) 0) Child m in
  getInjectTokens m Child = Some [Inject.Tok Inject.Example.Logger] ∧
  getInjectTokens m' Child = Some [Inject.Tok Inject.Example.Database] ∧
  getInjectTokens m' Parent = Some [Inject.Tok Inject.Example.Database].
Proof.
  intros Parent Child m m'.
  destruct (inject_tokens_are_shared empty_metadata Parent 0 (Some Inject.Example.Logger))
    as (Hvalid & _); [intros id ref H; simpl in H; by rewrite lookup_empty in H|].
  destruct (inject_tokens_are_shared m Child 0 (Some Inject.Example.Database) Hvalid)
    as (_ & Hc & _ & _ & _ & Hshared & _).
  split; [reflexivity|]. split; [exact Hc|].
  apply (Hshared Parent 0); reflexivity.
Defined.

End DecoratorFacts.

Module InjectMoreFacts.
Import Inject InjectFacts InjectMore.

Section ArgumentsOf.
Variable rec : Token → State → option (Completion Value * State).
Hypothesis rec_post : ∀ t s r s', rec t s = Some (r, s') → post s r s'.

Lemma argument_of_frame s0 s s' s1 slot v :
  frame s0 s → frame s' s1 → argument_of rec s s' slot v → argument_of rec s0 s1 slot v.
Proof.
  intros F0 F1. destruct slot as [| |dep]; simpl; try done.
  intros (sa & sb & Fa & Hr & Fb). exists sa, sb.
  split; [by eapply frame_trans|]. split; [done|]. by eapply frame_trans.
Qed.

Lemma resolveDeps_arguments tok slots : ∀ s args s',
  resolveDeps rec tok slots s = Some (Return args, s') →
  Forall2 (argument_of rec s s') slots args.
Proof.
  induction slots as [|slot rest IH]; intros s args s' H; simpl in H.
  - simplify_eq. constructor.
  - destruct slot as [| |dep]; [| done |].
    + destruct (resolveDeps rec tok rest s) as [[[vs|e] s1]|] eqn:E; simplify_eq.
      constructor; [done|]. by apply IH.
    + destruct (bindings (this s) !! key dep); [|done].
      destruct (rec dep s) as [[[v|e] s1]|] eqn:E; simplify_eq.
      destruct (resolveDeps rec tok rest s1) as [[[vs|e] s2]|] eqn:E2; simplify_eq.
      pose proof (proj1 (rec_post _ _ _ _ E)) as F1.
      pose proof (proj1 (resolveDeps_post _ rec_post _ _ _ _ _ E2)) as F2.
      constructor.
      * exists s, s1. split; [apply frame_refl|]. by split.
      * eapply Forall2_impl; [by apply IH|].
        intros slot v'. apply argument_of_frame; [done | apply frame_refl].
Qed.

(** Where a failure of [resolveDeps] comes from. *)
Lemma resolveDeps_failure tok slots : ∀ s e s',
  resolveDeps rec tok slots s = Some (Throw e, s') →
  (Undef ∈ slots ∧
   e = InvalidConstructorError tok "Missing @inject decorator for constructor parameter") ∨
  (∃ dep, Tok dep ∈ slots ∧ e = DependencyNotFoundError dep ∧
          bindings (this s) !! key dep = None) ∨
  (∃ dep sa, Tok dep ∈ slots ∧ frame s sa ∧ rec dep sa = Some (Throw e, s')).
Proof.
  induction slots as [|slot rest IH]; intros s e s' H; simpl in H; [done|].
  destruct slot as [| |dep].
  - destruct (resolveDeps rec tok rest s) as [[[vs|e0] s1]|] eqn:E; simplify_eq.
    destruct (IH _ _ _ E) as [[? ?]|[(d & ? & ? & ?)|(d & sa & ? & ? & ?)]].
    + left. split; [by apply list_elem_of_further | done].
    + right; left. exists d. split; [by apply list_elem_of_further | done].
    + right; right. exists d, sa. split; [by apply list_elem_of_further | done].
  - simplify_eq. left. split; [apply list_elem_of_here | done].
  - destruct (bindings (this s) !! key dep) eqn:Hb.
    2:{ simplify_eq. right; left. exists dep. split; [apply list_elem_of_here | done]. }
    destruct (rec dep s) as [[[v|e0] s1]|] eqn:E; simplify_eq.
    + destruct (resolveDeps rec tok rest s1) as [[[vs|e0] s2]|] eqn:E2; simplify_eq.
      pose proof (proj1 (rec_post _ _ _ _ E)) as F1.
      destruct (IH _ _ _ E2) as [[? ?]|[(d & ? & ? & Hd)|(d & sa & ? & ? & ?)]].
      * left. split; [by apply list_elem_of_further | done].
      * right; left. exists d. split; [by apply list_elem_of_further|]. split; [done|].
        by rewrite <- (frame_bindings _ _ F1).
      * right; right. exists d, sa. split; [by apply list_elem_of_further|].
        split; [by eapply frame_trans | done].
    + right; right. exists dep, s. split; [apply list_elem_of_here|].
      split; [apply frame_refl | done].
Qed.

(** [createInstance] resolves the slots of the class and constructs with
    the arguments obtained. *)
Lemma createInstance_Return tok cls s v s' :
  createInstance rec tok cls s = Some (Return v, s') →
  ∃ args s1,
    resolveDeps rec tok (default [] (getInjectTokens cls)) s = Some (Return args, s1) ∧
    ctor_body cls args = None ∧
    v = VObject (length (heap s1)) ∧
    s' = {| this := this s1;
            heap := heap s1 ++ [{| obj_class := class_id cls; obj_fields := args |}] |}.
Proof.
  unfold createInstance, construct. intros H.
  destruct (getInjectTokens cls) as [[|slot rest]|]; simpl.
  - destruct (ctor_body cls []) eqn:Hc; simplify_eq. by exists [], s.
  - destruct (resolveDeps rec tok (slot :: rest) s) as [[[args|e] s1]|] eqn:E; simplify_eq.
    destruct (ctor_body cls args) eqn:Hc; simplify_eq. by exists args, s1.
  - destruct (ctor_body cls []) eqn:Hc; simplify_eq. by exists [], s.
Qed.

Lemma createInstance_Throw tok cls s e s' :
  createInstance rec tok cls s = Some (Throw e, s') →
  (∃ cause, e = InvalidConstructorError tok (instantiate_prefix cls +:+ cause_text cause)) ∨
  (Undef ∈ default [] (getInjectTokens cls) ∧
   e = InvalidConstructorError tok "Missing @inject decorator for constructor parameter") ∨
  (∃ dep, Tok dep ∈ default [] (getInjectTokens cls) ∧ e = DependencyNotFoundError dep ∧
          bindings (this s) !! key dep = None) ∨
  (∃ dep sa, Tok dep ∈ default [] (getInjectTokens cls) ∧ frame s sa ∧
             rec dep sa = Some (Throw e, s')).
Proof.
  unfold createInstance, construct, instantiate_prefix. intros H.
  destruct (getInjectTokens cls) as [[|slot rest]|]; simpl.
  - destruct (ctor_body cls []) as [e0|]; simplify_eq. left. by exists e0.
  - destruct (resolveDeps rec tok (slot :: rest) s) as [[[args|e0] s1]|] eqn:E; simplify_eq.
    + destruct (ctor_body cls args) as [e0|]; simplify_eq. left. by exists e0.
    + apply resolveDeps_failure in E as [?|[?|?]]; auto.
  - destruct (ctor_body cls []) as [e0|]; simplify_eq. left. by exists e0.
Qed.
End ArgumentsOf.

Lemma resolve_built fuel tok s v s' b :
  resolve fuel tok s = Some (Return v, s') →
  bindings (this s) !! key tok = Some b →
  (lifecycle b = Singleton → singletons (this s) !! key tok = None) →
  ∃ fuel' s2, fuel = S fuel' ∧
    createInstance (resolve fuel') tok (implementation b) (entered tok s)
      = Some (Return v, s2) ∧
    s' = settle tok b (Return v) s2.
Proof.
  intros H Hb Hs. apply resolve_cases in H. inversion H; subst.
  - assert (b0 = b) as -> by congruence.
    rewrite Hs in * by done. done.
  - assert (b0 = b) as -> by congruence. by exists fuel', s2.
Qed.

Lemma resolve_built_arguments fuel tok s v s' b :
  resolve fuel tok s = Some (Return v, s') →
  bindings (this s) !! key tok = Some b →
  (lifecycle b = Singleton → singletons (this s) !! key tok = None) →
  ∃ fuel' s1 args,
    fuel = S fuel' ∧
    v = VObject (length (heap s1)) ∧
    heap s' = heap s1 ++ [{| obj_class := class_id (implementation b);
                             obj_fields := args |}] ∧
    this s' = this (settle tok b (Return v) s1) ∧
    frame (entered tok s) s1 ∧
    ctor_body (implementation b) args = None ∧
    Forall2 (argument_of (resolve fuel') (entered tok s) s1)
      (default [] (getInjectTokens (implementation b))) args.
Proof.
  intros H Hb Hs.
  destruct (resolve_built _ _ _ _ _ _ H Hb Hs) as (fuel' & s2 & -> & Hc & ->).
  apply createInstance_Return in Hc as (args & s1 & Hd & Hbody & -> & ->).
  exists fuel', s1, args. do 4 (split; [done|]).
  split; [exact (proj1 (resolveDeps_post _ (resolve_post fuel') _ _ _ _ _ Hd))|].
  split; [done|].
  eapply resolveDeps_arguments; [|done]. apply resolve_post.
Qed.

(** X4. when [resolve] constructs an instance, the constructor receives
    one argument for each slot of the token array of the class, in the
    order of the slots: [undefined] for an empty slot and, for a token, the
    instance that a nested [resolve] of it returned while the requested
    token was on the path.  No slot holds [undefined]: such a class is
    never constructed.  The new object is the last one of the heap. *)
Theorem constructor_arguments fuel tok s v s' b :
  resolve fuel tok s = Some (Return v, s') →
  bindings (this s) !! key tok = Some b →
  (lifecycle b = Singleton → singletons (this s) !! key tok = None) →
  ∃ fuel' s1 args,
    fuel = S fuel' ∧
    v = VObject (length (heap s1)) ∧
    heap s' = heap s1 ++ [{| obj_class := class_id (implementation b);
                             obj_fields := args |}] ∧
    ctor_body (implementation b) args = None ∧
    Forall2 (argument_of (resolve fuel') (entered tok s) s1)
      (default [] (getInjectTokens (implementation b))) args.
Proof.
  intros H Hb Hs.
  destruct (resolve_built_arguments _ _ _ _ _ _ H Hb Hs)
    as (fuel' & s1 & args & ? & ? & ? & ? & ? & ? & ?).
  by exists fuel', s1, args.
Qed.

Lemma constructor_arguments_witness :
  let s := Example.fresh [(Example.Logger, Example.ConsoleLogger);
                          (Example.UserService,
                           Example.plain 2 "UserServiceImpl" (Some Transient)
                             (Some [Hole; Tok Example.Logger]))] in
  ∃ s', resolve 3 Example.UserService s = Some (Return (VObject 1), s') ∧
    ∃ fuel' s1 args,
      3 = S fuel' ∧ VObject 1 = VObject (length (heap s1)) ∧
      heap s' = heap s1 ++ [{| obj_class := 2; obj_fields := args |}] ∧
      (args = [VUndefined; VObject 0]).
Proof.
  eexists. split; [vm_compute; reflexivity|].
  edestruct (constructor_arguments 3 Example.UserService
    (Example.fresh [(Example.Logger, Example.ConsoleLogger);
                    (Example.UserService,
                     Example.plain 2 "UserServiceImpl" (Some Transient)
                       (Some [Hole; Tok Example.Logger]))]))
    as (fuel' & s1 & args & Hf & Hv & Hh & _ & _);
    [vm_compute; reflexivity | vm_compute; reflexivity | discriminate |].
  exists fuel', s1, args. split; [done|]. split; [done|]. split; [exact Hh|].
  vm_compute in Hh. apply (f_equal (@rev Obj)) in Hh. rewrite rev_app_distr in Hh.
  simpl in Hh. by injection Hh.
Defined.


(** ** Which tokens a failure names *)

Lemma in_flight_app t l1 l2 : in_flight t (l1 ++ l2) = in_flight t l1 || in_flight t l2.
Proof. unfold in_flight. apply existsb_app. Qed.

Lemma last_cons_cons {A} (x y : A) l : last (x :: y :: l) = last (y :: l).
Proof. done. Qed.

Lemma leads_to_cons c tok dep t path :
  declares_dependency c tok dep → leads_to c dep t path → leads_to c tok t (tok :: path).
Proof.
  intros Hd (Hh & Hl & Hp). destruct path as [|d rest]; [done|].
  simpl in Hh. simplify_eq. split; [done|]. split; [by rewrite last_cons_cons|].
  by split.
Qed.

Lemma declared_slot c tok b dep :
  bindings c !! key tok = Some b →
  Tok dep ∈ default [] (getInjectTokens (implementation b)) →
  declares_dependency c tok dep.
Proof.
  intros Hb Hin. destruct (getInjectTokens (implementation b)) as [slots|] eqn:Hs.
  - by exists b, slots.
  - by apply elem_of_nil in Hin.
Qed.

Lemma explained_nested tok dep s sa b e :
  bindings (this s) !! key tok = Some b →
  Tok dep ∈ default [] (getInjectTokens (implementation b)) →
  frame (entered tok s) sa →
  explained dep sa e → explained tok s e.
Proof.
  intros Hb Hin F He.
  assert (bindings (this sa) = bindings (this s)) as Hbs by apply (frame_bindings _ _ F).
  assert (resolutionStack (this sa) = resolutionStack (this s) ++ [tok]) as Hst
    by apply (frame_stack _ _ F).
  assert (declares_dependency (this s) tok dep) as Hd by by eapply declared_slot.
  assert (∀ t path, leads_to (this sa) dep t path → leads_to (this s) tok t (tok :: path))
    as Hlead.
  { intros t path (Hh & Hl & Hp). apply leads_to_cons with dep; [done|].
    split; [done|]. split; [done|].
    clear -Hp Hbs. induction path as [|a [|a' rest] IH]; try done.
    destruct Hp as [(b' & slots & H1 & H2) Hp]. split; [|by apply IH].
    exists b', slots. by rewrite <- Hbs. }
  destruct e; try done; simpl in *.
  - destruct He as (Hn & path & Hp). split; [by rewrite <- Hbs|].
    exists (tok :: path). by apply Hlead.
  - destruct He as (path & t & -> & Hp & Hf). exists (tok :: path), t.
    split; [by rewrite Hst, <- app_assoc|]. split; [by apply Hlead|].
    destruct path as [|d rest]; [by destruct Hp|].
    rewrite Hst, <- app_assoc in Hf. exact Hf.
  - destruct He as (Hn & path & Hp). split; [by unfold isRegistered in *; rewrite <- Hbs|].
    exists (tok :: path). by apply Hlead.
Qed.

Lemma resolve_explained fuel : ∀ tok s e s',
  resolve fuel tok s = Some (Throw e, s') → explained tok s e.
Proof.
  induction fuel as [|fuel IH]; intros tok s e s' H; [done|].
  apply resolve_cases in H. inversion H; subst.
  - simpl. split; [done|]. by exists [tok].
  - simpl. exists [tok], tok. split; [done|]. split; [done|].
    simpl. by rewrite app_nil_r.
  - match goal with Hf : S _ = S _ |- _ => injection Hf as <- end.
    match goal with Hc : createInstance _ _ _ _ = _ |- _ =>
      apply (createInstance_Throw _ (resolve_post fuel)) in Hc
        as [[cause ->]|[[_ ->]|[(dep & Hin & -> & Hn)|(dep & sa & Hin & F & Hr)]]] end.
    + simpl. split; [|by exists [tok]].
      unfold isRegistered. apply bool_decide_eq_true. by eexists.
    + simpl. split; [|by exists [tok]].
      unfold isRegistered. apply bool_decide_eq_true. by eexists.
    + simpl. split; [done|]. exists [tok; dep]. split; [done|]. split; [done|].
      split; [|done]. by eapply declared_slot.
    + eapply explained_nested; [done..|]. by eapply IH.
Qed.

(** X5. the chain of a [CircularDependencyError] that [resolve] throws is
    the path that was in flight at the call followed by a path of declared
    dependencies that starts at the requested token; the last token of the
    chain is one that occurs earlier in it. *)
Theorem circular_chain_follows_dependencies fuel tok s chain s' :
  resolve fuel tok s = Some (Throw (CircularDependencyError chain), s') →
  ∃ path t, chain = resolutionStack (this s) ++ path ∧
    leads_to (this s) tok t path ∧
    in_flight t (resolutionStack (this s) ++ removelast path) = true.
Proof. intros H. exact (resolve_explained _ _ _ _ _ H). Qed.

Lemma circular_chain_follows_dependencies_witness :
  let s := Example.fresh [(Example.ServiceA, Example.AImpl);
                          (Example.ServiceB, Example.BViaC);
                          (Example.ServiceC, Example.CImpl)] in
  ∃ path t,
    [Example.ServiceA; Example.ServiceB; Example.ServiceC; Example.ServiceA]
      = resolutionStack (this s) ++ path ∧
    leads_to (this s) Example.ServiceA t path ∧
    in_flight t (resolutionStack (this s) ++ removelast path) = true.
Proof.
  intros s.
  apply (circular_chain_follows_dependencies 4 Example.ServiceA s _
           {| this := this s; heap := [] |}).
  vm_compute. reflexivity.
Defined.

(** X6. a [DependencyNotFoundError] that [resolve] throws names a token
    that has no binding, and that token is the requested one or is reached
    from it along declared dependencies. *)
Theorem not_found_names_unregistered_token fuel tok s t s' :
  resolve fuel tok s = Some (Throw (DependencyNotFoundError t), s') →
  isRegistered t (this s) = false ∧ isRegistered t (this s') = false ∧
  ∃ path, leads_to (this s) tok t path.
Proof.
  intros H. pose proof (resolve_explained _ _ _ _ _ H) as [Hn Hp].
  pose proof (frame_bindings _ _ (resolve_frame _ _ _ _ _ H)) as Hb.
  unfold isRegistered. rewrite Hb, Hn.
  repeat split; try done; apply bool_decide_eq_false; by intros [? ?].
Qed.

Lemma not_found_names_unregistered_token_witness :
  let s := Example.fresh [(Example.Database, Example.PostgresDatabase);
                          (Example.UserService,
                           Example.plain 2 "UserServiceImpl" (Some Transient)
                             (Some [Tok Example.Database]))] in
  isRegistered Example.Logger (this s) = false ∧
  isRegistered Example.Logger (this s) = false ∧
  ∃ path, leads_to (this s) Example.UserService Example.Logger path.
Proof.
  intros s.
  apply (not_found_names_unregistered_token 3 Example.UserService s Example.Logger s).
  vm_compute. reflexivity.
Defined.


(** ** The objects reference only older objects *)

Section Ordered.
Variable rec : Token → State → option (Completion Value * State).
Hypothesis rec_post : ∀ t s r s', rec t s = Some (r, s') → post s r s'.
Hypothesis rec_ordered : ∀ t s r s', rec t s = Some (r, s') →
  cache_allocated s → heap_ordered (heap s) → heap_ordered (heap s').

Lemma resolveDeps_ordered tok slots : ∀ s r s',
  resolveDeps rec tok slots s = Some (r, s') →
  cache_allocated s → heap_ordered (heap s) →
  heap_ordered (heap s') ∧
  ∀ args, r = Return args →
    Forall (fun v => v = VUndefined ∨ allocated v (heap s')) args.
Proof.
  induction slots as [|slot rest IH]; intros s r s' H Hc Ho; simpl in H.
  - simplify_eq. split; [done|]. intros args [= <-]. constructor.
  - destruct slot as [| |dep].
    + destruct (resolveDeps rec tok rest s) as [[[vs|e] s1]|] eqn:E; simplify_eq.
      * destruct (IH _ _ _ E Hc Ho) as [Ho' Ha]. split; [done|].
        intros args [= <-]. constructor; [by left | by apply Ha].
      * destruct (IH _ _ _ E Hc Ho) as [Ho' _]. by split.
    + simplify_eq. by split.
    + destruct (bindings (this s) !! key dep); [|by simplify_eq].
      destruct (rec dep s) as [[[v|e] s1]|] eqn:E; simplify_eq.
      2:{ split; [by eapply rec_ordered | done]. }
      destruct (rec_post _ _ _ _ E) as [F1 P1]. destruct (P1 Hc) as [Hc1 Hv].
      assert (heap_ordered (heap s1)) as Ho1 by by eapply rec_ordered.
      destruct (resolveDeps rec tok rest s1) as [[[vs|e] s2]|] eqn:E2; simplify_eq.
      * destruct (IH _ _ _ E2 Hc1 Ho1) as [Ho2 Ha]. split; [done|].
        intros args [= <-]. constructor; [|by apply Ha]. right.
        eapply allocated_mono; [|by apply Hv].
        apply (frame_heap _ _ (proj1 (resolveDeps_post _ rec_post _ _ _ _ _ E2))).
      * destruct (IH _ _ _ E2 Hc1 Ho1) as [Ho2 _]. by split.
Qed.

Lemma heap_ordered_snoc h id args :
  heap_ordered h → Forall (fun v => v = VUndefined ∨ allocated v h) args →
  heap_ordered (h ++ [{| obj_class := id; obj_fields := args |}]).
Proof.
  intros Ho Ha ref o Hl. apply lookup_app_Some in Hl as [Hl|[Hge Hl]].
  - by apply Ho.
  - apply list_lookup_singleton_Some in Hl as [Hz <-]. simpl.
    eapply Forall_impl; [exact Ha|]. intros v [->|(r & -> & Hr)]; [by left|].
    right. exists r. split; [done|]. lia.
Qed.

Lemma createInstance_ordered tok cls s r s' :
  createInstance rec tok cls s = Some (r, s') →
  cache_allocated s → heap_ordered (heap s) → heap_ordered (heap s').
Proof.
  unfold createInstance, construct. intros H Hc Ho.
  assert (heap_ordered (heap s ++ [{| obj_class := class_id cls; obj_fields := [] |}]))
    as Hnil by (apply heap_ordered_snoc; [done | constructor]).
  destruct (getInjectTokens cls) as [[|slot rest]|].
  - destruct (ctor_body cls []); by simplify_eq.
  - destruct (resolveDeps rec tok (slot :: rest) s) as [[[args|e] s1]|] eqn:E;
      simplify_eq.
    + destruct (resolveDeps_ordered _ _ _ _ _ E Hc Ho) as [Ho1 Ha].
      destruct (ctor_body cls args); simplify_eq; [done|]. simpl.
      apply heap_ordered_snoc; [done | by apply Ha].
    + by destruct (resolveDeps_ordered _ _ _ _ _ E Hc Ho).
  - destruct (ctor_body cls []); by simplify_eq.
Qed.
End Ordered.

Lemma entered_cache_allocated tok s : cache_allocated s → cache_allocated (entered tok s).
Proof. done. Qed.

Lemma resolve_ordered fuel : ∀ tok s r s',
  resolve fuel tok s = Some (r, s') →
  cache_allocated s → heap_ordered (heap s) → heap_ordered (heap s').
Proof.
  induction fuel as [|fuel IH]; intros tok s r s' H Hc Ho; [done|].
  apply resolve_cases in H. inversion H; subst; try done.
  match goal with Hf : S _ = S _ |- _ => injection Hf as <- end.
  match goal with Hi : createInstance _ _ _ _ = _ |- _ =>
    apply (createInstance_ordered _ (resolve_post fuel) IH) in Hi; done end.
Qed.

Lemma step_ordered op s s' :
  step op s = Some s' → cache_allocated s → heap_ordered (heap s) →
  heap_ordered (heap s').
Proof.
  destruct op as [tok impl|fuel tok|tok| |]; simpl; intros H Hc Ho;
    try (by simplify_eq).
  destruct (resolve fuel tok s) as [[r s1]|] eqn:E; [|done].
  injection H as <-. exact (resolve_ordered _ _ _ _ _ E Hc Ho).
Qed.

(** X7. the objects that a container constructs reference only objects
    that were constructed before them, whatever calls are made on the
    container and whatever they throw: no instance holds itself, and no
    two instances hold each other. *)
Theorem instances_reference_older_instances ops : ∀ s s',
  cache_allocated s → heap_ordered (heap s) →
  run ops s = Some s' → heap_ordered (heap s').
Proof.
  induction ops as [|op rest IH]; intros s s' Hc Ho H; simpl in H; [by simplify_eq|].
  destruct (step op s) as [s1|] eqn:E; [|done].
  eapply IH; [| |exact H].
  - by eapply step_cache_allocated.
  - by eapply step_ordered.
Qed.

Lemma instances_reference_older_instances_witness :
  heap_ordered
    (heap (Example.after [Resolve 4 Example.UserService; Clear;
                          Resolve 4 Example.UserService] Example.basic_usage)).
Proof.
  apply (instances_reference_older_instances
           [Resolve 4 Example.UserService; Clear; Resolve 4 Example.UserService]
           Example.basic_usage).
  - intros k v H. vm_compute in H. discriminate.
  - intros ref o H. destruct ref; vm_compute in H; discriminate.
  - vm_compute. reflexivity.
Defined.


(** ** The cache entry of a token that is under construction *)

Lemma in_flight_key t t' stack :
  key t = key t' → in_flight t stack = in_flight t' stack.
Proof.
  unfold in_flight, symbol_eqb, key. intros ->. done.
Qed.

Section InFlight.
Variable rec : Token → State → option (Completion Value * State).
Variable t : Token.
Hypothesis rec_post : ∀ d s r s', rec d s = Some (r, s') → post s r s'.
Hypothesis rec_in_flight : ∀ d s r s',
  in_flight t (resolutionStack (this s)) = true → rec d s = Some (r, s') →
  singletons (this s') !! key t = singletons (this s) !! key t.

Lemma resolveDeps_in_flight tok slots : ∀ s r s',
  in_flight t (resolutionStack (this s)) = true →
  resolveDeps rec tok slots s = Some (r, s') →
  singletons (this s') !! key t = singletons (this s) !! key t.
Proof.
  induction slots as [|slot rest IH]; intros s r s' Hf H; simpl in H.
  - by simplify_eq.
  - destruct slot as [| |dep].
    + destruct (resolveDeps rec tok rest s) as [[[vs|e] s1]|] eqn:E; simplify_eq;
        by eapply IH.
    + by simplify_eq.
    + destruct (bindings (this s) !! key dep); [|by simplify_eq].
      destruct (rec dep s) as [[[v|e] s1]|] eqn:E; simplify_eq.
      2:{ by eapply rec_in_flight. }
      assert (in_flight t (resolutionStack (this s1)) = true) as Hf1
        by by rewrite (frame_stack _ _ (proj1 (rec_post _ _ _ _ E))).
      rewrite <- (rec_in_flight _ _ _ _ Hf E).
      destruct (resolveDeps rec tok rest s1) as [[[vs|e] s2]|] eqn:E2; simplify_eq;
        by eapply IH.
Qed.

Lemma createInstance_in_flight tok cls s r s' :
  in_flight t (resolutionStack (this s)) = true →
  createInstance rec tok cls s = Some (r, s') →
  singletons (this s') !! key t = singletons (this s) !! key t.
Proof.
  unfold createInstance, construct. intros Hf H.
  destruct (getInjectTokens cls) as [[|slot rest]|].
  - destruct (ctor_body cls []); by simplify_eq.
  - destruct (resolveDeps rec tok (slot :: rest) s) as [[[args|e] s1]|] eqn:E;
      simplify_eq.
    + destruct (ctor_body cls args); simplify_eq; simpl;
        by eapply resolveDeps_in_flight.
    + by eapply resolveDeps_in_flight.
  - destruct (ctor_body cls []); by simplify_eq.
Qed.
End InFlight.

Lemma resolve_in_flight_entry fuel : ∀ t tok s r s',
  in_flight t (resolutionStack (this s)) = true →
  resolve fuel tok s = Some (r, s') →
  singletons (this s') !! key t = singletons (this s) !! key t.
Proof.
  induction fuel as [|fuel IH]; intros t tok s r s' Hf H; [done|].
  apply resolve_cases in H. inversion H; subst; try done.
  match goal with Hx : S _ = S _ |- _ => injection Hx as <- end.
  match goal with Hi : createInstance _ _ _ _ = _ |- _ =>
    apply (createInstance_in_flight _ t (resolve_post fuel) (IH t)) in Hi end.
  2:{ simpl. by rewrite in_flight_app, Hf. }
  assert (key tok ≠ key t) as Hne.
  { intros Hk. rewrite (in_flight_key _ _ _ Hk) in *. congruence. }
  unfold settle. destruct r as [v|e]; [destruct (lifecycle b)|]; simpl in *; try done.
  by rewrite lookup_insert_ne.
Qed.

(** X8. while a token is under construction, no [resolve] on the container
    changes what the singleton cache holds for it, whatever the call
    returns or throws.  So the write to the cache at the end of a
    construction never replaces an instance: a singleton is constructed
    once. *)
Theorem cache_entry_of_token_in_flight fuel t tok s r s' :
  in_flight t (resolutionStack (this s)) = true →
  resolve fuel tok s = Some (r, s') →
  singletons (this s') !! key t = singletons (this s) !! key t.
Proof. apply resolve_in_flight_entry. Qed.

Lemma cache_entry_of_token_in_flight_witness :
  let s := entered Example.UserService Example.basic_usage in
  ∃ s', resolve 3 Example.Database s = Some (Return (VObject 1), s') ∧
    singletons (this s') !! key Example.UserService
      = singletons (this s) !! key Example.UserService.
Proof.
  intros s. eexists. split; [vm_compute; reflexivity|].
  eapply (cache_entry_of_token_in_flight 3 Example.UserService Example.Database s);
    vm_compute; reflexivity.
Defined.

(** X9. what [resolve] does to the cache entry of the requested token: a
    call that throws leaves it as it was, and so does a call that returns
    for a token bound as transient; a call that returns for a token bound
    as singleton leaves the returned instance there. *)
Theorem resolve_own_cache_entry fuel tok s r s' b :
  resolve fuel tok s = Some (r, s') →
  bindings (this s) !! key tok = Some b →
  singletons (this s') !! key tok =
    match r, lifecycle b with
    | Return v, Singleton => Some v
    | _, _ => singletons (this s) !! key tok
    end.
Proof.
  intros H Hb. pose proof H as Hcase. apply resolve_cases in Hcase.
  inversion Hcase; subst; try assert (b0 = b) as -> by congruence; try done.
  - match goal with Hl : lifecycle b = Singleton |- _ => rewrite Hl end. done.
  - match goal with Hi : createInstance _ _ _ _ = _ |- _ =>
      apply (createInstance_in_flight _ tok (resolve_post fuel')
               (resolve_in_flight_entry fuel' tok)) in Hi end.
    2:{ apply in_flight_last. }
    unfold settle. destruct r as [v|e]; [destruct (lifecycle b)|]; simpl in *; try done.
    by rewrite lookup_insert_eq.
Qed.

Lemma resolve_own_cache_entry_witness :
  let s := Example.fresh [(Example.ServiceA, Example.AImpl);
                          (Example.ServiceB, Example.BImpl)] in
  ∃ e s', resolve 3 Example.ServiceA s = Some (Throw e, s') ∧
    singletons (this s') !! key Example.ServiceA
      = singletons (this s) !! key Example.ServiceA.
Proof.
  intros s. eexists _, _. split; [vm_compute; reflexivity|].
  eapply (resolve_own_cache_entry 3 Example.ServiceA s
            (Throw (CircularDependencyError
                      [Example.ServiceA; Example.ServiceB; Example.ServiceA])));
    vm_compute; reflexivity.
Defined.


(** ** Instances that depend on the same singleton *)

Lemma built_dependency_cached fuel tok s s1 slots args i dep bd :
  Forall2 (argument_of (resolve fuel) (entered tok s) s1) slots args →
  slots !! i = Some (Tok dep) →
  bindings (this s) !! key dep = Some bd → lifecycle bd = Singleton →
  ∃ x, args !! i = Some x ∧ singletons (this s1) !! key dep = Some x ∧
       key dep ≠ key tok.
Proof.
  intros Hall Hi Hb Hl.
  destruct (Forall2_lookup_l _ _ _ _ _ Hall Hi) as (x & Hx & sa & sb & Fa & Hr & Fb).
  exists x. split; [done|].
  assert (bindings (this sa) !! key dep = Some bd) as Hba
    by by rewrite (frame_bindings _ _ Fa).
  split.
  - apply (frame_cache_keep _ _ Fb). by eapply resolve_singleton_cached.
  - intros Hk. apply resolve_Return in Hr as (b' & _ & Hf & _).
    rewrite (frame_stack _ _ Fa) in Hf. simpl in Hf.
    rewrite (in_flight_key _ _ _ Hk), in_flight_last in Hf. done.
Qed.

Lemma supplied_from_cache fuel tok s s1 slots args j dep bd x :
  Forall2 (argument_of (resolve fuel) (entered tok s) s1) slots args →
  slots !! j = Some (Tok dep) →
  bindings (this s) !! key dep = Some bd → lifecycle bd = Singleton →
  singletons (this s) !! key dep = Some x →
  args !! j = Some x.
Proof.
  intros Hall Hj Hb Hl Hc.
  destruct (Forall2_lookup_l _ _ _ _ _ Hall Hj) as (y & Hy & sa & sb & Fa & Hr & Fb).
  assert (singletons (this sa) !! key dep = Some x) as Hca
    by by apply (frame_cache_keep _ _ Fa).
  apply resolve_Return in Hr as (b' & Hb' & _ & [(_ & Hs & _)|(Hn & _)]).
  - congruence.
  - rewrite (frame_bindings _ _ Fa) in Hb'. simpl in Hb'.
    assert (b' = bd) as -> by congruence. rewrite Hn in Hca; done.
Qed.

(** X10. two instances that the container constructs, for the same token
    or for two tokens, with a declared dependency on one token bound as a
    singleton hold the identical instance for it, whatever is registered
    or resolved between the two constructions, as long as the container is
    not cleared or reset. *)
Theorem singleton_dependency_is_shared
    f1 f2 tok1 tok2 dep ops s0 s1 s2 s3 v1 v2 b1 b2 bd1 bd2 i j :
  bindings (this s0) !! key tok1 = Some b1 →
  (lifecycle b1 = Singleton → singletons (this s0) !! key tok1 = None) →
  default [] (getInjectTokens (implementation b1)) !! i = Some (Tok dep) →
  bindings (this s0) !! key dep = Some bd1 → lifecycle bd1 = Singleton →
  resolve f1 tok1 s0 = Some (Return v1, s1) →
  forallb keeps_cache ops = true → run ops s1 = Some s2 →
  bindings (this s2) !! key tok2 = Some b2 →
  (lifecycle b2 = Singleton → singletons (this s2) !! key tok2 = None) →
  default [] (getInjectTokens (implementation b2)) !! j = Some (Tok dep) →
  bindings (this s2) !! key dep = Some bd2 → lifecycle bd2 = Singleton →
  resolve f2 tok2 s2 = Some (Return v2, s3) →
  ∃ r1 r2 o1 o2 x,
    v1 = VObject r1 ∧ v2 = VObject r2 ∧ r1 ≠ r2 ∧
    heap s3 !! r1 = Some o1 ∧ heap s3 !! r2 = Some o2 ∧
    obj_fields o1 !! i = Some x ∧ obj_fields o2 !! j = Some x.
Proof.
  intros Hb1 Hn1 Hi Hbd1 Hl1 H1 Hk Hrun Hb2 Hn2 Hj Hbd2 Hl2 H2.
  destruct (resolve_built_arguments _ _ _ _ _ _ H1 Hb1 Hn1)
    as (g1 & t1 & args1 & -> & -> & Hh1 & Ht1 & _ & _ & A1).
  destruct (resolve_built_arguments _ _ _ _ _ _ H2 Hb2 Hn2)
    as (g2 & t2 & args2 & -> & -> & Hh2 & Ht2 & F2 & _ & A2).
  destruct (built_dependency_cached _ _ _ _ _ _ _ _ _ A1 Hi Hbd1 Hl1)
    as (x & Hx & Hc1 & Hne).
  assert (singletons (this s1) !! key dep = Some x) as Hc.
  { rewrite Ht1. unfold settle. simpl. destruct (lifecycle b1); simpl; [|done].
    by rewrite lookup_insert_ne. }
  assert (singletons (this s2) !! key dep = Some x) as Hc2
    by by eapply run_cache_keep.
  pose proof (supplied_from_cache _ _ _ _ _ _ _ _ _ _ A2 Hj Hbd2 Hl2 Hc2) as Hy.
  pose proof (run_heap _ _ _ Hrun) as P12.
  pose proof (frame_heap _ _ (resolve_frame _ _ _ _ _ H2)) as P23.
  assert (heap s1 !! length (heap t1) = Some
            {| obj_class := class_id (implementation b1); obj_fields := args1 |}) as L1.
  { rewrite Hh1. by apply list_lookup_middle. }
  assert (length (heap t1) < length (heap s1)) as Hlen1
    by (rewrite Hh1, length_app; simpl; lia).
  assert (length (heap s1) ≤ length (heap t2)) as Hlen2.
  { etrans; [apply (prefix_length _ _ P12)|].
    apply (prefix_length _ _ (frame_heap _ _ F2)). }
  exists (length (heap t1)), (length (heap t2)),
    {| obj_class := class_id (implementation b1); obj_fields := args1 |},
    {| obj_class := class_id (implementation b2); obj_fields := args2 |}, x.
  split; [done|]. split; [done|]. split; [lia|].
  split; [eapply prefix_lookup_Some; [|exact P23];
          eapply prefix_lookup_Some; [exact L1 | exact P12]|].
  split; [rewrite Hh2; by apply list_lookup_middle|]. by split.
Qed.


Lemma singleton_dependency_is_shared_witness :
  ∃ s1 s3 v1 v2,
    resolve 4 Example.UserService Example.basic_usage = Some (Return v1, s1) ∧
    resolve 4 Example.UserService s1 = Some (Return v2, s3) ∧
    ∃ r1 r2 o1 o2 x,
      v1 = VObject r1 ∧ v2 = VObject r2 ∧ r1 ≠ r2 ∧
      heap s3 !! r1 = Some o1 ∧ heap s3 !! r2 = Some o2 ∧
      obj_fields o1 !! 1 = Some x ∧ obj_fields o2 !! 1 = Some x.
Proof.
  eexists _, _, _, _. split; [vm_compute; reflexivity|].
  split; [vm_compute; reflexivity|].
  eapply (singleton_dependency_is_shared 4 4 Example.UserService Example.UserService
            Example.Database [] Example.basic_usage);
    first [ vm_compute; reflexivity | vm_compute; discriminate ].
Defined.

(** ** Failures part of the way through a construction *)

Section Partial.
Variable rec : Token → State → option (Completion Value * State).

Lemma resolveDeps_app_throw tok pre rest : ∀ s args s1 e s2,
  resolveDeps rec tok pre s = Some (Return args, s1) →
  resolveDeps rec tok rest s1 = Some (Throw e, s2) →
  resolveDeps rec tok (pre ++ rest) s = Some (Throw e, s2).
Proof.
  induction pre as [|slot pre IH]; intros s args s1 e s2 Hp Hr; simpl in *.
  - by simplify_eq.
  - destruct slot as [| |dep].
    + destruct (resolveDeps rec tok pre s) as [[[vs|e0] s0]|] eqn:E; simplify_eq.
      by rewrite (IH _ _ _ _ _ E Hr).
    + done.
    + destruct (bindings (this s) !! key dep); [|done].
      destruct (rec dep s) as [[[v|e0] s0]|]; simplify_eq.
      destruct (resolveDeps rec tok pre s0) as [[[vs|e0] s0']|] eqn:E; simplify_eq.
      by rewrite (IH _ _ _ _ _ E Hr).
Qed.

Lemma createInstance_later_unbound tok cls s pre dep rest args s1 :
  getInjectTokens cls = Some (pre ++ Tok dep :: rest) →
  resolveDeps rec tok pre s = Some (Return args, s1) →
  bindings (this s1) !! key dep = None →
  createInstance rec tok cls s = Some (Throw (DependencyNotFoundError dep), s1).
Proof.
  intros Ht Hp Hb. unfold createInstance. rewrite Ht.
  rewrite (resolveDeps_app_throw tok pre (Tok dep :: rest) s args s1
             (DependencyNotFoundError dep) s1 Hp).
  - by destruct pre.
  - simpl. by rewrite Hb.
Qed.

Lemma createInstance_constructor_throws tok cls s args s1 e :
  resolveDeps rec tok (default [] (getInjectTokens cls)) s = Some (Return args, s1) →
  ctor_body cls args = Some e →
  createInstance rec tok cls s =
    Some (Throw (InvalidConstructorError tok (instantiate_prefix cls +:+ cause_text e)),
          s1).
Proof.
  unfold createInstance, construct, instantiate_prefix. intros Hd Hc.
  destruct (getInjectTokens cls) as [[|slot rest]|].
  - simpl in Hd. simplify_eq. rewrite Hc. by destruct s1.
  - change (default [] (Some (slot :: rest))) with (slot :: rest) in Hd.
    rewrite Hd, Hc. by destruct s1.
  - simpl in Hd. simplify_eq. rewrite Hc. by destruct s1.
Qed.
End Partial.

(** X11. a [resolve] that fails is not rolled back.  When the dependencies
    declared before an unregistered one have been resolved, [resolve]
    throws [DependencyNotFoundError] for the unregistered one and leaves
    the container and the heap as those resolutions left them, with the
    path restored: the singletons that were constructed on the way stay
    cached. *)
Theorem failed_resolve_keeps_built_dependencies fuel tok s b pre dep rest args s1 :
  bindings (this s) !! key tok = Some b →
  in_flight tok (resolutionStack (this s)) = false →
  (lifecycle b = Singleton → singletons (this s) !! key tok = None) →
  getInjectTokens (implementation b) = Some (pre ++ Tok dep :: rest) →
  resolveDeps (resolve fuel) tok pre (entered tok s) = Some (Return args, s1) →
  bindings (this s) !! key dep = None →
  resolve (S fuel) tok s =
    Some (Throw (DependencyNotFoundError dep),
          {| this := with_stack (resolutionStack (this s)) (this s1);
             heap := heap s1 |}) ∧
  ∀ i d bd, pre !! i = Some (Tok d) →
    bindings (this s) !! key d = Some bd → lifecycle bd = Singleton →
    ∃ x, args !! i = Some x ∧ singletons (this s1) !! key d = Some x.
Proof.
  intros Hb Hf Hn Ht Hp Hd.
  pose proof (proj1 (resolveDeps_post _ (resolve_post fuel) _ _ _ _ _ Hp)) as F.
  split.
  - erewrite resolve_propagates; [|done..|].
    2:{ eapply createInstance_later_unbound; [done..|].
        by rewrite (frame_bindings _ _ F). }
    unfold pop. rewrite (frame_stack _ _ F). simpl. by rewrite removelast_last.
  - intros i d bd Hi Hbd Hl.
    pose proof (resolveDeps_arguments _ (resolve_post fuel) _ _ _ _ _ Hp) as A.
    destruct (built_dependency_cached _ _ _ _ _ _ _ _ _ A Hi Hbd Hl) as (x & ? & ? & _).
    by exists x.
Qed.

Lemma failed_resolve_keeps_built_dependencies_witness :
  let s := Example.fresh [(Example.Logger, Example.ConsoleLogger);
                          (Example.UserService, Example.UserServiceImpl)] in
  ∃ s', resolve 3 Example.UserService s
          = Some (Throw (DependencyNotFoundError Example.Database), s') ∧
        singletons (this s') !! key Example.Logger = Some (VObject 0) ∧
        heap s' = [{| obj_class := 0; obj_fields := [] |}].
Proof.
  intros s.
  destruct (failed_resolve_keeps_built_dependencies 2 Example.UserService s
              {| implementation := Example.UserServiceImpl; lifecycle := Transient;
                 token := Example.UserService |}
              [Tok Example.Logger] Example.Database [] [VObject 0]
              {| this := cache Example.Logger (VObject 0)
                           (this (entered Example.UserService s));
                 heap := [{| obj_class := 0; obj_fields := [] |}] |})
    as [H _];
    [ vm_compute; reflexivity | vm_compute; reflexivity | discriminate
    | vm_compute; reflexivity | vm_compute; reflexivity | vm_compute; reflexivity | ].
  eexists. split; [exact H|]. split; vm_compute; reflexivity.
Defined.

(** X12. an exception of the constructor comes out of [resolve] as an
    [InvalidConstructorError] for the requested token, whose text is
    [Failed to instantiate: ] (with the remark on [@inject] when the class
    declares no tokens) followed by the message of the exception, or by
    [Unknown error] when the thrown value is not an [Error].  The path is
    restored, what the dependencies left stays, and nothing is cached for
    the token. *)
Theorem throwing_constructor_is_wrapped fuel tok s b args s1 e :
  bindings (this s) !! key tok = Some b →
  in_flight tok (resolutionStack (this s)) = false →
  (lifecycle b = Singleton → singletons (this s) !! key tok = None) →
  resolveDeps (resolve fuel) tok (default [] (getInjectTokens (implementation b)))
    (entered tok s) = Some (Return args, s1) →
  ctor_body (implementation b) args = Some e →
  let text := instantiate_prefix (implementation b) +:+ cause_text e in
  let s' := {| this := with_stack (resolutionStack (this s)) (this s1);
               heap := heap s1 |} in
  resolve (S fuel) tok s = Some (Throw (InvalidConstructorError tok text), s') ∧
  singletons (this s') !! key tok = singletons (this s) !! key tok.
Proof.
  intros Hb Hf Hn Hp Hc text s'.
  pose proof (proj1 (resolveDeps_post _ (resolve_post fuel) _ _ _ _ _ Hp)) as F.
  unfold text.
  split.
  - erewrite resolve_propagates; [|done..|].
    2:{ by eapply createInstance_constructor_throws. }
    unfold s', pop. rewrite (frame_stack _ _ F). simpl. by rewrite removelast_last.
  - unfold s'. simpl.
    apply (resolveDeps_in_flight _ tok (resolve_post fuel)
             (resolve_in_flight_entry fuel tok)) in Hp; [done|].
    apply in_flight_last.
Qed.

Lemma throwing_constructor_is_wrapped_witness :
  let Failing := {| class_id := 9; class_name := "Failing"; injectable_meta := true;
                    lifecycle_meta := Some Singleton;
                    inject_tokens_meta := Some [Tok Example.Logger];
                    ctor_body := fun _ => Some (UserError "no connection") |} in
  let s := Example.fresh [(Example.Logger, Example.ConsoleLogger);
                          (Example.Database, Failing)] in
  ∃ s', resolve 3 Example.Database s
          = Some (Throw (InvalidConstructorError Example.Database
                           "Failed to instantiate: no connection"), s') ∧
        singletons (this s') !! key Example.Database = None.
Proof.
  intros Failing s.
  destruct (throwing_constructor_is_wrapped 2 Example.Database s
              {| implementation := Failing; lifecycle := Singleton;
                 token := Example.Database |}
              [VObject 0]
              {| this := cache Example.Logger (VObject 0)
                           (this (entered Example.Database s));
                 heap := [{| obj_class := 0; obj_fields := [] |}] |}
              (UserError "no connection"))
    as [H1 H2];
    [ vm_compute; reflexivity | vm_compute; reflexivity | vm_compute; reflexivity
    | vm_compute; reflexivity | vm_compute; reflexivity | ].
  eexists. split; [exact H1|]. rewrite H2. vm_compute. reflexivity.
Defined.


(** X13. an [InvalidConstructorError] that [resolve] throws names a
    registered token, the requested one or one reached from it along
    declared dependencies: the token whose class could not be constructed,
    not the token that the caller asked for. *)
Theorem invalid_constructor_names_reached_token fuel tok s t text s' :
  resolve fuel tok s = Some (Throw (InvalidConstructorError t text), s') →
  isRegistered t (this s) = true ∧ ∃ path, leads_to (this s) tok t path.
Proof. intros H. exact (resolve_explained _ _ _ _ _ H). Qed.

Lemma invalid_constructor_names_reached_token_witness :
  let Failing := {| class_id := 9; class_name := "Failing"; injectable_meta := true;
                    lifecycle_meta := Some Singleton;
                    inject_tokens_meta := None;
                    ctor_body := fun _ => Some NonError |} in
  let s := Example.fresh [(Example.Logger, Failing);
                          (Example.Database, Example.PostgresDatabase);
                          (Example.UserService, Example.UserServiceImpl)] in
  isRegistered Example.Logger (this s) = true ∧
  ∃ path, leads_to (this s) Example.UserService Example.Logger path.
Proof.
  intros Failing s.
  apply (invalid_constructor_names_reached_token 4 Example.UserService s Example.Logger
           "Failed to instantiate (no dependencies declared with @inject): Unknown error" s).
  vm_compute. reflexivity.
Defined.

(** ** Tokens *)

Lemma createTokens_spec labels : ∀ n,
  description <$> (createTokens labels n).1 = labels ∧
  key <$> (createTokens labels n).1 = seq n (length labels) ∧
  (createTokens labels n).2 = n + length labels.
Proof.
  induction labels as [|label rest IH]; intros n; simpl; [by rewrite Nat.add_0_r|].
  destruct (IH (S n)) as (Hd & Hk & Hn).
  destruct (createTokens rest (S n)) as [toks final]. simpl in *.
  split; [by f_equal|]. split; [by f_equal|]. lia.
Qed.

(** X14. the tokens that a run of [createToken] calls returns are pairwise
    different keys of the container, whatever their descriptions are:
    registering a class under one of them registers it under no other,
    also not under a token with the same description. *)
Theorem created_tokens_are_distinct labels n i j t1 t2 cls c :
  (createTokens labels n).1 !! i = Some t1 →
  (createTokens labels n).1 !! j = Some t2 →
  i ≠ j →
  description t1 = default "" (labels !! i) ∧
  key t1 ≠ key t2 ∧
  isRegistered t2 (register t1 (Ctor cls) c).2 = isRegistered t2 c ∧
  (isInjectable cls = true → isRegistered t1 (register t1 (Ctor cls) c).2 = true).
Proof.
  intros H1 H2 Hij. destruct (createTokens_spec labels n) as (Hd & Hk & _).
  assert (key t1 = n + i ∧ key t2 = n + j) as [K1 K2].
  { split.
    - assert (Hx : (key <$> (createTokens labels n).1) !! i = Some (key t1))
        by by rewrite list_lookup_fmap, H1.
      rewrite Hk in Hx. apply lookup_seq in Hx. lia.
    - assert (Hx : (key <$> (createTokens labels n).1) !! j = Some (key t2))
        by by rewrite list_lookup_fmap, H2.
      rewrite Hk in Hx. apply lookup_seq in Hx. lia. }
  split; [|split; [lia|split]].
  - assert (Hx : (description <$> (createTokens labels n).1) !! i = Some (description t1))
      by by rewrite list_lookup_fmap, H1.
    rewrite Hd in Hx. by rewrite Hx.
  - unfold register, isRegistered. destruct (negb (isInjectable cls)); [done|].
    simpl. rewrite lookup_insert_ne by lia. done.
  - intros Hinj. unfold register, isRegistered. rewrite Hinj. simpl.
    rewrite lookup_insert_eq. by apply bool_decide_eq_true.
Qed.

Lemma created_tokens_are_distinct_witness :
  let toks := (createTokens ["Logger"; "Logger"] 0).1 in
  ∃ t1 t2, toks = [t1; t2] ∧ description t1 = description t2 ∧
    key t1 ≠ key t2 ∧
    isRegistered t2 (register t1 (Ctor Example.ConsoleLogger) empty_container).2 = false.
Proof.
  intros toks. eexists _, _. split; [vm_compute; reflexivity|]. split; [reflexivity|].
  destruct (created_tokens_are_distinct ["Logger"; "Logger"] 0 0 1 _ _
              Example.ConsoleLogger empty_container eq_refl eq_refl)
    as (_ & Hk & Hr & _); [lia|].
  split; [exact Hk|]. rewrite Hr. vm_compute. reflexivity.
Defined.


(** ** The error for a parameter without [@inject] *)

Lemma resolve_missing_inject fuel : ∀ tok s t s',
  resolve fuel tok s =
    Some (Throw (InvalidConstructorError t
                   "Missing @inject decorator for constructor parameter"), s') →
  ∃ b slots, bindings (this s) !! key t = Some b ∧
    getInjectTokens (implementation b) = Some slots ∧ Undef ∈ slots.
Proof.
  induction fuel as [|fuel IH]; intros tok s t s' H; [done|].
  apply resolve_cases in H.
  inversion H as [ | | | b f r s2 Hfuel Hb Hf Hn Hc]; subst.
  injection Hfuel as <-.
  apply (createInstance_Throw _ (resolve_post fuel)) in Hc
    as [[cause He]|[[Hu He]|[(dep & _ & He & _)|(dep & sa & _ & F & Hr)]]].
  - exfalso. injection He as _ He. unfold instantiate_prefix in He.
    destruct (getInjectTokens (implementation b)) as [[|? ?]|]; simpl in He;
      discriminate He.
  - injection He as ->. exists b.
    destruct (getInjectTokens (implementation b)) as [slots|]; simpl in Hu.
    + by exists slots.
    + by apply elem_of_nil in Hu.
  - discriminate He.
  - destruct (IH _ _ _ _ Hr) as (b' & slots & Hb' & Hs & Hu).
    exists b', slots. split; [|done].
    by rewrite (frame_bindings _ _ F) in Hb'.
Qed.

(** X19. [resolve] throws the [InvalidConstructorError] with the text
    [Missing @inject decorator for constructor parameter] only for a
    registered token whose class has [undefined] in a slot of its token
    array; an empty slot, which is what an undecorated parameter below a
    decorated one leaves, never raises it.  And it does throw it, for the
    requested token, when the slots before the first [undefined] one have
    been resolved; the path is restored. *)
Theorem missing_inject_error_needs_undefined_slot :
  (∀ fuel tok s t s',
     resolve fuel tok s =
       Some (Throw (InvalidConstructorError t
                      "Missing @inject decorator for constructor parameter"), s') →
     ∃ b slots, bindings (this s) !! key t = Some b ∧
       getInjectTokens (implementation b) = Some slots ∧ Undef ∈ slots) ∧
  (∀ fuel tok s b pre rest args s1,
     bindings (this s) !! key tok = Some b →
     in_flight tok (resolutionStack (this s)) = false →
     (lifecycle b = Singleton → singletons (this s) !! key tok = None) →
     getInjectTokens (implementation b) = Some (pre ++ Undef :: rest) →
     resolveDeps (resolve fuel) tok pre (entered tok s) = Some (Return args, s1) →
     resolve (S fuel) tok s =
       Some (Throw (InvalidConstructorError tok
                      "Missing @inject decorator for constructor parameter"),
             {| this := with_stack (resolutionStack (this s)) (this s1);
                heap := heap s1 |})).
Proof.
  split; [apply resolve_missing_inject|].
  intros fuel tok s b pre rest args s1 Hb Hf Hn Ht Hp.
  pose proof (proj1 (resolveDeps_post _ (resolve_post fuel) _ _ _ _ _ Hp)) as F.
  erewrite resolve_propagates; [|done..|].
  2:{ unfold createInstance. rewrite Ht.
      rewrite (resolveDeps_app_throw (resolve fuel) tok pre (Undef :: rest)
                 (entered tok s) args s1
                 (InvalidConstructorError tok
                    "Missing @inject decorator for constructor parameter") s1 Hp eq_refl).
      by destruct pre. }
  unfold pop. rewrite (frame_stack _ _ F). simpl. by rewrite removelast_last.
Qed.

Lemma missing_inject_error_needs_undefined_slot_witness :
  let Repository := Example.plain 7 "Repository" (Some Transient)
                      (Some [Hole; Tok Example.Logger; Undef]) in
  let s := Example.fresh [(Example.Logger, Example.ConsoleLogger);
                          (Example.Database, Repository)] in
  ∃ s', resolve 3 Example.Database s =
          Some (Throw (InvalidConstructorError Example.Database
                         "Missing @inject decorator for constructor parameter"), s') ∧
    ∃ b slots, bindings (this s) !! key Example.Database = Some b ∧
      getInjectTokens (implementation b) = Some slots ∧ Undef ∈ slots.
Proof.
  intros Repository s.
  pose proof (proj2 missing_inject_error_needs_undefined_slot 2 Example.Database s
                {| implementation := Repository; lifecycle := Transient;
                   token := Example.Database |}
                [Hole; Tok Example.Logger] [] [VUndefined; VObject 0]
                {| this := cache Example.Logger (VObject 0)
                             (this (entered Example.Database s));
                   heap := [{| obj_class := 0; obj_fields := [] |}] |}
                ltac:(vm_compute; reflexivity) ltac:(vm_compute; reflexivity)
                ltac:(discriminate) ltac:(vm_compute; reflexivity)
                ltac:(vm_compute; reflexivity)) as Hthrows.
  eexists. split; [exact Hthrows|].
  exact (proj1 missing_inject_error_needs_undefined_slot _ _ _ _ _ Hthrows).
Defined.

End InjectMoreFacts.

Module AmbientMoreFacts.
Import Ambient AmbientFacts AmbientMore.

Lemma container_at_update c f w c' :
  container_at (update c f w) c' =
    if decide (c' = c ∧ c < length (containers w)) then f (container_at w c)
    else container_at w c'.
Proof.
  unfold container_at, update. simpl. case_decide as H.
  - destruct H as [-> Hlt]. by rewrite list_lookup_insert_eq.
  - destruct (decide (c' = c)) as [->|Hne].
    + rewrite list_insert_ge by lia. done.
    + by rewrite list_lookup_insert_ne.
Qed.

Lemma singletons_update c f w c' :
  (∀ C, singletons (f C) = singletons C) →
  singletons (container_at (update c f w) c') = singletons (container_at w c').
Proof.
  intros Hf. rewrite container_at_update. case_decide as H; [|done].
  destruct H as [-> _]. apply Hf.
Qed.

Lemma caches_kept_refl w : caches_kept w w.
Proof. by intros c k v. Qed.

Lemma caches_kept_trans w1 w2 w3 :
  caches_kept w1 w2 → caches_kept w2 w3 → caches_kept w1 w3.
Proof. intros H1 H2 c k v H. by apply H2, H1. Qed.

Section Kept.
Variable rec : nat → Token → World → option (Completion Value * World).
Hypothesis rec_kept : ∀ c t w r w', rec c t w = Some (r, w') → caches_kept w w'.

Lemma run_ctor_kept body : ∀ w r w',
  run_ctor rec body w = Some (r, w') → caches_kept w w'.
Proof.
  induction body as [|stmt rest IH]; intros w r w' H; simpl in H.
  - simplify_eq. apply caches_kept_refl.
  - destruct stmt as [t|c t|e].
    + destruct (getContainer w) as [c|e]; [|simplify_eq; apply caches_kept_refl].
      destruct (rec c t w) as [[[v|e] w1]|] eqn:E; simplify_eq.
      * apply rec_kept in E.
        destruct (run_ctor rec rest w1) as [[[vs|e] w2]|] eqn:E2; simplify_eq;
          eapply caches_kept_trans; eauto.
      * by eapply rec_kept.
    + destruct (rec c t w) as [[[v|e] w1]|] eqn:E; simplify_eq.
      * apply rec_kept in E.
        destruct (run_ctor rec rest w1) as [[[vs|e] w2]|] eqn:E2; simplify_eq;
          eapply caches_kept_trans; eauto.
      * by eapply rec_kept.
    + simplify_eq. apply caches_kept_refl.
Qed.

Lemma createInstance_kept tok cls w r w' :
  createInstance rec tok cls w = Some (r, w') → caches_kept w w'.
Proof.
  unfold createInstance. intros H.
  destruct (run_ctor rec (ctor_body cls) w) as [[[fields|e] w1]|] eqn:E; simplify_eq;
    by apply run_ctor_kept in E.
Qed.
End Kept.

Lemma entered_kept c tok w : caches_kept w (entered c tok w).
Proof.
  intros c' k v H. unfold entered. by rewrite singletons_update.
Qed.

Lemma settle_kept c tok b previous r w w3 :
  (lifecycle b = Singleton → singletons (container_at w c) !! key tok = None) →
  caches_kept w w3 → caches_kept w (settle c tok b previous r w3).
Proof.
  intros Hn Hk c' k v H. unfold settle.
  assert (singletons (container_at
            match r, lifecycle b with
            | Return instance, Singleton => update c (cache tok instance) w3
            | _, _ => w3
            end c') !! k = Some v) as H4.
  { destruct r as [inst|e]; [|by apply Hk].
    destruct (lifecycle b) eqn:Hl; [|by apply Hk].
    rewrite container_at_update. case_decide as Hc; [|by apply Hk].
    destruct Hc as [-> _]. simpl.
    destruct (decide (k = key tok)) as [->|Hne].
    - rewrite Hn in H; done.
    - rewrite lookup_insert_ne by done. by apply Hk. }
  assert (∀ w4, singletons (container_at w4 c') !! k = Some v →
                singletons (container_at (update c pop w4) c') !! k = Some v) as H5.
  { intros w4 Hw. by rewrite singletons_update. }
  destruct previous; simpl; by apply H5.
Qed.

Lemma resolve_kept fuel : ∀ c tok w r w',
  resolve fuel c tok w = Some (r, w') → caches_kept w w'.
Proof.
  induction fuel as [|fuel IH]; [done|].
  intros c tok w r w' H. apply ambient_resolve_cases in H.
  destruct H as [Hb | b Hb Hf | b v Hb Hf Hl Hs | b f r w3 [= <-] Hb Hf Hn Hc];
    try apply caches_kept_refl.
  apply settle_kept; [done|].
  eapply caches_kept_trans; [apply entered_kept|].
  by eapply createInstance_kept.
Qed.


(** ** Singletons of the ambient container *)

Lemma entered_length c tok w : length (containers (entered c tok w)) = length (containers w).
Proof. unfold entered, update. simpl. by rewrite length_insert. Qed.

Lemma frame_length w w' : frame w w' → length (containers w') = length (containers w).
Proof.
  intros [Hs _ _]. apply (f_equal length) in Hs. by rewrite !length_fmap in Hs.
Qed.

Lemma ambient_resolve_singleton_cached fuel c tok w v w' b :
  bindings (container_at w c) !! key tok = Some b → lifecycle b = Singleton →
  resolve fuel c tok w = Some (Return v, w') →
  singletons (container_at w' c) !! key tok = Some v.
Proof.
  intros Hb Hl H. apply ambient_resolve_cases in H.
  inversion H as [ | | b' v' Hb' Hf' Hl' Hs' | b' f r w3 Hfuel Hb' Hf' Hn' Hc]; subst.
  - done.
  - assert (b' = b) as -> by congruence.
    pose proof (createInstance_frame _ (ambient_resolve_frame f) _ _ _ _ _ Hc) as F.
    assert (c < length (containers w3)) as Hlt.
    { rewrite (frame_length _ _ F), entered_length.
      apply bound_in_range in Hb. by eapply lookup_lt_Some. }
    unfold settle. rewrite Hl.
    assert (singletons (container_at (update c pop (update c (cache tok v) w3)) c)
              !! key tok = Some v) as Hgoal.
    { rewrite singletons_update by done. rewrite container_at_update.
      rewrite decide_True by (split; [done|]; unfold update; simpl;
                              by rewrite ?length_insert).
      simpl. by rewrite lookup_insert_eq. }
    by destruct (activeContainer w).
Qed.

Lemma step_kept_at c op w w' k v :
  keeps_cache_of c op = true → step op w = Some w' →
  singletons (container_at w c) !! k = Some v →
  singletons (container_at w' c) !! k = Some v.
Proof.
  destruct op as [|c'|c' tok impl|fuel c' tok|fuel tok|c' tok|c'|c']; simpl;
    intros Hop H Hs.
  - simplify_eq. unfold container_at, new_container in *. simpl.
    destruct (containers w !! c) as [C|] eqn:E.
    + by rewrite (lookup_app_l_Some _ _ _ _ E).
    + simpl in Hs. by rewrite lookup_empty in Hs.
  - by simplify_eq.
  - simplify_eq. rewrite singletons_update; [done|].
    intros C. unfold register. destruct impl as [|cls]; [done|].
    by destruct (negb (isInjectable cls)).
  - destruct (resolve fuel c' tok w) as [[r w1]|] eqn:E; [|done].
    injection H as <-. by apply (resolve_kept _ _ _ _ _ _ E).
  - unfold get in H. destruct (getContainer w) as [a|e]; [|by injection H as <-].
    destruct (resolve fuel a tok w) as [[r w1]|] eqn:E; [|done].
    injection H as <-. by apply (resolve_kept _ _ _ _ _ _ E).
  - by simplify_eq.
  - simplify_eq. rewrite container_at_update.
    apply negb_true_iff, Nat.eqb_neq in Hop. rewrite decide_False; [done|].
    intros [-> _]. done.
  - simplify_eq. rewrite container_at_update.
    apply negb_true_iff, Nat.eqb_neq in Hop. rewrite decide_False; [done|].
    intros [-> _]. done.
Qed.

Lemma run_kept_at c ops : ∀ w w' k v,
  forallb (keeps_cache_of c) ops = true → run ops w = Some w' →
  singletons (container_at w c) !! k = Some v →
  singletons (container_at w' c) !! k = Some v.
Proof.
  induction ops as [|op rest IH]; intros w w' k v Hops H Hs; simpl in *.
  - by simplify_eq.
  - apply andb_true_iff in Hops as [Hop Hrest].
    destruct (step op w) as [w1|] eqn:E; [|done].
    eapply IH; [done..|]. by eapply step_kept_at.
Qed.

(** X15. in the ambient container, two successful [resolve] calls on one
    container for a token bound as a singleton return the identical
    instance, and the second changes nothing, whatever happens in the
    process between them (containers created, activated, registered to,
    resolved from, other containers cleared or reset), as long as this
    container is not cleared or reset. *)
Theorem ambient_singleton_resolves_identical
    f1 f2 c tok ops w0 w1 w2 w3 v1 v2 b1 b2 :
  bindings (container_at w0 c) !! key tok = Some b1 → lifecycle b1 = Singleton →
  resolve f1 c tok w0 = Some (Return v1, w1) →
  forallb (keeps_cache_of c) ops = true → run ops w1 = Some w2 →
  bindings (container_at w2 c) !! key tok = Some b2 → lifecycle b2 = Singleton →
  resolve f2 c tok w2 = Some (Return v2, w3) →
  v2 = v1 ∧ w3 = w2.
Proof.
  intros Hb1 Hl1 H1 Hops Hrun Hb2 Hl2 H2.
  pose proof (ambient_resolve_singleton_cached _ _ _ _ _ _ _ Hb1 Hl1 H1) as Hc1.
  pose proof (run_kept_at _ _ _ _ _ _ Hops Hrun Hc1) as Hc2.
  apply ambient_resolve_cases in H2.
  inversion H2 as [ | | b v Hb Hf Hl Hs | b f r w4 Hfuel Hb Hf Hn Hc]; subst.
  - split; [congruence | done].
  - assert (b = b2) as -> by congruence. rewrite Hn in Hc2; done.
Qed.

Lemma ambient_singleton_resolves_identical_witness :
  ∃ w1 w2 v,
    resolve 2 0 Example.EmailService Example.production = Some (Return v, w1) ∧
    run [Resolve 3 0 Example.UserNotificationService; Clear 1; NewContainer;
         GetActive 3 Example.Audit] w1 = Some w2 ∧
    resolve 1 0 Example.EmailService w2 = Some (Return v, w2) ∧
    v = v ∧ w2 = w2.
Proof.
  eexists _, _, _.
  split; [vm_compute; reflexivity|]. split; [vm_compute; reflexivity|].
  split; [vm_compute; reflexivity|].
  eapply (ambient_singleton_resolves_identical 2 1 0 Example.EmailService
            [Resolve 3 0 Example.UserNotificationService; Clear 1; NewContainer;
             GetActive 3 Example.Audit] Example.production);
    vm_compute; reflexivity.
Defined.

(** ** The failures of the ambient [resolve] *)




(** ** A cycle through constructors *)


Lemma ambient_in_flight_last tok stack : in_flight tok (stack ++ [tok]) = true.
Proof.
  unfold in_flight. rewrite existsb_app. simpl.
  unfold symbol_eqb. rewrite Nat.eqb_refl. by rewrite orb_true_r.
Qed.





(** ** [get] outside a constructor *)

(** X18. [get(token)] called outside any constructor is [resolve(token)]
    on the container that [setContainer] installed, and that container is
    still the active one when the call has ended, however it ended; with
    no container active [get] throws [NoActiveContainerError] and changes
    nothing. *)
Theorem get_uses_installed_container fuel c tok w :
  get fuel tok (setContainer c w) = resolve fuel c tok (setContainer c w) ∧
  (∀ r w', get fuel tok (setContainer c w) = Some (r, w') →
           getContainer w' = Return c) ∧
  (activeContainer w = None →
   get fuel tok w = Some (Throw NoActiveContainerError, w)).
Proof.
  split; [done|]. split.
  - intros r w' H. change (resolve fuel c tok (setContainer c w) = Some (r, w')) in H.
    apply ambient_resolve_frame in H as [_ _ Ha].
    unfold getContainer. by rewrite (Ha c eq_refl).
  - intros Hnone. unfold get, getContainer. by rewrite Hnone.
Qed.

Lemma get_uses_installed_container_witness :
  (∃ v w', get 3 Example.UserNotificationService (setContainer 0 Example.production)
             = Some (Return v, w') ∧ getContainer w' = Return 0) ∧
  get 3 Example.Logger Example.production
    = Some (Throw NoActiveContainerError, Example.production).
Proof.
  destruct (get_uses_installed_container 3 0 Example.UserNotificationService
              Example.production) as (_ & H & _).
  destruct (get_uses_installed_container 3 0 Example.Logger Example.production)
    as (_ & _ & Hn).
  split.
  - eexists _, _. split; [vm_compute; reflexivity|].
    eapply H. vm_compute. reflexivity.
  - apply Hn. vm_compute. reflexivity.
Defined.

(** ** Containers do not interfere *)

Lemma uses_only_get_frame w w' c :
  frame w w' → uses_only_get (container_at w c) → uses_only_get (container_at w' c).
Proof.
  intros [Hs _ _] H. pose proof (shape_at _ _ c Hs) as Hat.
  unfold shape in Hat. injection Hat as Hb _ _. unfold uses_only_get. by rewrite Hb.
Qed.

Section Local.
Variable rec : nat → Token → World → option (Completion Value * World).
Variable c : nat.
Hypothesis rec_frame : ∀ c' t w r w', rec c' t w = Some (r, w') → frame w w'.
Hypothesis rec_local : ∀ t w r w',
  uses_only_get (container_at w c) → rec c t w = Some (r, w') →
  ∀ c', c' ≠ c → container_at w' c' = container_at w c'.

Lemma run_ctor_local body : ∀ w r w',
  forallb local_stmt body = true →
  activeContainer w = Some c → uses_only_get (container_at w c) →
  run_ctor rec body w = Some (r, w') →
  ∀ c', c' ≠ c → container_at w' c' = container_at w c'.
Proof.
  induction body as [|stmt rest IH]; intros w r w' Hbody Ha Hu H c' Hne; simpl in *.
  - by simplify_eq.
  - apply andb_true_iff in Hbody as [Hstmt Hrest].
    destruct stmt as [t|c0 t|e]; [| done |by simplify_eq].
    unfold getContainer in H. rewrite Ha in H.
    destruct (rec c t w) as [[[v|e] w1]|] eqn:E; simplify_eq.
    2:{ exact (rec_local _ _ _ _ Hu E c' Hne). }
    pose proof (rec_frame _ _ _ _ _ E) as F.
    assert (container_at w' c' = container_at w1 c') as ->.
    { destruct (run_ctor rec rest w1) as [[[vs|e] w2]|] eqn:E2; simplify_eq;
        eapply (IH w1); eauto using uses_only_get_frame, frame_active. }
    exact (rec_local _ _ _ _ Hu E c' Hne).
Qed.

Lemma createInstance_local tok cls w r w' :
  forallb local_stmt (ctor_body cls) = true →
  activeContainer w = Some c → uses_only_get (container_at w c) →
  createInstance rec tok cls w = Some (r, w') →
  ∀ c', c' ≠ c → container_at w' c' = container_at w c'.
Proof.
  unfold createInstance. intros Hbody Ha Hu H c' Hne.
  destruct (run_ctor rec (ctor_body cls) w) as [[[fields|e] w1]|] eqn:E; simplify_eq;
    exact (run_ctor_local _ _ _ _ Hbody Ha Hu E c' Hne).
Qed.
End Local.

Lemma container_at_other c f w c' :
  c' ≠ c → container_at (update c f w) c' = container_at w c'.
Proof.
  intros Hne. rewrite container_at_update. rewrite decide_False; [done|].
  by intros [? _].
Qed.

Lemma settle_other c tok b previous r w3 c' :
  c' ≠ c → container_at (settle c tok b previous r w3) c' = container_at w3 c'.
Proof.
  intros Hne. unfold settle.
  assert (container_at
            (update c pop
               match r, lifecycle b with
               | Return instance, Singleton => update c (cache tok instance) w3
               | _, _ => w3
               end) c' = container_at w3 c') as H.
  { rewrite container_at_other by done.
    destruct r; [destruct (lifecycle b)|]; try done. by rewrite container_at_other. }
  by destruct previous.
Qed.

Lemma resolve_local fuel : ∀ c tok w r w',
  uses_only_get (container_at w c) →
  resolve fuel c tok w = Some (r, w') →
  ∀ c', c' ≠ c → container_at w' c' = container_at w c'.
Proof.
  induction fuel as [|fuel IH]; [done|].
  intros c tok w r w' Hu H c' Hne. apply ambient_resolve_cases in H.
  destruct H as [Hb | b Hb Hf | b v Hb Hf Hl Hs | b f r w3 [= <-] Hb Hf Hn Hc];
    try done.
  rewrite settle_other by done.
  assert (container_at (entered c tok w) c' = container_at w c') as <-
    by (unfold entered; by rewrite container_at_other).
  eapply (createInstance_local _ c (ambient_resolve_frame fuel)); [| | | |exact Hc|done].
  - intros t w0 r0 w0'. apply IH.
  - exact (Hu _ _ Hb).
  - done.
  - unfold uses_only_get. rewrite (container_at_entered _ _ _ _ Hb). exact Hu.
Qed.

(** X20. When no constructor of the classes bound in a container calls
    [resolve] on a container reference, a [resolve] on that container
    changes no other container, whichever container is the active one and
    however the call ends: every [get] of the constructors it runs goes to
    the resolving container. *)
Theorem resolve_touches_one_container fuel c tok w r w' :
  uses_only_get (container_at w c) →
  resolve fuel c tok w = Some (r, w') →
  length (containers w') = length (containers w) ∧
  ∀ c', c' ≠ c → container_at w' c' = container_at w c'.
Proof.
  intros Hu H. split.
  - apply frame_length. by eapply ambient_resolve_frame.
  - by eapply resolve_local.
Qed.

Lemma resolve_touches_one_container_witness :
  let w := setContainer 1
             (Example.registered 1 [(Example.Logger, Example.ConsoleLogger)]
                Example.production) in
  ∃ v w', resolve 3 0 Example.UserNotificationService w = Some (Return v, w') ∧
    length (containers w') = length (containers w) ∧
    container_at w' 1 = container_at w 1.
Proof.
  intros w. eexists _, _. split; [vm_compute; reflexivity|].
  destruct (resolve_touches_one_container 3 0 Example.UserNotificationService w
              (Return (VObject 2)) _
              ltac:(apply (bool_decide_unpack _); vm_compute; reflexivity)
              ltac:(vm_compute; reflexivity)) as [Hl Ho].
  split; [exact Hl|]. apply Ho. lia.
Defined.

End AmbientMoreFacts.

(** * A cycle of two tokens *)

Module CycleFacts.
Import Inject InjectFacts InjectMore InjectMoreFacts.

(** While [A] is in flight, a class that declares [A] cannot be
    constructed, so a token bound to it gets no cache entry. *)
Section Blocked.
Variable rec : Token → State → option (Completion Value * State).
Variables A B : Token.
Variable bB : Binding.
Variable slotsB : list Slot.
Hypothesis slots_of_B : getInjectTokens (implementation bB) = Some slotsB.
Hypothesis B_declares_A : Tok A ∈ slotsB.
Hypothesis rec_post : ∀ t s r s', rec t s = Some (r, s') → post s r s'.
Hypothesis rec_fails : ∀ s v s',
  in_flight A (resolutionStack (this s)) = true → rec A s ≠ Some (Return v, s').
Hypothesis rec_keeps : ∀ d s r s',
  in_flight A (resolutionStack (this s)) = true →
  bindings (this s) !! key B = Some bB →
  singletons (this s) !! key B = None →
  rec d s = Some (r, s') → singletons (this s') !! key B = None.

Lemma resolveDeps_blocked tok slots : ∀ s args s',
  Tok A ∈ slots →
  in_flight A (resolutionStack (this s)) = true →
  resolveDeps rec tok slots s ≠ Some (Return args, s').
Proof.
  induction slots as [|slot rest IH]; intros s args s' Hin Hf H; simpl in H.
  - by apply elem_of_nil in Hin.
  - apply elem_of_cons in Hin. destruct slot as [| |dep].
    + destruct Hin as [Heq|Hin]; [done|].
      destruct (resolveDeps rec tok rest s) as [[[vs|e] s1]|] eqn:E; simplify_eq.
      by eapply IH.
    + done.
    + destruct (bindings (this s) !! key dep); [|done].
      destruct (rec dep s) as [[[v|e] s1]|] eqn:E; simplify_eq.
      destruct Hin as [Heq|Hin].
      * injection Heq as <-. by eapply rec_fails.
      * destruct (resolveDeps rec tok rest s1) as [[[vs|e] s2]|] eqn:E2; simplify_eq.
        eapply IH; [done| |exact E2].
        by rewrite (frame_stack _ _ (proj1 (rec_post _ _ _ _ E))).
Qed.

Lemma createInstance_blocked tok s v s' :
  in_flight A (resolutionStack (this s)) = true →
  createInstance rec tok (implementation bB) s ≠ Some (Return v, s').
Proof.
  intros Hf H. apply createInstance_Return in H as (args & s1 & Hd & _).
  rewrite slots_of_B in Hd. simpl in Hd. by eapply resolveDeps_blocked.
Qed.

Lemma resolveDeps_keeps tok slots : ∀ s r s',
  in_flight A (resolutionStack (this s)) = true →
  bindings (this s) !! key B = Some bB →
  singletons (this s) !! key B = None →
  resolveDeps rec tok slots s = Some (r, s') →
  singletons (this s') !! key B = None.
Proof.
  induction slots as [|slot rest IH]; intros s r s' Hf Hb Hn H; simpl in H.
  - by simplify_eq.
  - destruct slot as [| |dep].
    + destruct (resolveDeps rec tok rest s) as [[[vs|e] s1]|] eqn:E; simplify_eq;
        by eapply IH.
    + by simplify_eq.
    + destruct (bindings (this s) !! key dep); [|by simplify_eq].
      destruct (rec dep s) as [[[v|e] s1]|] eqn:E; simplify_eq.
      2:{ by eapply rec_keeps. }
      pose proof (proj1 (rec_post _ _ _ _ E)) as F.
      assert (singletons (this s1) !! key B = None) as Hn1 by by eapply rec_keeps.
      destruct (resolveDeps rec tok rest s1) as [[[vs|e] s2]|] eqn:E2; simplify_eq;
        (eapply IH; [| | |exact E2];
         [by rewrite (frame_stack _ _ F) | by rewrite (frame_bindings _ _ F) | done]).
Qed.

Lemma createInstance_keeps tok cls s r s' :
  in_flight A (resolutionStack (this s)) = true →
  bindings (this s) !! key B = Some bB →
  singletons (this s) !! key B = None →
  createInstance rec tok cls s = Some (r, s') →
  singletons (this s') !! key B = None.
Proof.
  unfold createInstance, construct. intros Hf Hb Hn H.
  destruct (getInjectTokens cls) as [[|slot rest]|].
  - destruct (ctor_body cls []); by simplify_eq.
  - destruct (resolveDeps rec tok (slot :: rest) s) as [[[args|e] s1]|] eqn:E;
      simplify_eq.
    + destruct (ctor_body cls args); simplify_eq; simpl; by eapply resolveDeps_keeps.
    + by eapply resolveDeps_keeps.
  - destruct (ctor_body cls []); by simplify_eq.
Qed.
End Blocked.

Lemma resolve_blocked fuel A s v s' :
  in_flight A (resolutionStack (this s)) = true →
  resolve fuel A s ≠ Some (Return v, s').
Proof.
  intros Hf H. apply resolve_Return in H as (b & _ & Hf' & _). congruence.
Qed.

Lemma resolve_keeps_uncached A B bB slotsB fuel :
  getInjectTokens (implementation bB) = Some slotsB → Tok A ∈ slotsB →
  ∀ d s r s',
    in_flight A (resolutionStack (this s)) = true →
    bindings (this s) !! key B = Some bB →
    singletons (this s) !! key B = None →
    resolve fuel d s = Some (r, s') → singletons (this s') !! key B = None.
Proof.
  intros Hslots Hin. induction fuel as [|fuel IH]; intros d s r s' Hf Hb Hn H; [done|].
  apply resolve_cases in H.
  inversion H as [ | | | b f r0 s2 Hfuel Hbd Hfd Hnd Hc]; subst; try done.
  injection Hfuel as <-.
  assert (in_flight A (resolutionStack (this (entered d s))) = true) as Hf1
    by (simpl; by rewrite in_flight_app, Hf).
  pose proof (createInstance_keeps (resolve fuel) A B bB (resolve_post fuel) IH
                d (implementation b) (entered d s) r s2 Hf1 Hb Hn Hc) as Hn2.
  unfold settle. destruct r as [inst|e]; [destruct (lifecycle b)|]; simpl; try done.
  destruct (decide (key d = key B)) as [Heq|Hne].
  - exfalso. rewrite Heq in Hbd. assert (b = bB) as -> by congruence.
    by eapply (createInstance_blocked (resolve fuel) A bB slotsB Hslots Hin
                 (resolve_post fuel) (resolve_blocked fuel A)).
  - by rewrite lookup_insert_ne.
Qed.

Lemma in_flight_other A B : key A ≠ key B → in_flight B [A] = false.
Proof.
  intros Hne. simpl. unfold symbol_eqb. rewrite orb_false_r.
  apply Nat.eqb_neq. exact Hne.
Qed.

(** The cycle from one side. *)
Lemma cycle_at_back_edge fuel A B s bA bB preA restA preB restB argsA sA argsB sB :
  bindings (this s) !! key A = Some bA →
  getInjectTokens (implementation bA) = Some (preA ++ Tok B :: restA) →
  bindings (this s) !! key B = Some bB →
  getInjectTokens (implementation bB) = Some (preB ++ Tok A :: restB) →
  key A ≠ key B →
  resolutionStack (this s) = [] →
  singletons (this s) !! key A = None →
  singletons (this s) !! key B = None →
  resolveDeps (resolve fuel) A preA (entered A s) = Some (Return argsA, sA) →
  resolveDeps (resolve fuel) B preB (entered B sA) = Some (Return argsB, sB) →
  let s' := {| this := with_stack [] (this sB); heap := heap sB |} in
  (∀ fuel', 3 + fuel ≤ fuel' →
     resolve fuel' A s = Some (Throw (CircularDependencyError [A; B; A]), s')) ∧
  singletons (this s') !! key A = None ∧
  singletons (this s') !! key B = None ∧
  bindings (this s') = bindings (this s).
Proof.
  intros HbA HtA HbB HtB Hne Hst HsA HsB HpA HpB s'.
  pose proof (proj1 (resolveDeps_post _ (resolve_post fuel) _ _ _ _ _ HpA)) as FA.
  pose proof (proj1 (resolveDeps_post _ (resolve_post fuel) _ _ _ _ _ HpB)) as FB.
  assert (resolutionStack (this sA) = [A]) as HstA
    by (rewrite (frame_stack _ _ FA); simpl; by rewrite Hst).
  assert (resolutionStack (this sB) = [A; B]) as HstB
    by (rewrite (frame_stack _ _ FB); simpl; by rewrite HstA).
  assert (bindings (this sA) = bindings (this s)) as HbsA
    by exact (frame_bindings _ _ FA).
  assert (bindings (this sB) = bindings (this s)) as HbsB
    by (rewrite (frame_bindings _ _ FB); exact HbsA).
  assert (singletons (this sA) !! key A = None) as HcA.
  { rewrite (resolveDeps_in_flight (resolve fuel) A (resolve_post fuel)
               (resolve_in_flight_entry fuel A) A preA (entered A s) _ _
               (in_flight_last A _) HpA). done. }
  assert (singletons (this sA) !! key B = None) as HcB.
  { eapply (resolveDeps_keeps (resolve fuel) A B bB (resolve_post fuel)
              (resolve_keeps_uncached A B bB (preB ++ Tok A :: restB) fuel HtB
                 ltac:(apply elem_of_app; right; apply list_elem_of_here)));
      [| | |exact HpA]; [apply in_flight_last | done | done]. }
  assert (singletons (this sB) !! key A = None) as HcA'.
  { assert (in_flight A (resolutionStack (this (entered B sA))) = true) as Hf.
    { simpl. rewrite HstA. simpl. unfold symbol_eqb. by rewrite Nat.eqb_refl. }
    rewrite (resolveDeps_in_flight (resolve fuel) A (resolve_post fuel)
               (resolve_in_flight_entry fuel A) B preB _ _ _ Hf HpB). done. }
  assert (singletons (this sB) !! key B = None) as HcB'.
  { rewrite (resolveDeps_in_flight (resolve fuel) B (resolve_post fuel)
               (resolve_in_flight_entry fuel B) B preB (entered B sA) _ _
               (in_flight_last B _) HpB). done. }
  split; [|by split].
  intros fuel' Hfuel. apply (resolve_fuel_mono (S (S (S fuel)))); [lia|].
  (* the innermost call: [A] is in flight *)
  assert (H0 : resolve (S fuel) A sB =
               Some (Throw (CircularDependencyError [A; B; A]), sB)).
  { erewrite resolve_in_flight; [by rewrite HstB | by rewrite HbsB |].
    rewrite HstB. simpl. unfold symbol_eqb. by rewrite Nat.eqb_refl. }
  assert (HpB1 : resolveDeps (resolve (S fuel)) B preB (entered B sA)
                 = Some (Return argsB, sB)).
  { eapply resolveDeps_mono; [|exact HpB]. intros t0 s0 x0.
    apply resolve_fuel_mono. lia. }
  assert (H1 : resolve (S (S fuel)) B sA =
               Some (Throw (CircularDependencyError [A; B; A]),
                     {| this := pop (this sB); heap := heap sB |})).
  { apply resolve_propagates with (b := bB).
    - by rewrite HbsA.
    - rewrite HstA. by apply in_flight_other.
    - done.
    - unfold createInstance. rewrite HtB.
      rewrite (resolveDeps_app_throw (resolve (S fuel)) B preB (Tok A :: restB)
                 (entered B sA) argsB sB (CircularDependencyError [A; B; A]) sB HpB1).
      + by destruct preB.
      + cbn [resolveDeps]. rewrite HbsB, HbA. by rewrite H0. }
  assert (HpA2 : resolveDeps (resolve (S (S fuel))) A preA (entered A s)
                 = Some (Return argsA, sA)).
  { eapply resolveDeps_mono; [|exact HpA]. intros t0 s0 x0.
    apply resolve_fuel_mono. lia. }
  erewrite resolve_propagates; [|exact HbA|by rewrite Hst|done|].
  2:{ unfold createInstance. rewrite HtA.
      rewrite (resolveDeps_app_throw (resolve (S (S fuel))) A preA (Tok B :: restA)
                 (entered A s) argsA sA (CircularDependencyError [A; B; A])
                 {| this := pop (this sB); heap := heap sB |} HpA2).
      + by destruct preA.
      + cbn [resolveDeps]. rewrite HbsA, HbB. by rewrite H1. }
  unfold s', pop. simpl. by rewrite HstB.
Qed.

(** C3, amended.  The class bound to [A] declares [B] and the class bound
    to [B] declares [A]; the tokens are different, nothing is in flight
    and neither token has a cached instance.  When the dependencies that
    [A]'s class declares before [B], and then those that [B]'s class
    declares before [A], resolve, [resolve(A)] fails with
    [CircularDependency] and the chain [A, B, A]; entered from [B], under
    the same condition with the roles exchanged, [resolve(B)] fails with
    the chain [B, A, B].  After the failure the cache has no entry for [A]
    or [B], and the bindings are as before. *)
Theorem two_token_cycle_detected fuel A B s bA bB preA restA preB restB :
  bindings (this s) !! key A = Some bA →
  getInjectTokens (implementation bA) = Some (preA ++ Tok B :: restA) →
  bindings (this s) !! key B = Some bB →
  getInjectTokens (implementation bB) = Some (preB ++ Tok A :: restB) →
  key A ≠ key B →
  resolutionStack (this s) = [] →
  singletons (this s) !! key A = None →
  singletons (this s) !! key B = None →
  (∀ argsA sA argsB sB,
     resolveDeps (resolve fuel) A preA (entered A s) = Some (Return argsA, sA) →
     resolveDeps (resolve fuel) B preB (entered B sA) = Some (Return argsB, sB) →
     ∃ s',
       (∀ fuel', 3 + fuel ≤ fuel' →
          resolve fuel' A s = Some (Throw (CircularDependencyError [A; B; A]), s')) ∧
       singletons (this s') !! key A = None ∧
       singletons (this s') !! key B = None ∧
       resolutionStack (this s') = [] ∧
       bindings (this s') = bindings (this s)) ∧
  (∀ argsB sB argsA sA,
     resolveDeps (resolve fuel) B preB (entered B s) = Some (Return argsB, sB) →
     resolveDeps (resolve fuel) A preA (entered A sB) = Some (Return argsA, sA) →
     ∃ s',
       (∀ fuel', 3 + fuel ≤ fuel' →
          resolve fuel' B s = Some (Throw (CircularDependencyError [B; A; B]), s')) ∧
       singletons (this s') !! key A = None ∧
       singletons (this s') !! key B = None ∧
       resolutionStack (this s') = [] ∧
       bindings (this s') = bindings (this s)) ∧
  error_message (CircularDependencyError [A; B; A]) =
    Some ("Circular dependency detected: " +:+ description A +:+ " -> " +:+
          description B +:+ " -> " +:+ description A).
Proof.
  intros HbA HtA HbB HtB Hne Hst HsA HsB. split; [|split; [|done]].
  - intros argsA sA argsB sB HpA HpB.
    destruct (cycle_at_back_edge fuel A B s bA bB preA restA preB restB
                argsA sA argsB sB HbA HtA HbB HtB Hne Hst HsA HsB HpA HpB)
      as (Hr & HcA & HcB & Hbs).
    eexists. split; [exact Hr|]. by repeat split.
  - intros argsB sB argsA sA HpB HpA.
    destruct (cycle_at_back_edge fuel B A s bB bA preB restB preA restA
                argsB sB argsA sA HbB HtB HbA HtA (not_eq_sym Hne) Hst HsB HsA HpB HpA)
      as (Hr & HcB & HcA & Hbs).
    eexists. split; [exact Hr|]. by repeat split.
Qed.

Lemma two_token_cycle_detected_witness :
  let AImpl := Example.plain 5 "AImpl" (Some Singleton)
                 (Some [Tok Example.Logger; Tok Example.ServiceB]) in
  let BImpl := Example.plain 6 "BImpl" (Some Singleton)
                 (Some [Tok Example.Logger; Tok Example.ServiceA]) in
  let s := Example.fresh [(Example.Logger, Example.ConsoleLogger);
                          (Example.ServiceA, AImpl); (Example.ServiceB, BImpl)] in
  (∃ s', resolve 4 Example.ServiceA s
           = Some (Throw (CircularDependencyError
                            [Example.ServiceA; Example.ServiceB; Example.ServiceA]), s') ∧
         singletons (this s') !! key Example.ServiceA = None ∧
         singletons (this s') !! key Example.ServiceB = None) ∧
  (∃ s', resolve 4 Example.ServiceB s
           = Some (Throw (CircularDependencyError
                            [Example.ServiceB; Example.ServiceA; Example.ServiceB]), s') ∧
         singletons (this s') !! key Example.ServiceA = None ∧
         singletons (this s') !! key Example.ServiceB = None).
Proof.
  intros AImpl BImpl s.
  destruct (two_token_cycle_detected 1 Example.ServiceA Example.ServiceB s
              {| implementation := AImpl; lifecycle := Singleton;
                 token := Example.ServiceA |}
              {| implementation := BImpl; lifecycle := Singleton;
                 token := Example.ServiceB |}
              [Tok Example.Logger] [] [Tok Example.Logger] [])
    as (HfromA & HfromB & _);
    [ vm_compute; reflexivity | vm_compute; reflexivity | vm_compute; reflexivity
    | vm_compute; reflexivity | vm_compute; lia | vm_compute; reflexivity
    | vm_compute; reflexivity | vm_compute; reflexivity | ].
  split.
  - destruct (HfromA _ _ _ _ ltac:(vm_compute; reflexivity) ltac:(vm_compute; reflexivity))
      as (s' & Hr & HcA & HcB & _).
    exists s'. split; [apply Hr; lia|]. by split.
  - destruct (HfromB _ _ _ _ ltac:(vm_compute; reflexivity) ltac:(vm_compute; reflexivity))
      as (s' & Hr & HcA & HcB & _).
    exists s'. split; [apply Hr; lia|]. by split.
Defined.

End CycleFacts.

(** * The active container during a construction *)

Module ActiveContainerFacts.
Import Ambient AmbientFacts AmbientMore AmbientMoreFacts.

Lemma with_active_same w : with_active (activeContainer w) w = w.
Proof. by destruct w. Qed.

(** ** [resolve_on_registry] does not look at the active container *)

Section Moves.
Variable rec : nat → Token → World → option (Completion Value * World).
Hypothesis rec_moves : ∀ a c t w, rec c t (with_active a w) = moved a (rec c t w).

Lemma run_ctor_moves a c body : ∀ w,
  run_ctor rec (direct c <$> body) (with_active a w) =
  moved a (run_ctor rec (direct c <$> body) w).
Proof.
  induction body as [|stmt rest IH]; intros w; [done|].
  assert (Hcall : ∀ c' t,
    run_ctor rec (ResolveOn c' t :: (direct c <$> rest)) (with_active a w) =
    moved a (run_ctor rec (ResolveOn c' t :: (direct c <$> rest)) w)).
  { intros c' t. cbn [run_ctor]. rewrite rec_moves.
    destruct (rec c' t w) as [[[v|e] w1]|]; [|done..]. cbn [moved].
    rewrite IH. by destruct (run_ctor rec (direct c <$> rest) w1) as [[[vs|e] w2]|]. }
  destruct stmt as [t|c' t|e]; [apply Hcall | apply Hcall | done].
Qed.

Lemma createInstance_moves a c tok cls w :
  createInstance rec tok (directed c cls) (with_active a w) =
  moved a (createInstance rec tok (directed c cls) w).
Proof.
  unfold createInstance, directed. cbn [ctor_body class_id]. rewrite run_ctor_moves.
  by destruct (run_ctor rec (direct c <$> ctor_body cls) w) as [[[fields|e] w1]|].
Qed.
End Moves.

Lemma resolve_on_registry_moves fuel : ∀ a c tok w,
  resolve_on_registry fuel c tok (with_active a w) =
  moved a (resolve_on_registry fuel c tok w).
Proof.
  induction fuel as [|fuel IH]; intros a c tok w; [done|].
  cbn [resolve_on_registry].
  change (container_at (with_active a w) c) with (container_at w c).
  destruct (bindings (container_at w c) !! key tok) as [b|]; [|done].
  destruct (in_flight tok (resolutionStack (container_at w c))); [done|].
  change (update c (push tok) (with_active a w))
    with (with_active a (update c (push tok) w)).
  rewrite (createInstance_moves _ IH).
  destruct (lifecycle b) eqn:Hl;
    [destruct (singletons (container_at w c) !! key tok); [done|]|];
    by destruct (createInstance (resolve_on_registry fuel) tok
                   (directed c (implementation b)) (update c (push tok) w))
         as [[[v|e] w3]|].
Qed.

Lemma createInstance_keeps_active rec c tok cls w r w' :
  (∀ a c t w, rec c t (with_active a w) = moved a (rec c t w)) →
  createInstance rec tok (directed c cls) w = Some (r, w') →
  activeContainer w' = activeContainer w.
Proof.
  intros Hrec H. pose proof (createInstance_moves rec Hrec (activeContainer w) c tok cls w)
    as Hm.
  rewrite with_active_same, H in Hm. by injection Hm as ->.
Qed.

(** ** The two resolutions agree *)

Section Agree.
Variables rec1 rec2 : nat → Token → World → option (Completion Value * World).
Hypothesis rec_frame : ∀ c t w r w', rec1 c t w = Some (r, w') → frame w w'.
Hypothesis rec_agree : ∀ a c t w,
  activeContainer w = Some a → rec1 c t w = rec2 c t w.

Lemma run_ctor_agree body : ∀ a w,
  activeContainer w = Some a → run_ctor rec1 body w = run_ctor rec2 body w.
Proof.
  induction body as [|stmt rest IH]; intros a w Ha; [done|].
  assert (Hcall : ∀ c t,
    run_ctor rec1 (ResolveOn c t :: rest) w = run_ctor rec2 (ResolveOn c t :: rest) w).
  { intros c t. cbn [run_ctor]. rewrite <- (rec_agree a c t w Ha).
    destruct (rec1 c t w) as [[[v|e] w1]|] eqn:E; [|done..].
    by rewrite (IH a w1 (frame_active _ _ (rec_frame _ _ _ _ _ E) a Ha)). }
  destruct stmt as [t|c t|e]; [|apply Hcall|done].
  cbn [run_ctor]. unfold getContainer. rewrite Ha. apply Hcall.
Qed.

Lemma createInstance_agree tok cls a w :
  activeContainer w = Some a →
  createInstance rec1 tok cls w = createInstance rec2 tok cls w.
Proof. intros Ha. unfold createInstance. by rewrite (run_ctor_agree _ a w Ha). Qed.
End Agree.

Lemma resolve_is_resolve_on_registry fuel : ∀ p c tok w,
  activeContainer w = Some p →
  resolve fuel c tok w = resolve_on_registry fuel c tok w.
Proof.
  induction fuel as [|fuel IH]; intros p c tok w Ha; [done|].
  rewrite ambient_resolve_S. cbn [resolve_on_registry].
  destruct (bindings (container_at w c) !! key tok) as [b|]; [|done].
  destruct (in_flight tok (resolutionStack (container_at w c))); [done|].
  assert (Hcreate :
    createInstance (resolve fuel) tok (implementation b) (entered c tok w) =
    moved (Some c)
      (createInstance (resolve_on_registry fuel) tok (directed c (implementation b))
         (update c (push tok) w))).
  { rewrite (createInstance_directed _ (ambient_resolve_frame fuel) c) by done.
    rewrite (createInstance_agree _ _ (ambient_resolve_frame fuel)
               (fun a c t w Ha => IH a c t w Ha) _ _ c) by done.
    change (entered c tok w) with (with_active (Some c) (update c (push tok) w)).
    apply (createInstance_moves _ (resolve_on_registry_moves fuel)). }
  rewrite Hcreate.
  assert (Hsettle : ∀ r w3,
    createInstance (resolve_on_registry fuel) tok (directed c (implementation b))
      (update c (push tok) w) = Some (r, w3) →
    settle c tok b (activeContainer w) r (with_active (Some c) w3) =
    update c pop match r, lifecycle b with
                 | Return instance, Singleton => update c (cache tok instance) w3
                 | _, _ => w3
                 end).
  { intros r w3 Hc.
    apply (createInstance_keeps_active _ _ _ _ _ _ _ (resolve_on_registry_moves fuel))
      in Hc. simpl in Hc. rewrite Ha in Hc.
    destruct w3 as [cs act h]. simpl in Hc. subst act. rewrite Ha. unfold settle.
    by destruct r, (lifecycle b). }
  destruct (createInstance (resolve_on_registry fuel) tok
              (directed c (implementation b)) (update c (push tok) w))
    as [[r w3]|] eqn:Hc; cbn [moved].
  - rewrite (Hsettle r w3 eq_refl).
    destruct (lifecycle b);
      [destruct (singletons (container_at w c) !! key tok); [done|]|]; by destruct r.
  - by destruct (lifecycle b);
      [destruct (singletons (container_at w c) !! key tok)|].
Qed.

(** C9. A [resolve] on container [c] that finds container [p] active comes
    back, with a value or a failure, with [p] active again.  In between it
    has installed itself: the call does exactly what the resolution does
    in which every [get(token)] of a constructor is a [resolve(token)] on
    the container that is constructing, whichever container [p] is, down
    through the nested constructions; while the constructor runs, [c] is
    the active container. *)
Theorem resolve_restores_active fuel c tok w p :
  activeContainer w = Some p →
  available w < fuel →
  (∃ r w', resolve fuel c tok w = Some (r, w') ∧ activeContainer w' = Some p) ∧
  resolve fuel c tok w = resolve_on_registry fuel c tok w ∧
  activeContainer (entered c tok w) = Some c ∧
  ∀ f cls,
    createInstance (resolve f) tok cls (entered c tok w) =
    createInstance (resolve f) tok (directed c cls) (entered c tok w).
Proof.
  intros Ha Hfuel. split; [|split; [|split]].
  - destruct (ambient_resolve_total fuel c tok w Hfuel) as [[r w'] Hr].
    exists r, w'. split; [done|].
    by apply (frame_active _ _ (ambient_resolve_frame _ _ _ _ _ _ Hr)).
  - by eapply resolve_is_resolve_on_registry.
  - done.
  - intros f cls. apply createInstance_directed; [apply ambient_resolve_frame | done].
Qed.

Lemma resolve_restores_active_witness :
  let w := setContainer 1 Example.production in
  activeContainer w = Some 1 ∧
  (∃ r w', resolve 5 0 Example.UserNotificationService w = Some (r, w') ∧
           activeContainer w' = Some 1) ∧
  (∃ r w', resolve 5 0 Example.Audit w = Some (r, w') ∧
           activeContainer w' = Some 1) ∧
  resolve 5 0 Example.UserNotificationService w =
    resolve_on_registry 5 0 Example.UserNotificationService w ∧
  ∃ v w', resolve_on_registry 5 0 Example.UserNotificationService w
            = Some (Return v, w').
Proof.
  intros w. split; [reflexivity|]. split; [|split; [|split]].
  - refine (proj1 (resolve_restores_active 5 0 Example.UserNotificationService w 1 _ _));
      [reflexivity | vm_compute; lia].
  - refine (proj1 (resolve_restores_active 5 0 Example.Audit w 1 _ _));
      [reflexivity | vm_compute; lia].
  - refine (proj1 (proj2
              (resolve_restores_active 5 0 Example.UserNotificationService w 1 _ _)));
      [reflexivity | vm_compute; lia].
  - eexists _, _. vm_compute. reflexivity.
Defined.

End ActiveContainerFacts.

(** * The messages of the failures *)








